(** * yotagrabber: the crawl controller of [yotagrabber/vehicles.py]

    A shallow embedding of [get_vehicles_query], [query_toyota],
    [get_all_pages] and the guard of [update_vehicles], together with the
    properties of the crawl: rendering of the per-zone query, tolerance of
    malformed responses, credential refresh, page ceiling, convergence,
    deduplication and first-seen-wins merging.

    Python values are modelled as follows.
    - [str] is a list of characters ([text]); [str.replace] is written out.
    - A decoded JSON document is the inductive [json]; subscripting,
      truthiness and [in] follow Python on each shape of value.
    - A [DataFrame] is the list of its rows in row order; a row carries its
      [vin] column and the remaining columns as an opaque payload.
    - Everything the process obtains from outside (template file, MODEL
      variable, random source, clock, WAF bypass, HTTP endpoint, pandas'
      record flattening) is a field of [Env]; the k-th use of an oracle reads
      its k-th answer.  Reading the template gives its text or the exception
      of [open] or [read].  The mutable part is [World]: how often each
      oracle was used, the memo table of [@cache], keyed by the arguments of
      the call as they are written ([args]), and the trace of bypass runs,
      requests and sleeps.
    - The clock is read in whole seconds.
    - [print] is not modelled in the crawl.
    - [while True] is unrolled with fuel; [get_all_pages_total] shows that 41
      units are always enough.

    Beyond the crawl, [extract_marketing_long_names] is embedded on [json]
    values, with the set as the list of its members, and the statements of
    [update_vehicles] that follow the crawl are embedded as [report], over
    frames that carry their column labels ([Table]); what they read from the
    disk and the calls of pandas that depend on the cells are the fields of
    [Desk], and what they print or write is kept as a list of [effect]s. *)

From Stdlib Require Import List String Ascii ZArith Lia Bool Arith PeanoNat.
From Stdlib Require Import DecimalString DecimalNat Sorted.
Import ListNotations.

Set Implicit Arguments.
Set Warnings "-register-all,-abstract-large-number".

(** ** Text and [str.replace] *)

Definition text := list ascii.

Definition lit (s : string) : text := list_ascii_of_string s.

Fixpoint startswith (p s : text) : bool :=
  match p, s with
  | [], _ => true
  | _ :: _, [] => false
  | a :: p', b :: s' => Ascii.eqb a b && startswith p' s'
  end.

(** [x in s] for strings: [q] is a contiguous part of [s]. *)
Fixpoint str_in (q s : text) : bool :=
  match s with
  | [] => startswith q []
  | _ :: s' => startswith q s || str_in q s'
  end.

(** Left to right scan of [str.replace] for a non-empty [old]: at a match
    the replacement is emitted and the next [length old - 1] characters are
    skipped, so matches never overlap. *)
Fixpoint replace_scan (old new : text) (skip : nat) (s : text) : text :=
  match s with
  | [] => []
  | c :: s' =>
      match skip with
      | S k => replace_scan old new k s'
      | O =>
          if startswith old s
          then new ++ replace_scan old new (List.length old - 1) s'
          else c :: replace_scan old new 0 s'
      end
  end.

(** [s.replace(old, new)].  With an empty [old] Python inserts [new] before
    every character and at the end. *)
Definition str_replace (old new s : text) : text :=
  match old with
  | [] => new ++ flat_map (fun c => c :: new) s
  | _ :: _ => replace_scan old new 0 s
  end.

(** [str(n)] for a non-negative integer. *)
Definition str_of_nat (n : nat) : text :=
  lit (NilEmpty.string_of_uint (Nat.to_uint n)).

(** ** Exceptions and results *)

Inductive exn : Type :=
| KeyError
| TypeError
| OSError
| UnicodeDecodeError
| RequestException
| WAFBypassError
| PandasError
| SystemExit (msg : string).

Inductive outcome (A : Type) : Type :=
| Ok (a : A)
| Raise (e : exn).

Arguments Ok {A} a.
Arguments Raise {A} e.

(** ** Decoded JSON and the Python operations used on it *)

(** Numbers are restricted to integers; an object is the [dict] that
    [resp.json()] builds, as its list of items. *)
Inductive json : Type :=
| JNull
| JBool (b : bool)
| JNum (z : Z)
| JStr (s : string)
| JArr (l : list json)
| JObj (m : list (string * json)).

Fixpoint dict_get {V : Type} (m : list (string * V)) (k : string) : option V :=
  match m with
  | [] => None
  | (k', v) :: m' => if String.eqb k k' then Some v else dict_get m' k
  end.

(** [v[k]] with a string key. *)
Definition py_getitem (v : json) (k : string) : outcome json :=
  match v with
  | JObj m =>
      match dict_get m k with
      | Some x => Ok x
      | None => Raise KeyError
      end
  | _ => Raise TypeError
  end.

(** Truth value of [v], as [not v] and [v and ...] use it. *)
Definition py_truthy (v : json) : bool :=
  match v with
  | JNull => false
  | JBool b => b
  | JNum z => negb (Z.eqb z 0)
  | JStr s => negb (String.eqb s "")
  | JArr l => match l with [] => false | _ :: _ => true end
  | JObj m => match m with [] => false | _ :: _ => true end
  end.

Definition is_jstr (k : string) (v : json) : bool :=
  match v with
  | JStr s => String.eqb k s
  | _ => false
  end.

(** [k in v] with a string [k]: key of a dict, element of a list, part of a
    string; the other values are not containers. *)
Definition py_in (k : string) (v : json) : outcome bool :=
  match v with
  | JObj m => Ok (existsb (fun kv => String.eqb k (fst kv)) m)
  | JArr l => Ok (existsb (is_jstr k) l)
  | JStr s => Ok (str_in (lit k) (lit s))
  | _ => Raise TypeError
  end.

(** [len(v)]. *)
Definition py_len (v : json) : outcome nat :=
  match v with
  | JObj m => Ok (List.length m)
  | JArr l => Ok (List.length l)
  | JStr s => Ok (String.length s)
  | _ => Raise TypeError
  end.

(** ** Rows, frames, and [drop_duplicates] *)

Record Item : Type := mkItem {
  vin : string;
  payload : string
}.

Definition DataFrame := list Item.

Definition keys (d : DataFrame) : list string := map vin d.

Fixpoint mem (k : string) (l : list string) : bool :=
  match l with
  | [] => false
  | k' :: l' => String.eqb k k' || mem k l'
  end.

(** Rows whose [vin] was seen earlier are dropped, the others stay in
    order: [keep="first"], the default. *)
Fixpoint drop_seen (seen : list string) (d : DataFrame) : DataFrame :=
  match d with
  | [] => []
  | x :: d' =>
      if mem (vin x) seen then drop_seen seen d'
      else x :: drop_seen (vin x :: seen) d'
  end.

(** [df.drop_duplicates(subset=["vin"], inplace=True)]. *)
Definition drop_duplicates (d : DataFrame) : DataFrame := drop_seen [] d.

(** The row stored under a key: the first one in row order. *)
Fixpoint row_of (k : string) (d : DataFrame) : option Item :=
  match d with
  | [] => None
  | x :: d' => if String.eqb k (vin x) then Some x else row_of k d'
  end.

(** ** The outside world *)

Definition header_map := list (string * string).

Record response : Type := mkResponse {
  resp_json : option json;   (* [None]: [resp.json()] raises JSONDecodeError *)
  resp_text : string         (* [resp.text], which is only printed *)
}.

Record Env : Type := mkEnv {
  (* what opening and reading graphql/vehicles.graphql gives: its text, or
     the exception of [open] (OSError) or of [read] (UnicodeDecodeError) *)
  graphql_file : outcome text;
  (* os.environ.get("MODEL") *)
  MODEL : option text;
  (* the system random source, one answer per draw *)
  urandom : nat -> Z;
  (* timeit.default_timer in seconds, one answer per reading *)
  default_timer : nat -> Z;
  (* wafbypass.WAFBypass().run(), one answer per run *)
  waf_run : nat -> outcome header_map;
  (* requests.post to the inventory endpoint: the k-th request, its query
     document and headers *)
  requests_post : nat -> text -> header_map -> outcome response;
  (* pd.json_normalize on the value of "vehicleSummary" *)
  json_normalize : json -> outcome DataFrame
}.

Inductive event : Type :=
| EvWaf
| EvPost (page : nat) (query : text) (h : header_map)
| EvSleep (seconds : nat).

(** The arguments of a call of [get_vehicles_query].  [functools.cache]
    keys its table by the positional and the keyword arguments of the call
    as they are written, so that [get_vehicles_query()],
    [get_vehicles_query("west")] and [get_vehicles_query(zone="west")] have
    an entry each.  The zone is a string. *)
Inductive args : Type :=
| NoArgs
| Positional (zone : string)
| Keyword (zone : string).

(** The zone that the body of the function sees; its default is "west". *)
Definition zone_of (a : args) : string :=
  match a with
  | NoArgs => "west"
  | Positional zone | Keyword zone => zone
  end.

Definition args_eqb (a b : args) : bool :=
  match a, b with
  | NoArgs, NoArgs => true
  | Positional x, Positional y => String.eqb x y
  | Keyword x, Keyword y => String.eqb x y
  | _, _ => false
  end.

(** The entry of the memo table for the arguments [a]. *)
Fixpoint cache_get (m : list (args * text)) (a : args) : option text :=
  match m with
  | [] => None
  | (a', q) :: m' => if args_eqb a a' then Some q else cache_get m' a
  end.

Record World : Type := mkWorld {
  rng_draws : nat;
  timer_reads : nat;
  waf_runs : nat;
  posts : nat;
  query_cache : list (args * text);   (* memo table of [@cache] *)
  trace : list event
}.

Definition world0 : World := mkWorld 0 0 0 0 [] [].

(** ** A state and exception monad over [World] *)

Definition M (A : Type) : Type := World -> outcome A * World.

Definition ret {A : Type} (a : A) : M A := fun w => (Ok a, w).

Definition raise {A : Type} (e : exn) : M A := fun w => (Raise e, w).

Definition bind {A B : Type} (c : M A) (f : A -> M B) : M B :=
  fun w =>
    match c w with
    | (Ok a, w') => f a w'
    | (Raise e, w') => (Raise e, w')
    end.

Definition lift {A : Type} (o : outcome A) : M A := fun w => (o, w).

Declare Scope monad_scope.
Delimit Scope monad_scope with monad.
Notation "x <- c ;; k" := (bind c (fun x => k))
  (at level 61, c at next level, right associativity) : monad_scope.
Notation "c ;;; k" := (bind c (fun _ => k))
  (at level 61, right associativity) : monad_scope.
Local Open Scope monad_scope.

(** Appending an event to the trace. *)
Definition log (e : event) : M unit :=
  fun w => (Ok tt, mkWorld (rng_draws w) (timer_reads w) (waf_runs w) (posts w)
                           (query_cache w) (trace w ++ [e])).

(** [timer()]. *)
Definition timer (E : Env) : M Z :=
  fun w => (Ok (default_timer E (timer_reads w)),
            mkWorld (rng_draws w) (S (timer_reads w)) (waf_runs w) (posts w)
                    (query_cache w) (trace w)).

(** One draw from the random source. *)
Definition draw (E : Env) : M Z :=
  fun w => (Ok (urandom E (rng_draws w)),
            mkWorld (S (rng_draws w)) (timer_reads w) (waf_runs w) (posts w)
                    (query_cache w) (trace w)).

(** [wafbypass.WAFBypass().run()]. *)
Definition waf_bypass (E : Env) : M header_map :=
  fun w => (waf_run E (waf_runs w),
            mkWorld (rng_draws w) (timer_reads w) (S (waf_runs w)) (posts w)
                    (query_cache w) (trace w ++ [EvWaf])).

(** [requests.post(url, json={"query": query}, headers=headers, timeout=15)],
    issued for [page]. *)
Definition post (E : Env) (page : nat) (query : text) (h : header_map)
  : M response :=
  fun w => (requests_post E (posts w) query h,
            mkWorld (rng_draws w) (timer_reads w) (waf_runs w) (S (posts w))
                    (query_cache w) (trace w ++ [EvPost page query h])).

(** [sleep(seconds)]. *)
Definition sleep (seconds : nat) : M unit := log (EvSleep seconds).

(** Reading and writing the memo table of [get_vehicles_query]. *)
Definition cache_lookup (a : args) : M (option text) :=
  fun w => (Ok (cache_get (query_cache w) a), w).

Definition cache_store (a : args) (q : text) : M unit :=
  fun w => (Ok tt, mkWorld (rng_draws w) (timer_reads w) (waf_runs w) (posts w)
                           ((a, q) :: query_cache w) (trace w)).

(** ** [secrets.randbelow] and [uuid.uuid4] *)

(** [randbelow(n)]: a draw, reduced below [n]. *)
Definition randbelow (E : Env) (n : nat) : M nat :=
  r <- draw E ;; ret (Z.to_nat (r mod Z.of_nat n)%Z).

(** The hexadecimal digit of [d], in lower case. *)
Definition hex_char (d : Z) : ascii :=
  nth (Z.to_nat d) (lit "0123456789abcdef") "0"%char.

(** ['%0kx' % v], the [k] low hexadecimal digits of [v]. *)
Fixpoint to_hex (k : nat) (v : Z) : text :=
  match k with
  | O => []
  | S k' => to_hex k' (v / 16)%Z ++ [hex_char (v mod 16)%Z]
  end.

(** The integer of a version 4 UUID made from 16 random bytes. *)
Definition uuid4_int (r : Z) : Z :=
  let i := (r mod 2 ^ 128)%Z in
  let i := Z.land i (Z.lnot (Z.shiftl 49152 48)) in
  let i := Z.lor i (Z.shiftl 32768 48) in
  let i := Z.land i (Z.lnot (Z.shiftl 61440 64)) in
  Z.lor i (Z.shiftl 4 76).

(** [str(u)] for a UUID: 8-4-4-4-12 hexadecimal digits. *)
Definition uuid_str (i : Z) : text :=
  let h := to_hex 32 i in
  firstn 8 h ++ lit "-" ++ firstn 4 (skipn 8 h) ++ lit "-" ++
  firstn 4 (skipn 12 h) ++ lit "-" ++ firstn 4 (skipn 16 h) ++ lit "-" ++
  skipn 20 h.

Definition uuid4 (E : Env) : M text :=
  r <- draw E ;; ret (uuid_str (uuid4_int r)).

(** ** [get_vehicles_query] *)

(** The [zip_codes] dict and the placeholders of the template. *)
Definition zip_codes : list (string * text) :=
  [ ("west"%string, lit "84101");
    ("central"%string, lit "73007");
    ("east"%string, lit "27608") ].

Definition ZIPCODE : text := lit "ZIPCODE".
Definition MODELCODE : text := lit "MODELCODE".
Definition DISTANCEMILES : text := lit "DISTANCEMILES".
Definition LEADIDUUID : text := lit "LEADIDUUID".
Definition PAGENUMBER : text := lit "PAGENUMBER".

(** The body of [get_vehicles_query], run on a cache miss. *)
Definition render_query (E : Env) (zone : string) : M text :=
  query <- lift (graphql_file E) ;;
  zip_code <- lift (match dict_get zip_codes zone with
                    | Some z => Ok z
                    | None => Raise KeyError
                    end) ;;
  let query := str_replace ZIPCODE zip_code query in
  model <- lift (match MODEL E with
                 | Some m => Ok m
                 | None => Raise TypeError
                 end) ;;
  let query := str_replace MODELCODE model query in
  r <- randbelow E 1000 ;;
  let query := str_replace DISTANCEMILES (str_of_nat (5823 + r)) query in
  u <- uuid4 E ;;
  let query := str_replace LEADIDUUID u query in
  ret query.

(** [get_vehicles_query] under [@cache], called with the arguments [a]: a
    result stored for these arguments is returned as it is, otherwise the
    body runs for the zone of the call; a result is stored only when the
    body returns. *)
Definition get_vehicles_query (E : Env) (a : args) : M text :=
  hit <- cache_lookup a ;;
  match hit with
  | Some q => ret q
  | None =>
      q <- render_query E (zone_of a) ;;
      cache_store a q ;;;
      ret q
  end.

(** ** [query_toyota] *)

(** The [try] holds the decoding and the two subscripts, and its [except]
    names JSONDecodeError only: the KeyError or TypeError of a subscript is
    not caught.  [None] is returned for a body that does not decode and for
    a result that is falsy or lacks "vehicleSummary". *)
Definition query_toyota (E : Env) (page_number : nat) (query : text)
  (h : header_map) : M (option json) :=
  let query := str_replace PAGENUMBER (str_of_nat page_number) query in
  resp <- post E page_number query h ;;
  match resp_json resp with
  | None => ret None
  | Some body =>
      data <- lift (py_getitem body "data") ;;
      result <- lift (py_getitem data "locateVehiclesByZip") ;;
      if negb (py_truthy result) then ret None
      else
        present <- lift (py_in "vehicleSummary" result) ;;
        if negb present then ret None else ret (Some result)
  end.

(** ** [get_all_pages] *)

(** The local variables of [get_all_pages] that live across iterations. *)
Record Loop : Type := mkLoop {
  df : DataFrame;
  page_number : nat;
  west_query : text;
  central_query : text;
  east_query : text;
  headers : header_map;
  timer_start : Z;
  last_run_counter : nat
}.

(** Which [break] left the loop. *)
Inductive exit_reason : Type :=
| PageCeiling
| Converged.

Inductive step : Type :=
| Next (st : Loop)
| Break (why : exit_reason) (d : DataFrame).

(** Everything before [while True]. *)
Definition enter_loop (E : Env) : M Loop :=
  wq <- get_vehicles_query E (Keyword "west") ;;
  cq <- get_vehicles_query E (Keyword "central") ;;
  eq <- get_vehicles_query E (Keyword "east") ;;
  h <- waf_bypass E ;;
  t <- timer E ;;
  ret (mkLoop [] 1 wq cq eq h t 0).

(** The WAF bypass refresh at the top of an iteration. *)
Definition refresh_waf (E : Env) (st : Loop) : M Loop :=
  now <- timer E ;;
  let elapsed_time := (now - timer_start st)%Z in
  if (4 * 60 <? elapsed_time)%Z then
    h <- waf_bypass E ;;
    t <- timer E ;;
    ret (mkLoop (df st) (page_number st) (west_query st) (central_query st)
                (east_query st) h t (last_run_counter st))
  else ret st.

(** One zone of one page: query, test of the result, [pd.concat]. *)
Definition merge_zone (E : Env) (page : nat) (query : text) (h : header_map)
  (d : DataFrame) : M DataFrame :=
  result <- query_toyota E page query h ;;
  match result with
  | None => ret d
  | Some r =>
      if py_truthy r then
        present <- lift (py_in "vehicleSummary" r) ;;
        if present then
          vs <- lift (py_getitem r "vehicleSummary") ;;
          _ <- lift (py_len vs) ;;
          rows <- lift (json_normalize E vs) ;;
          ret (d ++ rows)
        else ret d
      else ret d
  end.

(** The three zones of a page, west, central, east. *)
Definition fetch_page (E : Env) (st : Loop) : M DataFrame :=
  d <- merge_zone E (page_number st) (west_query st) (headers st) (df st) ;;
  d <- merge_zone E (page_number st) (central_query st) (headers st) d ;;
  merge_zone E (page_number st) (east_query st) (headers st) d.

(** After the fetches: drop duplicates, compare with the previous count,
    then either [break] or count, advance and sleep. *)
Definition conclude (st : Loop) (d : DataFrame) : M step :=
  let d := drop_duplicates d in
  if List.length d =? last_run_counter st then ret (Break Converged d)
  else
    sleep 10 ;;;
    ret (Next (mkLoop d (page_number st + 1) (west_query st) (central_query st)
                      (east_query st) (headers st) (timer_start st)
                      (List.length d))).

(** One pass through the body of [while True]. *)
Definition iteration (E : Env) (st : Loop) : M step :=
  if 40 <? page_number st then ret (Break PageCeiling (df st))
  else
    st <- refresh_waf E st ;;
    d <- fetch_page E st ;;
    conclude st d.

(** The loop, unrolled at most [fuel] times; [None] when [fuel] runs out
    before a [break]. *)
Fixpoint loop (fuel : nat) (E : Env) (st : Loop) : M (option (exit_reason * DataFrame)) :=
  match fuel with
  | O => ret None
  | S fuel' =>
      s <- iteration E st ;;
      match s with
      | Break why d => ret (Some (why, d))
      | Next st' => loop fuel' E st'
      end
  end.

Definition get_all_pages (fuel : nat) (E : Env) : M (option (exit_reason * DataFrame)) :=
  st <- enter_loop E ;;
  loop fuel E st.

(** ** [update_vehicles], up to the crawl *)

Definition is_empty (s : text) : bool :=
  match s with
  | [] => true
  | _ :: _ => false
  end.

(** [USE_LOCAL_DATA_ONLY] is [False]; what follows the crawl (the tabular
    transform and the files written) is not part of this model. *)
Definition update_vehicles (fuel : nat) (E : Env)
  : M (option (exit_reason * DataFrame)) :=
  match MODEL E with
  | None => raise (SystemExit "Set the MODEL environment variable first")
  | Some m =>
      if is_empty m
      then raise (SystemExit "Set the MODEL environment variable first")
      else get_all_pages fuel E
  end.

(** * Notions used in the statements *)

Unset Strict Implicit.

(** ** The world after one action *)

(** The world after one more reading of the clock. *)
Definition tick (w : World) : World :=
  mkWorld (rng_draws w) (S (timer_reads w)) (waf_runs w) (posts w)
          (query_cache w) (trace w).

(** The world after one more draw from the random source. *)
Definition drawn (w : World) : World :=
  mkWorld (S (rng_draws w)) (timer_reads w) (waf_runs w) (posts w)
          (query_cache w) (trace w).

(** The world after one more run of the WAF bypass. *)
Definition bypassed (w : World) : World :=
  mkWorld (rng_draws w) (timer_reads w) (S (waf_runs w)) (posts w)
          (query_cache w) (trace w ++ [EvWaf]).

(** The world after one more request. *)
Definition posted (w : World) (e : event) : World :=
  mkWorld (rng_draws w) (timer_reads w) (waf_runs w) (S (posts w))
          (query_cache w) (trace w ++ [e]).

(** The world after the pause between two pages. *)
Definition slept (w : World) : World :=
  mkWorld (rng_draws w) (timer_reads w) (waf_runs w) (posts w)
          (query_cache w) (trace w ++ [EvSleep 10]).

(** The world after a rendered query is stored in the memo table. *)
Definition stored (w : World) (a : args) (q : text) : World :=
  mkWorld (rng_draws w) (timer_reads w) (waf_runs w) (posts w)
          ((a, q) :: query_cache w) (trace w).

(** ** The loop variables after a step, and the requests of a page *)

(** The loop variables after a refresh. *)
Definition with_headers (st : Loop) (h : header_map) (t : Z) : Loop :=
  mkLoop (df st) (page_number st) (west_query st) (central_query st)
         (east_query st) h t (last_run_counter st).

(** The loop variables for the next page, with the frame [d]. *)
Definition advance (st : Loop) (d : DataFrame) : Loop :=
  mkLoop d (page_number st + 1) (west_query st) (central_query st)
         (east_query st) (headers st) (timer_start st) (List.length d).

(** The query of a request: the zone query with the page number
    substituted, as [query_toyota] sends it. *)
Definition page_query (page : nat) (query : text) : text :=
  str_replace PAGENUMBER (str_of_nat page) query.

(** The three requests of the page that [st] is at. *)
Definition west_post (st : Loop) : event :=
  EvPost (page_number st) (page_query (page_number st) (west_query st)) (headers st).

Definition central_post (st : Loop) : event :=
  EvPost (page_number st) (page_query (page_number st) (central_query st)) (headers st).

Definition east_post (st : Loop) : event :=
  EvPost (page_number st) (page_query (page_number st) (east_query st)) (headers st).

(** ** What a run adds to the trace and to the memo table *)

(** [keeps R c]: every run of [c] relates the world before to the world
    after by [R], whatever the outcome. *)
Definition keeps {A : Type} (R : World -> World -> Prop) (c : M A) : Prop :=
  forall w r w', c w = (r, w') -> R w w'.

(** [after P w w']: the trace of [w'] is the trace of [w] followed by events
    that all satisfy [P]. *)
Definition after (P : event -> Prop) (w w' : World) : Prop :=
  exists evs, trace w' = trace w ++ evs /\ Forall P evs.

(** [on_posts Q e]: if [e] is a request, its page satisfies [Q]. *)
Definition on_posts (Q : nat -> Prop) (e : event) : Prop :=
  match e with
  | EvPost p _ _ => Q p
  | _ => True
  end.

(** [zone_requests st e]: if [e] is a request, its query is one of the three
    zone queries of [st] with the page number of the request substituted. *)
Definition zone_requests (st : Loop) (e : event) : Prop :=
  match e with
  | EvPost p q _ =>
      q = page_query p (west_query st) \/
      q = page_query p (central_query st) \/
      q = page_query p (east_query st)
  | _ => True
  end.

(** The pages for which a request was issued, in order. *)
Fixpoint posted_pages (evs : list event) : list nat :=
  match evs with
  | [] => []
  | EvPost p _ _ :: evs' => p :: posted_pages evs'
  | _ :: evs' => posted_pages evs'
  end.

(** [posted_as l w w']: between [w] and [w'] requests were issued for the
    pages [l], in this order. *)
Definition posted_as (l : list nat) (w w' : World) : Prop :=
  exists evs, trace w' = trace w ++ evs /\ posted_pages evs = l.

(** The pages of the requests of one processed page, and of the pages 1 to
    [k]: three requests for each. *)
Definition thrice (n : nat) : list nat := [n; n; n].

Definition pages_upto (k : nat) : list nat := flat_map thrice (seq 1 k).

(** The memo table is the same in [w] and in [w']. *)
Definition same_cache (w w' : World) : Prop := query_cache w' = query_cache w.

(** [cache_kept w w']: every entry of the memo table in [w] is still there,
    with the same text, in [w']. *)
Definition cache_kept (w w' : World) : Prop :=
  forall a q, cache_get (query_cache w) a = Some q ->
              cache_get (query_cache w') a = Some q.

(** ** The heads of the loop *)

(** What holds of the loop variables whenever the loop is at its head: the
    counter is the size of the frame, and the frame has no duplicate key. *)
Definition Inv (st : Loop) : Prop :=
  last_run_counter st = List.length (df st) /\ NoDup (keys (df st)).

(** The loop variables and the world at the head of the loop after [k]
    completed iterations, when the run gets that far. *)
Fixpoint loop_head (E : Env) (k : nat) (w0 : World) : option (Loop * World) :=
  match k with
  | O =>
      match enter_loop E w0 with
      | (Ok st, w) => Some (st, w)
      | _ => None
      end
  | S k' =>
      match loop_head E k' w0 with
      | Some (st, w) =>
          match iteration E st w with
          | (Ok (Next st'), w') => Some (st', w')
          | _ => None
          end
      | None => None
      end
  end.

(** The controller is about to process page [n]. *)
Definition at_page (E : Env) (n : nat) (w0 : World) : option (Loop * World) :=
  match n with
  | O => None
  | S k => loop_head E k w0
  end.

(** Page [n] of a run in which the page is processed and its refresh and
    its three zones return: the loop variables at the head of the iteration,
    the frame after each [pd.concat], and the world after the last one. *)
Record PageRun : Type := mkPageRun {
  head : Loop;
  after_west : DataFrame;
  after_central : DataFrame;
  after_east : DataFrame;
  world_after : World
}.

(** [None] when the run does not reach page [n], when page [n] is beyond the
    ceiling, or when the refresh or one of the zones raises. *)
Definition page_fetched (E : Env) (n : nat) (w0 : World) : option PageRun :=
  match at_page E n w0 with
  | Some (st, w) =>
      if 40 <? page_number st then None
      else
        match refresh_waf E st w with
        | (Ok st1, w1) =>
            match merge_zone E (page_number st1) (west_query st1) (headers st1)
                             (df st1) w1 with
            | (Ok dw, w2) =>
                match merge_zone E (page_number st1) (central_query st1)
                                 (headers st1) dw w2 with
                | (Ok dc, w3) =>
                    match merge_zone E (page_number st1) (east_query st1)
                                     (headers st1) dc w3 with
                    | (Ok de, w4) => Some (mkPageRun st dw dc de w4)
                    | _ => None
                    end
                | _ => None
                end
            | _ => None
            end
        | _ => None
        end
  | None => None
  end.

(** Every row in the frame after the fetches of page [n] has a key that the
    frame had before them. *)
Definition nothing_new_on_page (E : Env) (n : nat) (w0 : World) : bool :=
  match page_fetched E n w0 with
  | Some pr => forallb (fun x => mem (vin x) (keys (df (head pr)))) (after_east pr)
  | None => false
  end.

(** Some row fetched on page [n] has a key that the frame did not have. *)
Definition new_item_on_page (E : Env) (n : nat) (w0 : World) : bool :=
  match page_fetched E n w0 with
  | Some pr =>
      existsb (fun x => negb (mem (vin x) (keys (df (head pr))))) (after_east pr)
  | None => false
  end.

(** [kept d d']: every key of [d] is still in [d'], with the same row, and
    [d'] has at least as many rows. *)
Definition kept (d d' : DataFrame) : Prop :=
  (forall key x, row_of key d = Some x -> row_of key d' = Some x) /\
  List.length d <= List.length d'.

(** [first_kept all d]: no key is in [d] twice, and for each key of [all]
    the row that [d] has is the one that comes first in [all]; the later
    rows of [all] with that key are not in [d]. *)
Definition first_kept (all d : DataFrame) : Prop :=
  NoDup (keys d) /\
  forall x, In (vin x) (keys all) ->
            (In x d <-> row_of (vin x) all = Some x).

(** ** The rendered query and the characters of its parts *)

(** The text that [get_vehicles_query] builds from the template [t], the
    zip code [z], the model [m] and two draws [r1], [r2]. *)
Definition rendered (t z m : text) (r1 r2 : Z) : text :=
  str_replace LEADIDUUID (uuid_str (uuid4_int r2))
    (str_replace DISTANCEMILES
       (str_of_nat (5823 + Z.to_nat (r1 mod Z.of_nat 1000)))
       (str_replace MODELCODE m (str_replace ZIPCODE z t))).

(** [avoids n q]: no character of [n] is a character of [q]. *)
Definition avoids (n q : text) : bool :=
  forallb (fun c => negb (existsb (Ascii.eqb c) q)) n.

(** One of [x] and [y] is a prefix of the other. *)
Definition comparable (x y : text) : bool := startswith x y || startswith y x.

(** [no_clash p q]: an occurrence of [p] and an occurrence of [q] in one
    text never overlap.  No tail of [p] is a prefix of [q] or has [q] as a
    prefix, and the same with [p] and [q] exchanged. *)
Definition no_clash (p q : text) : bool :=
  forallb (fun i => negb (comparable (skipn i p) q)) (seq 0 (List.length p)) &&
  forallb (fun i => negb (comparable (skipn i q) p)) (seq 0 (List.length q)).

(** [within al t]: every character of [t] is one of [al]. *)
Definition within (al t : text) : bool :=
  forallb (fun c => existsb (Ascii.eqb c) al) t.

(** The characters of a printed number and of a printed UUID. *)
Definition decimal_digits : text := lit "0123456789".

Definition uuid_alphabet : text := lit "0123456789abcdef-".

(** ** A small outside world to run the model on *)

(** A row as the endpoint sends it, and back. *)
Definition item_json (x : Item) : json :=
  JObj [("vin"%string, JStr (vin x)); ("payload"%string, JStr (payload x))].

(** A well-formed answer of the endpoint carrying the rows [l]. *)
Definition inventory_json (l : list Item) : json :=
  JObj [("data"%string,
         JObj [("locateVehiclesByZip"%string,
                JObj [("vehicleSummary"%string, JArr (map item_json l))])])].

Definition read_item (v : json) : option Item :=
  match v with
  | JObj m =>
      match dict_get m "vin", dict_get m "payload" with
      | Some (JStr a), Some (JStr b) => Some (mkItem a b)
      | _, _ => None
      end
  | _ => None
  end.

Fixpoint read_items (l : list json) : outcome DataFrame :=
  match l with
  | [] => Ok []
  | v :: l' =>
      match read_item v, read_items l' with
      | Some x, Ok d => Ok (x :: d)
      | _, _ => Raise PandasError
      end
  end.

(** A reading of [pd.json_normalize] for rows with the two members
    "vin" and "payload". *)
Definition example_normalize (v : json) : outcome DataFrame :=
  match v with
  | JArr l => read_items l
  | _ => Raise PandasError
  end.

(** A template with the five placeholders. *)
Definition example_template : text :=
  lit "{ zip: ZIPCODE, model: MODELCODE, miles: DISTANCEMILES, lead: LEADIDUUID, page: PAGENUMBER }".

Definition example_headers : header_map := [("cookie"%string, "waf-token"%string)].

(** The response whose body carries the rows [l]. *)
Definition rows_response (l : list Item) : response :=
  mkResponse (Some (inventory_json l)) "".

(** The world in which the [k]-th request is answered with [answer k], the
    clock reads [clock k] at its [k]-th reading and MODEL is [model]. *)
Definition example_env (model : option text) (clock : nat -> Z)
  (answer : nat -> response) : Env :=
  mkEnv (Ok example_template) model
        (fun k => (Z.of_nat k * 7919)%Z)
        clock
        (fun _ => Ok example_headers)
        (fun k _ _ => Ok (answer k))
        example_normalize.

(** Loop variables at page 1 with headers [h] obtained at time [t]. *)
Definition example_loop (h : header_map) (t : Z) : Loop :=
  mkLoop [] 1 example_template example_template example_template h t 0.

(** Three worlds. *)
Definition rav4 : option text := Some (lit "RAV4").

Definition car_a : Item := mkItem "JTMAB3FV1RD000001" "Lunar Rock".

Definition car_a_central : Item := mkItem "JTMAB3FV1RD000001" "Lunar Rock, central copy".

(** Every request is answered with the same single car. *)
Definition stale_env : Env :=
  example_env rav4 (fun k => Z.of_nat k) (fun _ => rows_response [car_a]).

(** The [k]-th request is answered with a car whose VIN is the number [k]. *)
Definition fresh_env : Env :=
  example_env rav4 (fun k => Z.of_nat k)
    (fun k => rows_response [mkItem (string_of_list_ascii (str_of_nat k)) "Blueprint"]).

(** On page 1 west and central return the same VIN with different payloads,
    east returns nothing; later pages are empty. *)
Definition collide_env : Env :=
  example_env rav4 (fun k => Z.of_nat k)
    (fun k => match k with
              | 0 => rows_response [car_a]
              | 1 => rows_response [car_a_central]
              | _ => rows_response []
              end).

(** ** More notions, for the properties beyond the crawl controller's *)

(** The loop variables and the world of page [n] after its refresh, when the
    run reaches page [n], the page is within the ceiling and the refresh
    returns. *)
Definition refreshed_at (E : Env) (n : nat) (w0 : World) : option (Loop * World) :=
  match at_page E n w0 with
  | Some (st, w) =>
      if 40 <? page_number st then None
      else
        match refresh_waf E st w with
        | (Ok st1, w1) => Some (st1, w1)
        | _ => None
        end
  | None => None
  end.

(** The requests of a trace, in order: page, query and headers. *)
Fixpoint requests_of (evs : list event) : list (nat * text * header_map) :=
  match evs with
  | [] => []
  | EvPost p q h :: evs' => (p, q, h) :: requests_of evs'
  | _ :: evs' => requests_of evs'
  end.

(** The sleeps of a trace, in order. *)
Fixpoint sleeps_of (evs : list event) : list nat :=
  match evs with
  | [] => []
  | EvSleep s :: evs' => s :: sleeps_of evs'
  | _ :: evs' => sleeps_of evs'
  end.

(** The three requests of page [p] with the zone queries [wq], [cq], [eq]
    and the headers [h]: west, central, east. *)
Definition page_requests (wq cq eq : text) (p : nat) (h : header_map)
  : list (nat * text * header_map) :=
  [ (p, page_query p wq, h); (p, page_query p cq, h); (p, page_query p eq, h) ].

(** The requests of the pages [p], [p + 1], ... with the headers [hs], one
    set of headers for each page. *)
Fixpoint requests_from (wq cq eq : text) (p : nat) (hs : list header_map)
  : list (nat * text * header_map) :=
  match hs with
  | [] => []
  | h :: hs' => page_requests wq cq eq p h ++ requests_from wq cq eq (S p) hs'
  end.


(** A world in which the requests from the [k]-th on get a body that does
    not decode. *)
Definition garbled_env (k : nat) : Env :=
  example_env rav4 (fun i => Z.of_nat i)
    (fun i => if i <? k then rows_response [mkItem (string_of_list_ascii (str_of_nat i)) "Blueprint"]
              else mkResponse None "<html>").

(** A world whose template file holds bytes that do not decode. *)
Definition undecodable_env : Env :=
  mkEnv (Raise UnicodeDecodeError) rav4
        (fun k => (Z.of_nat k * 7919)%Z)
        (fun k => Z.of_nat k)
        (fun _ => Ok example_headers)
        (fun _ _ _ => Ok (rows_response []))
        example_normalize.

(** A world whose MODEL is a lower-case code and whose answers are empty. *)
Definition camry_env : Env :=
  example_env (Some (lit "camry")) (fun k => Z.of_nat k) (fun _ => rows_response []).

(** ** [extract_marketing_long_names] *)

(** What a call of the function ends in.  [item.get] on a value without
    that method raises AttributeError, which the crawl never meets; the
    other exceptions are those of [exn]. *)
Inductive error : Type :=
| AttributeError
| Exn (e : exn).

Inductive attempt (A : Type) : Type :=
| Returns (a : A)
| Raises (e : error).

Arguments Returns {A} a.
Arguments Raises {A} e.

(** The values that [for item in v] runs through: the members of a list,
    the keys of a dict, the characters of a string. *)
Definition py_iter (v : json) : attempt (list json) :=
  match v with
  | JArr l => Returns l
  | JObj m => Returns (map (fun kv => JStr (fst kv)) m)
  | JStr s => Returns (map (fun c => JStr (String c "")) (list_ascii_of_string s))
  | _ => Raises (Exn TypeError)
  end.

(** [item.get(k)]: a dict gives the value of [k], or None without the key;
    no other value has the method. *)
Definition py_get (item : json) (k : string) : attempt json :=
  match item with
  | JObj m =>
      Returns (match dict_get m k with
               | Some v => v
               | None => JNull
               end)
  | _ => Raises AttributeError
  end.

(** Lists and dicts cannot be members of a set. *)
Definition hashable (v : json) : bool :=
  match v with
  | JArr _ | JObj _ => false
  | _ => true
  end.

(** [a == b] between hashable values; [True] equals 1 and [False] 0. *)
Definition py_eq (a b : json) : bool :=
  match a, b with
  | JNull, JNull => true
  | JBool x, JBool y => Bool.eqb x y
  | JNum x, JNum y => Z.eqb x y
  | JBool x, JNum y => Z.eqb (if x then 1 else 0) y
  | JNum x, JBool y => Z.eqb x (if y then 1 else 0)
  | JStr x, JStr y => String.eqb x y
  | _, _ => false
  end.

(** [options.add(v)], the set being the list of its members in the order
    they came in. *)
Definition set_add (v : json) (options : list json) : attempt (list json) :=
  if hashable v
  then Returns (if existsb (py_eq v) options then options else options ++ [v])
  else Raises (Exn TypeError).

(** The [for] loop.  The value that is added is the one that was tested:
    the two calls of [item.get] with one key give the same value. *)
Fixpoint collect (items : list json) (options : list json)
  : attempt (list json) :=
  match items with
  | [] => Returns options
  | item :: rest =>
      match py_get item "marketingName" with
      | Raises e => Raises e
      | Returns name =>
          if py_truthy name then
            match set_add name options with
            | Raises e => Raises e
            | Returns options' => collect rest options'
            end
          else
            match py_get item "marketingLongName" with
            | Raises e => Raises e
            | Returns long =>
                if py_truthy long then
                  match set_add long options with
                  | Raises e => Raises e
                  | Returns options' => collect rest options'
                  end
                else collect rest options
            end
      end
  end.

(** [sorted] on strings: ascending in the order of [str], character by
    character. *)
Fixpoint insert (x : string) (l : list string) : list string :=
  match l with
  | [] => [x]
  | y :: l' => if String.leb x y then x :: l else y :: insert x l'
  end.

Fixpoint sorted (l : list string) : list string :=
  match l with
  | [] => []
  | x :: l' => insert x (sorted l')
  end.

(** The members of [l] as strings, when each of them is a string. *)
Fixpoint strings_of (l : list json) : option (list string) :=
  match l with
  | [] => Some []
  | JStr s :: l' =>
      match strings_of l' with
      | Some r => Some (s :: r)
      | None => None
      end
  | _ :: _ => None
  end.

(** [" | ".join(sorted(options))].  With a member that is not a string
    either [sorted] raises TypeError, on comparing it with a string, or
    [join] does, on meeting it. *)
Definition join_sorted (options : list json) : attempt string :=
  match strings_of options with
  | Some names => Returns (String.concat " | " (sorted names))
  | None => Raises (Exn TypeError)
  end.

Definition extract_marketing_long_names (options_raw : json) : attempt string :=
  match py_iter options_raw with
  | Raises e => Raises e
  | Returns items =>
      match collect items [] with
      | Raises e => Raises e
      | Returns options => join_sorted options
      end
  end.

(** [offers item n]: the dict [item] has the non-empty text [n] as its
    "marketingName", or it has no "marketingName" that counts as true and
    [n] is its non-empty "marketingLongName". *)
Definition offers (item : json) (n : string) : Prop :=
  n <> ""%string /\
  exists m, item = JObj m /\
    (dict_get m "marketingName" = Some (JStr n) \/
     (forall v, dict_get m "marketingName" = Some v -> py_truthy v = false) /\
     dict_get m "marketingLongName" = Some (JStr n)).

(** An option as the endpoint sends it. *)
Definition option_json (name long : json) : json :=
  JObj [("optionCd"%string, JStr "FE"); ("marketingName"%string, name);
        ("marketingLongName"%string, long)].

Definition example_option_list : list json :=
  [ option_json (JStr "Roof Rack") (JStr "Roof Rack Cross Bars");
    option_json JNull (JStr "All-Weather Liner Package");
    option_json (JStr "") (JStr "Door Edge Guards");
    option_json (JStr "Roof Rack") JNull;
    option_json JNull JNull ].

(** The value that the loop adds for the dict [m], if it adds one. *)
Definition pick (m : list (string * json)) : option json :=
  let name := match dict_get m "marketingName" with
              | Some v => v
              | None => JNull
              end in
  if py_truthy name then Some name
  else
    let long := match dict_get m "marketingLongName" with
                | Some v => v
                | None => JNull
                end in
    if py_truthy long then Some long else None.

(** A value that is a string, or counts as false. *)
Definition textual (v : json) : Prop :=
  py_truthy v = false \/ exists n, v = JStr n.

(** An item that the function can take: a dict whose "marketingName" is
    textual, and whose "marketingLongName" is textual when the
    "marketingName" counts as false. *)
Definition well_formed (item : json) : Prop :=
  exists name long,
    py_get item "marketingName" = Returns name /\
    py_get item "marketingLongName" = Returns long /\
    textual name /\
    (py_truthy name = false -> textual long).

(** Strictly ascending in the order of [str]. *)
Definition ascending (l : list string) : Prop :=
  StronglySorted (fun a b => String.ltb a b = true) l.

(** [takes item]: the loop meets no exception on [item] and adds nothing
    but a string for it. *)
Definition takes (item : json) : bool :=
  match item with
  | JObj m =>
      match pick m with
      | Some (JStr _) | None => true
      | Some _ => false
      end
  | _ => false
  end.

(** Every member is a string. *)
Definition all_str (o : list json) : Prop :=
  forall v, In v o -> exists n, v = JStr n.

(** [passes item]: the loop goes over [item] without an exception.  The
    item is a dict, and the value that the loop adds for it, when it adds
    one, can be a member of a set. *)
Definition passes (item : json) : Prop :=
  exists m, item = JObj m /\ forall v, pick m = Some v -> hashable v = true.

(** ** [update_vehicles], after the crawl *)

(** The frame of the report stage: its column labels, which are distinct,
    and its rows, each with one cell for each label.  A cell that is
    missing is [JNull]. *)
Record Table : Type := mkTable {
  columns : list string;
  rows : list (list json)
}.

(** [df.empty]: the frame has no row or no column. *)
Definition empty (df : Table) : bool :=
  match columns df, rows df with
  | _ :: _, _ :: _ => false
  | _, _ => true
  end.

(** The place of the label [k] among the labels. *)
Fixpoint position (k : string) (labels : list string) : option nat :=
  match labels with
  | [] => None
  | c :: labels' =>
      if String.eqb k c then Some 0 else option_map S (position k labels')
  end.

(** [df[k]]: the cells of the column [k]; KeyError without that column. *)
Definition getitem (df : Table) (k : string) : outcome (list json) :=
  match position k (columns df) with
  | Some i => Ok (map (fun r => nth i r JNull) (rows df))
  | None => Raise KeyError
  end.

Fixpoint positions (ks labels : list string) : outcome (list nat) :=
  match ks with
  | [] => Ok []
  | k :: ks' =>
      match position k labels with
      | None => Raise KeyError
      | Some i =>
          match positions ks' labels with
          | Ok r => Ok (i :: r)
          | Raise e => Raise e
          end
      end
  end.

(** [df[[k1, ..., kn]]]: the columns asked for, in the order asked;
    KeyError when one of them is not in the frame. *)
Definition getitems (df : Table) (ks : list string) : outcome Table :=
  match positions ks (columns df) with
  | Ok places =>
      Ok (mkTable ks (map (fun r => map (fun i => nth i r JNull) places) (rows df)))
  | Raise e => Raise e
  end.

(** [df.rename(columns=renames)]: a label that is a key of [renames] is
    replaced, the others stay. *)
Definition rename (renames : list (string * string)) (df : Table) : Table :=
  mkTable (map (fun c => match dict_get renames c with
                         | Some c' => c'
                         | None => c
                         end) (columns df))
          (rows df).

Fixpoint put (i : nat) (c : json) (r : list json) : list json :=
  match i, r with
  | O, _ :: r' => c :: r'
  | S i', x :: r' => x :: put i' c r'
  | _, [] => []
  end.

(** [df[k] = cells]: the column [k] gets the cells, row by row; a label
    that the frame does not have is added as its last column. *)
Definition setitem (df : Table) (k : string) (cells : list json) : Table :=
  match position k (columns df) with
  | Some i =>
      mkTable (columns df) (map (fun rc => put i (snd rc) (fst rc))
                                (combine (rows df) cells))
  | None =>
      mkTable (columns df ++ [k]) (map (fun rc => fst rc ++ [snd rc])
                                       (combine (rows df) cells))
  end.

(** [series.notna()] on a cell. *)
Definition notna (c : json) : bool :=
  match c with
  | JNull => false
  | _ => true
  end.

(** [df[mask]]: the rows whose mask is true. *)
Definition getitem_mask (df : Table) (mask : list bool) : Table :=
  mkTable (columns df)
          (map fst (filter (fun rm => snd rm) (combine (rows df) mask))).

(** [series.apply(f)]: [f] on each cell, from the first on. *)
Fixpoint series_apply (f : json -> outcome json) (cells : list json)
  : outcome (list json) :=
  match cells with
  | [] => Ok []
  | c :: cells' =>
      match f c with
      | Raise e => Raise e
      | Ok c' =>
          match series_apply f cells' with
          | Ok r => Ok (c' :: r)
          | Raise e => Raise e
          end
      end
  end.

(** What the report stage reads from the disk, and the calls of pandas
    whose results depend on the cells: each answers with a value or with an
    exception. *)
Record Desk : Type := mkDesk {
  sort_values : string -> Table -> outcome Table;
  to_parquet : text -> Table -> outcome unit;
  read_csv : outcome Table;
  to_numeric : json -> outcome json;
  merge : Table -> Table -> outcome Table;
  model_title : outcome text;
  series_str_replace : text -> text -> list json -> outcome (list json)
}.

(** What the report stage leaves outside. *)
Inductive effect : Type :=
| Printed (message : text)
| ParquetWritten (path : text) (df : Table)
| CsvWritten (path : text) (df : Table).

(** A computation that raises or returns, and adds to the effects. *)
Definition Job (A : Type) : Type := list effect -> outcome A * list effect.

Definition job_ret {A : Type} (a : A) : Job A := fun l => (Ok a, l).

Definition job_bind {A B : Type} (c : Job A) (f : A -> Job B) : Job B :=
  fun l =>
    match c l with
    | (Ok a, l') => f a l'
    | (Raise e, l') => (Raise e, l')
    end.

Definition answer {A : Type} (o : outcome A) : Job A := fun l => (o, l).

Definition leave (e : effect) : Job unit := fun l => (Ok tt, l ++ [e]).

Declare Scope job_scope.
Delimit Scope job_scope with job.
Notation "x <- c ;; k" := (job_bind c (fun x => k))
  (at level 61, c at next level, right associativity) : job_scope.
Notation "c ;;; k" := (job_bind c (fun _ => k))
  (at level 61, right associativity) : job_scope.

(** The [renames] dict and the list of the selection. *)
Definition renames : list (string * string) :=
  [ ("vin", "VIN");
    ("price.baseMsrp", "Base MSRP");
    ("price.totalMsrp", "TSRP MSRP");
    ("model.marketingName", "Model");
    ("extColor.marketingName", "Color");
    ("dealerCategory", "Shipping Status");
    ("dealerMarketingName", "Dealer");
    ("isPreSold", "Pre-Sold");
    ("holdStatus", "Hold Status");
    ("year", "Year");
    ("drivetrain.code", "Drivetrain") ]%string.

Definition selection : list string :=
  [ "vin"; "dealerCategory"; "price.totalMsrp"; "isPreSold"; "holdStatus";
    "year"; "drivetrain.code"; "model.marketingName";
    "extColor.marketingName"; "dealerMarketingName"; "Dealer State";
    "options" ]%string.

(** The statements of [update_vehicles] from the dealers sheet to the
    cleaning of the colours: the frame that the computation of the dealer
    price starts from. *)
Definition curate (D : Desk) (df : Table) : Job Table :=
  (dealers <- answer (read_csv D) ;;
   dealers <- answer (getitems dealers ["dealerId"; "state"]%string) ;;
   let dealers := rename [("state", "Dealer State")]%string dealers in
   codes <- answer (getitem df "dealerCd") ;;
   codes <- answer (series_apply (to_numeric D) codes) ;;
   let df := setitem df "dealerCd" codes in
   df <- answer (merge D df dealers) ;;
   title <- answer (model_title D) ;;
   df <- answer (getitems df selection) ;;
   let df := rename renames df in
   names <- answer (getitem df "Model") ;;
   names <- answer (series_str_replace D (title ++ lit " ") [] names) ;;
   let df := setitem df "Model" names in
   colors <- answer (getitem df "Color") ;;
   let df := getitem_mask df (map notna colors) in
   colors <- answer (getitem df "Color") ;;
   colors <- answer (series_str_replace D (lit " [extra_cost_color]") [] colors) ;;
   let df := setitem df "Color" colors in
   job_ret df)%job.

(** The path of the raw file. *)
Definition raw_path (model : text) : text :=
  lit "output/" ++ model ++ lit "_raw.parquet".

(** [update_vehicles] from the test of [df.empty] on, for the frame [df]
    of the crawl and with MODEL being [model].  [rest] stands for the
    statements that follow the first subscript of the dealer price: the
    rest of the price computation, the clean-up, the final selection and
    [df.to_csv]. *)
Definition report (D : Desk) (model : text) (rest : Table -> list json -> Job unit)
  (df : Table) : Job unit :=
  (if empty df
   then leave (Printed (lit "No vehicles found for model: " ++ model))
   else
     df <- answer (sort_values D "vin" df) ;;
     let path := raw_path model in
     leave (ParquetWritten path df) ;;;
     answer (to_parquet D path df) ;;;
     df <- curate D df ;;
     base <- answer (getitem df "Base MSRP") ;;
     rest df base)%job.

(** The labels of the frame that [curate] returns. *)
Definition curated_columns : list string :=
  [ "VIN"; "Shipping Status"; "TSRP MSRP"; "Pre-Sold"; "Hold Status"; "Year";
    "Drivetrain"; "Model"; "Color"; "Dealer"; "Dealer State"; "options" ]%string.

(** A desk for a run: the frame is sorted already, the dealers sheet has
    one dealer, [merge] adds the state of that dealer to every row, and
    [str.replace] works on strings. *)
Definition example_dealers : Table :=
  mkTable ["dealerId"; "name"; "state"]%string
          [[JNum 4501; JStr "Mark Miller Toyota"; JStr "UT"]].

Definition example_merge (df dealers : Table) : outcome Table :=
  Ok (mkTable (columns df ++ columns dealers)
              (map (fun r => r ++ [JNum 4501; JStr "UT"]) (rows df))).

Definition example_str_replace (old new : text) (cells : list json)
  : outcome (list json) :=
  Ok (map (fun c => match c with
                    | JStr s => JStr (string_of_list_ascii
                                        (str_replace old new (lit s)))
                    | _ => JNull
                    end) cells).

Definition example_desk : Desk :=
  mkDesk (fun _ df => Ok df) (fun _ _ => Ok tt) (Ok example_dealers)
         (fun c => Ok c) example_merge (Ok (lit "RAV4"))
         example_str_replace.

Definition example_frame : Table :=
  mkTable [ "vin"; "dealerCd"; "dealerCategory"; "price.baseMsrp";
            "price.totalMsrp"; "isPreSold"; "holdStatus"; "year";
            "drivetrain.code"; "model.marketingName";
            "extColor.marketingName"; "dealerMarketingName"; "options" ]%string
          [ [ JStr "JTMAB3FV1RD000001"; JNum 4501; JStr "G"; JNum 30025;
              JNum 31500; JBool false; JStr "Available"; JNum 2024;
              JStr "AWD"; JStr "RAV4 XLE";
              JStr "Lunar Rock [extra_cost_color]"; JStr "Mark Miller Toyota";
              JArr [] ];
            [ JStr "JTMAB3FV1RD000002"; JNum 4501; JStr "A"; JNum 28675;
              JNum 30100; JNull; JStr "Available"; JNum 2024;
              JStr "FWD"; JStr "RAV4 LE"; JNull; JStr "Mark Miller Toyota";
              JArr [] ] ].

(** * Properties *)

(** ** Frames: membership, [drop_duplicates], [row_of] *)

Lemma mem_In (k : string) (l : list string) : mem k l = true <-> In k l.
Proof.
  induction l as [|k' l IH]; simpl.
  - split; [discriminate | contradiction].
  - rewrite orb_true_iff, IH, String.eqb_eq. split; intros [H|H]; auto.
Qed.

Lemma mem_false (k : string) (l : list string) : mem k l = false <-> ~ In k l.
Proof.
  rewrite <- mem_In. destruct (mem k l); split; congruence.
Qed.

Lemma drop_seen_ext (s1 s2 : list string) (d : DataFrame) :
  (forall k, mem k s1 = mem k s2) -> drop_seen s1 d = drop_seen s2 d.
Proof.
  revert s1 s2. induction d as [|x d IH]; intros s1 s2 H; simpl; auto.
  rewrite <- H. destruct (mem (vin x) s1); auto.
  f_equal. apply IH. intros k. simpl. now rewrite H.
Qed.

Lemma mem_app (k : string) (l1 l2 : list string) :
  mem k (l1 ++ l2) = mem k l1 || mem k l2.
Proof.
  induction l1 as [|a l1 IH]; simpl; auto. now rewrite IH, orb_assoc.
Qed.

Lemma drop_seen_app (seen : list string) (d r : DataFrame) :
  NoDup (keys d) -> (forall k, In k (keys d) -> ~ In k seen) ->
  drop_seen seen (d ++ r) = d ++ drop_seen (keys d ++ seen) r.
Proof.
  revert seen. induction d as [|x d IH]; intros seen Hnd Hfresh; simpl; auto.
  inversion Hnd as [|? ? Hx Hd]; subst.
  destruct (mem (vin x) seen) eqn:Hm.
  - apply mem_In in Hm. exfalso. apply (Hfresh (vin x)); simpl; auto.
  - f_equal. rewrite IH; auto.
    + f_equal. apply drop_seen_ext. intros k.
      simpl. rewrite !mem_app. simpl.
      destruct (String.eqb k (vin x)), (mem k (keys d)), (mem k seen); reflexivity.
    + intros k Hk [Heq|Hin].
      * subst. contradiction.
      * apply (Hfresh k); simpl; auto.
Qed.

(** A frame without duplicates is a prefix of what [drop_duplicates] makes of
    it and of any rows concatenated after it. *)
Lemma drop_duplicates_app (d r : DataFrame) :
  NoDup (keys d) -> drop_duplicates (d ++ r) = d ++ drop_seen (keys d) r.
Proof.
  intros Hnd. unfold drop_duplicates. rewrite drop_seen_app; auto.
  now rewrite app_nil_r.
Qed.

Lemma drop_seen_keys (seen : list string) (d : DataFrame) :
  NoDup (keys (drop_seen seen d)) /\
  (forall k, In k (keys (drop_seen seen d)) -> ~ In k seen).
Proof.
  revert seen. induction d as [|x d IH]; intros seen; simpl.
  - split; [constructor | contradiction].
  - destruct (mem (vin x) seen) eqn:Hm; [apply IH|].
    destruct (IH (vin x :: seen)) as [Hnd Hfresh]. simpl. split.
    + constructor; auto. intros Hin. apply (Hfresh _ Hin). simpl; auto.
    + intros k [Heq|Hin].
      * subst. now apply mem_false.
      * intros Hs. apply (Hfresh _ Hin). simpl; auto.
Qed.

Lemma drop_duplicates_NoDup (d : DataFrame) : NoDup (keys (drop_duplicates d)).
Proof. apply drop_seen_keys. Qed.

Lemma drop_seen_known (seen : list string) (r : DataFrame) :
  incl (keys r) seen -> drop_seen seen r = [].
Proof.
  induction r as [|x r IH]; intros Hincl; simpl; auto.
  assert (Hm : mem (vin x) seen = true) by (apply mem_In, Hincl; simpl; auto).
  rewrite Hm. apply IH. intros k Hk. apply Hincl. simpl; auto.
Qed.

Lemma drop_seen_new (seen : list string) (r : DataFrame) (x : Item) :
  In x r -> ~ In (vin x) seen -> drop_seen seen r <> [].
Proof.
  revert seen. induction r as [|y r IH]; intros seen Hin Hnew; simpl.
  - contradiction.
  - destruct (mem (vin y) seen) eqn:Hm; [|discriminate].
    destruct Hin as [Heq|Hin].
    + subst. apply mem_In in Hm. contradiction.
    + now apply IH.
Qed.

Lemma row_of_app (k : string) (d r : DataFrame) :
  row_of k (d ++ r) =
  match row_of k d with
  | Some x => Some x
  | None => row_of k r
  end.
Proof.
  induction d as [|x d IH]; simpl; auto.
  destruct (String.eqb k (vin x)); auto.
Qed.

Lemma row_of_None (k : string) (d : DataFrame) :
  row_of k d = None <-> ~ In k (keys d).
Proof.
  induction d as [|x d IH]; simpl.
  - split; auto.
  - destruct (String.eqb_spec k (vin x)) as [Heq|Hne].
    + split; [discriminate|]. intros H. exfalso. apply H. auto.
    + rewrite IH. split; intros H; [intros [Hx|Hx]; [congruence|auto] | auto].
Qed.

Lemma row_of_Some (k : string) (d : DataFrame) (x : Item) :
  row_of k d = Some x -> In x d /\ vin x = k.
Proof.
  induction d as [|y d IH]; simpl; [discriminate|].
  destruct (String.eqb_spec k (vin y)) as [Heq|Hne].
  - intros H. inversion H; subst. auto.
  - intros H. destruct (IH H). auto.
Qed.

(** [drop_duplicates] keeps, for every key, the first row that has it. *)
Lemma row_of_drop_seen (k : string) (seen : list string) (d : DataFrame) :
  row_of k (drop_seen seen d) = if mem k seen then None else row_of k d.
Proof.
  revert seen. induction d as [|x d IH]; intros seen; simpl.
  - now destruct (mem k seen).
  - destruct (mem (vin x) seen) eqn:Hm.
    + rewrite IH. destruct (mem k seen) eqn:Hk; auto.
      destruct (String.eqb_spec k (vin x)); auto. congruence.
    + simpl. destruct (String.eqb_spec k (vin x)) as [Heq|Hne].
      * subst. now rewrite Hm.
      * rewrite IH. simpl. apply String.eqb_neq in Hne. now rewrite Hne.
Qed.

Lemma row_of_drop_duplicates (k : string) (d : DataFrame) :
  row_of k (drop_duplicates d) = row_of k d.
Proof. unfold drop_duplicates. now rewrite row_of_drop_seen. Qed.

(** ** The monad *)

Lemma bind_inv {A B : Type} (c : M A) (f : A -> M B) (w w' : World)
  (r : outcome B) :
  bind c f w = (r, w') ->
  (exists a w1, c w = (Ok a, w1) /\ f a w1 = (r, w')) \/
  (exists e, c w = (Raise e, w') /\ r = Raise e).
Proof.
  unfold bind. destruct (c w) as [[a|e] w1]; intros H.
  - left. eauto.
  - right. inversion H; subst. eauto.
Qed.

Lemma bind_Ok {A B : Type} (c : M A) (f : A -> M B) (w w' : World) (b : B) :
  bind c f w = (Ok b, w') ->
  exists a w1, c w = (Ok a, w1) /\ f a w1 = (Ok b, w').
Proof.
  intros H. apply bind_inv in H as [H|[e [_ H]]]; [assumption|discriminate].
Qed.

Section Keeps.
Variable R : World -> World -> Prop.
Hypothesis R_refl : forall w, R w w.
Hypothesis R_trans : forall w1 w2 w3, R w1 w2 -> R w2 w3 -> R w1 w3.

Lemma keeps_ret {A : Type} (a : A) : keeps R (ret a).
Proof. intros w r w' H. inversion H; subst. apply R_refl. Qed.

Lemma keeps_lift {A : Type} (o : outcome A) : keeps R (lift o).
Proof. intros w r w' H. inversion H; subst. apply R_refl. Qed.

Lemma keeps_bind {A B : Type} (c : M A) (f : A -> M B) :
  keeps R c -> (forall a, keeps R (f a)) -> keeps R (bind c f).
Proof.
  intros Hc Hf w r w' H.
  apply bind_inv in H as [(a & w1 & H1 & H2)|(e & H1 & _)].
  - eapply R_trans; [eapply Hc | eapply Hf]; eassumption.
  - eapply Hc; eassumption.
Qed.
End Keeps.

(** ** What a run adds to the trace *)

Lemma after_refl (P : event -> Prop) (w : World) : after P w w.
Proof. exists []. now rewrite app_nil_r. Qed.

Lemma after_trans (P : event -> Prop) (w1 w2 w3 : World) :
  after P w1 w2 -> after P w2 w3 -> after P w1 w3.
Proof.
  intros (e1 & H1 & F1) (e2 & H2 & F2). exists (e1 ++ e2). split.
  - now rewrite H2, H1, app_assoc.
  - apply Forall_app; auto.
Qed.

Lemma after_weaken (P Q : event -> Prop) (w w' : World) :
  (forall e, P e -> Q e) -> after P w w' -> after Q w w'.
Proof.
  intros HPQ (evs & H & F). exists evs. split; auto.
  eapply Forall_impl; eauto.
Qed.

Lemma after_same (P : event -> Prop) (w w' : World) :
  trace w' = trace w -> after P w w'.
Proof. intros H. exists []. now rewrite app_nil_r. Qed.

Lemma after_one (P : event -> Prop) (w w' : World) (e : event) :
  trace w' = trace w ++ [e] -> P e -> after P w w'.
Proof. intros H He. exists [e]. auto. Qed.

Lemma posted_pages_app (e1 e2 : list event) :
  posted_pages (e1 ++ e2) = posted_pages e1 ++ posted_pages e2.
Proof.
  induction e1 as [|e e1 IH]; simpl; auto.
  destruct e; simpl; auto. now rewrite IH.
Qed.

Lemma posted_pages_In (evs : list event) (p : nat) :
  In p (posted_pages evs) <-> exists q h, In (EvPost p q h) evs.
Proof.
  induction evs as [|e evs IH]; simpl.
  - split; [contradiction | intros (q & h & [])].
  - destruct e; simpl; rewrite ?IH.
    + split; [intros (q & h & H); eauto | intros (q & h & [H|H]); [discriminate|eauto]].
    + split.
      * intros [Heq|(q & h0 & H)]; [subst; eauto | eauto].
      * intros (q & h0 & [H|H]); [inversion H; auto | eauto].
    + split; [intros (q & h & H); eauto | intros (q & h & [H|H]); [discriminate|eauto]].
Qed.

(** ** The steps of an iteration *)

(** [query_toyota] issues exactly one request, for the page it is given and
    with the page number substituted in the query it is given. *)
Lemma query_toyota_world (E : Env) (p : nat) (q : text) (h : header_map)
  (w w' : World) (r : outcome (option json)) :
  query_toyota E p q h w = (r, w') ->
  w' = posted w (EvPost p (page_query p q) h).
Proof.
  unfold query_toyota, bind, post, lift, ret, posted, page_query.
  destruct (requests_post E (posts w) _ h) as [resp|e]; simpl.
  - destruct (resp_json resp) as [body|]; [|now inversion 1].
    destruct (py_getitem body "data") as [data|e]; [|now inversion 1].
    destruct (py_getitem data "locateVehiclesByZip") as [res|e]; [|now inversion 1].
    destruct (negb (py_truthy res)); [now inversion 1|].
    destruct (py_in "vehicleSummary" res) as [b|e]; [|now inversion 1].
    destruct (negb b); now inversion 1.
  - now inversion 1.
Qed.

Lemma merge_zone_world (E : Env) (p : nat) (q : text) (h : header_map)
  (d : DataFrame) (w w' : World) (r : outcome DataFrame) :
  merge_zone E p q h d w = (r, w') ->
  w' = posted w (EvPost p (page_query p q) h).
Proof.
  unfold merge_zone. intros H.
  apply bind_inv in H as [(a & w1 & H1 & H2)|(e & H1 & _)];
    apply query_toyota_world in H1; subst; auto.
  unfold bind, lift, ret in H2.
  destruct a as [res|]; [|now inversion H2].
  destruct (py_truthy res); [|now inversion H2].
  destruct (py_in "vehicleSummary" res) as [[|]|e]; try now inversion H2.
  destruct (py_getitem res "vehicleSummary") as [vs|e]; [|now inversion H2].
  destruct (py_len vs) as [n|e]; [|now inversion H2].
  destruct (json_normalize E vs) as [rows|e]; now inversion H2.
Qed.

(** A zone either leaves the frame as it is or appends rows to it. *)
Lemma merge_zone_rows (E : Env) (p : nat) (q : text) (h : header_map)
  (d d' : DataFrame) (w w' : World) :
  merge_zone E p q h d w = (Ok d', w') -> exists rows, d' = d ++ rows.
Proof.
  unfold merge_zone. intros H.
  apply bind_Ok in H as (a & w1 & _ & H2).
  unfold bind, lift, ret in H2.
  assert (Hsame : exists rows, d = d ++ rows) by (exists []; now rewrite app_nil_r).
  destruct a as [res|]; [|inversion H2; subst; auto].
  destruct (py_truthy res); [|inversion H2; subst; auto].
  destruct (py_in "vehicleSummary" res) as [[|]|e];
    [|inversion H2; subst; auto|discriminate].
  destruct (py_getitem res "vehicleSummary") as [vs|e]; [|discriminate].
  destruct (py_len vs) as [n|e]; [|discriminate].
  destruct (json_normalize E vs) as [rows|e]; [|discriminate].
  inversion H2; subst. eauto.
Qed.

(** A page whose three zones return: three requests, west, central, east,
    and a frame that extends the one of the loop. *)
Lemma fetch_page_Ok (E : Env) (st : Loop) (d : DataFrame) (w w' : World) :
  fetch_page E st w = (Ok d, w') ->
  w' = posted (posted (posted w (west_post st)) (central_post st)) (east_post st)
  /\ exists rows, d = df st ++ rows.
Proof.
  unfold fetch_page. intros H.
  apply bind_Ok in H as (d1 & w1 & H1 & H).
  apply bind_Ok in H as (d2 & w2 & H2 & H3).
  pose proof (merge_zone_world H1) as E1.
  pose proof (merge_zone_world H2) as E2.
  pose proof (merge_zone_world H3) as E3.
  apply merge_zone_rows in H1 as (r1 & ->).
  apply merge_zone_rows in H2 as (r2 & ->).
  apply merge_zone_rows in H3 as (r3 & ->).
  split.
  - subst. reflexivity.
  - exists (r1 ++ r2 ++ r3). now rewrite !app_assoc.
Qed.

Lemma after_posted (P : event -> Prop) (w : World) (e : event) :
  P e -> after P w (posted w e).
Proof. intros He. exists [e]. auto. Qed.

(** Whatever happens in a page, only requests for that page are added. *)
Lemma fetch_page_after (E : Env) (st : Loop) (w w' : World)
  (r : outcome DataFrame) (P : event -> Prop) :
  P (west_post st) -> P (central_post st) -> P (east_post st) ->
  fetch_page E st w = (r, w') -> after P w w'.
Proof.
  intros Pw Pc Pe. unfold fetch_page. intros H.
  apply bind_inv in H as [(d1 & w1 & H1 & H)|(e & H1 & _)];
    apply merge_zone_world in H1; subst; [|apply after_posted; exact Pw].
  eapply after_trans; [apply after_posted; exact Pw|].
  apply bind_inv in H as [(d2 & w2 & H2 & H3)|(e & H2 & _)];
    apply merge_zone_world in H2; subst; [|apply after_posted; exact Pc].
  eapply after_trans; [apply after_posted; exact Pc|].
  apply merge_zone_world in H3. subst. apply after_posted; exact Pe.
Qed.

(** The refresh, case by case. *)
Lemma refresh_waf_cases (E : Env) (st : Loop) (w : World) :
  refresh_waf E st w =
  if (240 <? default_timer E (timer_reads w) - timer_start st)%Z then
    match waf_run E (waf_runs w) with
    | Ok h =>
        (Ok (with_headers st h (default_timer E (S (timer_reads w)))),
         tick (bypassed (tick w)))
    | Raise e => (Raise e, bypassed (tick w))
    end
  else (Ok st, tick w).
Proof.
  destruct w as [rd tr wr ps qc tc].
  unfold refresh_waf, bind, timer, waf_bypass, ret, with_headers, tick, bypassed.
  change (4 * 60)%Z with 240%Z. cbn.
  destruct (240 <? default_timer E tr - timer_start st)%Z; cbn; [|reflexivity].
  destruct (waf_run E wr); reflexivity.
Qed.

(** The refresh never touches the frame, the page or the queries. *)
Lemma refresh_waf_fields (E : Env) (st st1 : Loop) (w w1 : World) :
  refresh_waf E st w = (Ok st1, w1) ->
  df st1 = df st /\ page_number st1 = page_number st /\
  west_query st1 = west_query st /\ central_query st1 = central_query st /\
  east_query st1 = east_query st /\ last_run_counter st1 = last_run_counter st.
Proof.
  rewrite refresh_waf_cases.
  destruct (240 <? _)%Z.
  - destruct (waf_run E (waf_runs w)); [|discriminate].
    inversion 1; subst; simpl; auto 10.
  - inversion 1; subst; auto 10.
Qed.

Lemma refresh_waf_after (E : Env) (st : Loop) (w w1 : World)
  (r : outcome Loop) (P : event -> Prop) :
  P EvWaf -> refresh_waf E st w = (r, w1) -> after P w w1.
Proof.
  intros HP. rewrite refresh_waf_cases.
  destruct (240 <? _)%Z.
  - destruct (waf_run E (waf_runs w)); inversion 1; subst;
      eapply after_one; simpl; eauto.
  - inversion 1; subst. now apply after_same.
Qed.

Lemma conclude_cases (st : Loop) (d : DataFrame) (w : World) :
  conclude st d w =
  if List.length (drop_duplicates d) =? last_run_counter st
  then (Ok (Break Converged (drop_duplicates d)), w)
  else (Ok (Next (advance st (drop_duplicates d))), slept w).
Proof.
  unfold conclude. cbv zeta.
  destruct (List.length (drop_duplicates d) =? last_run_counter st); reflexivity.
Qed.

Lemma iteration_ceiling (E : Env) (st : Loop) (w : World) :
  40 < page_number st ->
  iteration E st w = (Ok (Break PageCeiling (df st)), w).
Proof.
  intros H. unfold iteration. apply Nat.ltb_lt in H. now rewrite H.
Qed.

Lemma iteration_body (E : Env) (st : Loop) (w : World) :
  page_number st <= 40 ->
  iteration E st w =
  bind (refresh_waf E st) (fun st1 => bind (fetch_page E st1) (conclude st1)) w.
Proof.
  intros H. unfold iteration.
  destruct (40 <? page_number st) eqn:Hlt; [|reflexivity].
  apply Nat.ltb_lt in Hlt. lia.
Qed.

Lemma iteration_run (E : Env) (st st1 : Loop) (w w1 w2 : World) (d : DataFrame) :
  page_number st <= 40 ->
  refresh_waf E st w = (Ok st1, w1) ->
  fetch_page E st1 w1 = (Ok d, w2) ->
  iteration E st w = conclude st1 d w2.
Proof.
  intros Hp Hr Hf. rewrite iteration_body by assumption.
  unfold bind. now rewrite Hr, Hf.
Qed.

Lemma iteration_inv (E : Env) (st : Loop) (w w' : World) (s : step) :
  iteration E st w = (Ok s, w') ->
  (40 < page_number st /\ s = Break PageCeiling (df st) /\ w' = w) \/
  (page_number st <= 40 /\
   exists st1 w1 d w2,
     refresh_waf E st w = (Ok st1, w1) /\
     fetch_page E st1 w1 = (Ok d, w2) /\
     conclude st1 d w2 = (Ok s, w')).
Proof.
  intros H. destruct (Nat.lt_ge_cases 40 (page_number st)) as [Hlt|Hle].
  - left. rewrite iteration_ceiling in H by assumption. inversion H; auto.
  - right. split; [assumption|].
    rewrite iteration_body in H by assumption.
    apply bind_Ok in H as (st1 & w1 & Hr & H).
    apply bind_Ok in H as (d & w2 & Hf & Hc).
    exists st1, w1, d, w2. auto.
Qed.

(** After the fetches of a page, the new frame is the old one followed by
    the rows with a new key, in merge order. *)
Lemma page_growth (E : Env) (st st1 : Loop) (w w1 w2 : World) (d : DataFrame) :
  Inv st ->
  refresh_waf E st w = (Ok st1, w1) ->
  fetch_page E st1 w1 = (Ok d, w2) ->
  exists rows,
    d = df st ++ rows /\
    drop_duplicates d = df st ++ drop_seen (keys (df st)) rows /\
    last_run_counter st1 = List.length (df st).
Proof.
  intros [Hc Hnd] Hr Hf.
  apply refresh_waf_fields in Hr as (Hdf & _ & _ & _ & _ & Hl).
  apply fetch_page_Ok in Hf as (_ & rows & Hd).
  rewrite Hdf in Hd. exists rows. split; [assumption|]. split.
  - subst d. now apply drop_duplicates_app.
  - congruence.
Qed.

Lemma length_app_same {A : Type} (l r : list A) :
  List.length (l ++ r) = List.length l -> r = [].
Proof.
  rewrite length_app. destruct r; simpl; [reflexivity | lia].
Qed.

(** The three requests of a completed page. *)
Lemma page_posts (E : Env) (st st1 : Loop) (w w1 w2 : World) (d : DataFrame) :
  refresh_waf E st w = (Ok st1, w1) ->
  fetch_page E st1 w1 = (Ok d, w2) ->
  exists evs,
    trace w2 = trace w ++ evs /\
    posted_pages evs = [page_number st; page_number st; page_number st].
Proof.
  intros Hr Hf.
  pose proof (refresh_waf_fields Hr) as (_ & Hp & _).
  apply fetch_page_Ok in Hf as (-> & _).
  rewrite refresh_waf_cases in Hr.
  destruct (240 <? _)%Z.
  - destruct (waf_run E (waf_runs w)); [|discriminate].
    inversion Hr; subst. simpl.
    exists ([EvWaf] ++ [west_post (with_headers st a (default_timer E (S (timer_reads w))));
                        central_post (with_headers st a (default_timer E (S (timer_reads w))));
                        east_post (with_headers st a (default_timer E (S (timer_reads w))))]).
    split; [|reflexivity]. now rewrite <- !app_assoc.
  - inversion Hr; subst. simpl.
    exists [west_post st1; central_post st1; east_post st1].
    split; [|reflexivity]. now rewrite <- !app_assoc.
Qed.

(** ** The loop, head by head *)

Lemma posted_as_refl (w : World) : posted_as [] w w.
Proof. exists []. now rewrite app_nil_r. Qed.

Lemma posted_as_trans (l1 l2 : list nat) (w1 w2 w3 : World) :
  posted_as l1 w1 w2 -> posted_as l2 w2 w3 -> posted_as (l1 ++ l2) w1 w3.
Proof.
  intros (e1 & H1 & P1) (e2 & H2 & P2). exists (e1 ++ e2). split.
  - now rewrite H2, H1, app_assoc.
  - rewrite posted_pages_app. congruence.
Qed.

Lemma posted_as_nil_trans (w1 w2 w3 : World) :
  posted_as [] w1 w2 -> posted_as [] w2 w3 -> posted_as [] w1 w3.
Proof. intros H1 H2. apply (posted_as_trans H1 H2). Qed.

Lemma get_vehicles_query_silent (E : Env) (a : args) :
  keeps (posted_as []) (get_vehicles_query E a).
Proof.
  assert (Hsame : forall A (c : M A),
             (forall w r w', c w = (r, w') -> trace w' = trace w) ->
             keeps (posted_as []) c).
  { intros A c Hc w r w' H. exists []. split; [|reflexivity].
    rewrite app_nil_r. eapply Hc; eauto. }
  assert (Hdraw : keeps (posted_as []) (draw E)).
  { apply Hsame. unfold draw. intros w r w' H. now inversion H. }
  unfold get_vehicles_query.
  apply keeps_bind; try apply posted_as_refl; try apply posted_as_nil_trans.
  { apply Hsame. unfold cache_lookup. intros w r w' H. now inversion H. }
  intros [q|]; [apply keeps_ret, posted_as_refl|].
  apply keeps_bind; try apply posted_as_refl; try apply posted_as_nil_trans.
  - unfold render_query, randbelow, uuid4.
    repeat (first [ apply keeps_bind; try apply posted_as_refl;
                    try apply posted_as_nil_trans
                  | apply keeps_lift, posted_as_refl
                  | apply keeps_ret, posted_as_refl
                  | exact Hdraw
                  | match goal with |- forall _, keeps _ _ => intro end ]).
  - intros q. apply keeps_bind; try apply posted_as_refl;
      try apply posted_as_nil_trans.
    + apply Hsame. unfold cache_store. intros w r w' H. now inversion H.
    + intros _. apply keeps_ret, posted_as_refl.
Qed.

Lemma enter_loop_silent (E : Env) : keeps (posted_as []) (enter_loop E).
Proof.
  unfold enter_loop.
  repeat (first [ apply get_vehicles_query_silent
                | apply keeps_bind; try apply posted_as_refl;
                  try apply posted_as_nil_trans
                | apply keeps_ret, posted_as_refl
                | match goal with |- forall _, keeps _ _ => intro end ]).
  - intros w r w' H. unfold waf_bypass in H. inversion H; subst.
    exists [EvWaf]. auto.
  - intros w r w' H. unfold timer in H. inversion H; subst.
    exists []. now rewrite app_nil_r.
Qed.

Lemma enter_loop_state (E : Env) (st : Loop) (w0 w : World) :
  enter_loop E w0 = (Ok st, w) ->
  df st = [] /\ page_number st = 1 /\ last_run_counter st = 0.
Proof.
  unfold enter_loop. intros H.
  repeat (apply bind_Ok in H as (? & ? & _ & H)).
  inversion H; subst; auto.
Qed.

Lemma iteration_Next_spec (E : Env) (st st' : Loop) (w w' : World) :
  Inv st ->
  iteration E st w = (Ok (Next st'), w') ->
  page_number st <= 40 /\
  page_number st' = page_number st + 1 /\
  Inv st' /\
  (exists extra, df st' = df st ++ extra /\ extra <> []) /\
  (west_query st' = west_query st /\ central_query st' = central_query st /\
   east_query st' = east_query st) /\
  posted_as (thrice (page_number st)) w w'.
Proof.
  intros HI H.
  apply iteration_inv in H as [(_ & H & _)|(Hp & st1 & w1 & d & w2 & Hr & Hf & Hc)];
    [discriminate|].
  split; [assumption|].
  destruct (page_growth HI Hr Hf) as (rows & Hd & Hdd & Hl).
  destruct (page_posts Hr Hf) as (evs & Ht & Hpp).
  apply refresh_waf_fields in Hr as (_ & Hpn & Hwq & Hcq & Heq & _).
  rewrite conclude_cases in Hc.
  destruct (List.length (drop_duplicates d) =? last_run_counter st1) eqn:Htest;
    [discriminate|].
  inversion Hc; subst st' w'. clear Hc. simpl.
  apply Nat.eqb_neq in Htest.
  repeat split; try congruence.
  - apply drop_duplicates_NoDup.
  - exists (drop_seen (keys (df st)) rows). split; [assumption|].
    intros Hnil. apply Htest. rewrite Hdd, Hnil, app_nil_r. congruence.
  - exists (evs ++ [EvSleep 10]). simpl. split.
    + now rewrite Ht, app_assoc.
    + rewrite posted_pages_app. simpl. now rewrite app_nil_r.
Qed.

Lemma iteration_Converged_spec (E : Env) (st : Loop) (w w' : World)
  (d : DataFrame) :
  Inv st ->
  iteration E st w = (Ok (Break Converged d), w') ->
  page_number st <= 40 /\ d = df st /\
  posted_as (thrice (page_number st)) w w'.
Proof.
  intros HI H.
  apply iteration_inv in H as [(_ & H & _)|(Hp & st1 & w1 & d1 & w2 & Hr & Hf & Hc)];
    [discriminate|].
  split; [assumption|].
  destruct (page_growth HI Hr Hf) as (rows & Hd & Hdd & Hl).
  destruct (page_posts Hr Hf) as (evs & Ht & Hpp).
  rewrite conclude_cases in Hc.
  destruct (List.length (drop_duplicates d1) =? last_run_counter st1) eqn:Htest;
    [|discriminate].
  inversion Hc; subst d w'. clear Hc.
  apply Nat.eqb_eq in Htest. split.
  - rewrite Hdd in *. rewrite Hl in Htest.
    apply length_app_same in Htest. rewrite Htest. now rewrite app_nil_r.
  - exists evs. auto.
Qed.

Lemma iteration_Ceiling_spec (E : Env) (st : Loop) (w w' : World)
  (d : DataFrame) :
  iteration E st w = (Ok (Break PageCeiling d), w') ->
  40 < page_number st /\ d = df st /\ w' = w.
Proof.
  intros H.
  apply iteration_inv in H as [(Hp & H & Hw)|(Hp & st1 & w1 & d1 & w2 & Hr & Hf & Hc)].
  - inversion H; auto.
  - rewrite conclude_cases in Hc.
    destruct (List.length (drop_duplicates d1) =? last_run_counter st1);
      discriminate.
Qed.

Lemma loop_head_0 (E : Env) (w0 w : World) (st : Loop) :
  loop_head E 0 w0 = Some (st, w) <-> enter_loop E w0 = (Ok st, w).
Proof.
  simpl. destruct (enter_loop E w0) as [[st0|e] w1].
  - split; inversion 1; reflexivity.
  - split; discriminate.
Qed.

Lemma loop_head_S (E : Env) (k : nat) (w0 w' : World) (st' : Loop) :
  loop_head E (S k) w0 = Some (st', w') <->
  exists st w, loop_head E k w0 = Some (st, w) /\
               iteration E st w = (Ok (Next st'), w').
Proof.
  simpl. split.
  - destruct (loop_head E k w0) as [[st w]|]; [|discriminate].
    destruct (iteration E st w) as [[[st1|why d]|e] w1] eqn:Hit;
      try discriminate.
    inversion 1; subst. eauto.
  - intros (st & w & H1 & H2). now rewrite H1, H2.
Qed.

Lemma pages_upto_S (k : nat) : pages_upto (S k) = pages_upto k ++ thrice (S k).
Proof.
  unfold pages_upto. rewrite seq_S, flat_map_app. reflexivity.
Qed.

(** At the head of the loop after [k] iterations: page [k + 1] is next, the
    invariant holds, and the requests so far are those of pages 1 to [k],
    three for each. *)
Lemma loop_head_spec (E : Env) (k : nat) (w0 w : World) (st : Loop) :
  loop_head E k w0 = Some (st, w) ->
  page_number st = S k /\ Inv st /\ posted_as (pages_upto k) w0 w.
Proof.
  revert st w. induction k as [|k IH]; intros st w H.
  - apply loop_head_0 in H.
    pose proof (enter_loop_silent H) as Hs.
    apply enter_loop_state in H as (Hd & Hp & Hl).
    repeat split; auto.
    + rewrite Hl, Hd. reflexivity.
    + rewrite Hd. constructor.
  - apply loop_head_S in H as (st0 & w1 & H0 & Hit).
    destruct (IH _ _ H0) as (Hp & HI & Hposted).
    apply (iteration_Next_spec HI) in Hit as (_ & Hp' & HI' & _ & _ & Hposted').
    repeat split; try apply HI'.
    + lia.
    + rewrite pages_upto_S. rewrite Hp in Hposted'.
      eapply posted_as_trans; eassumption.
Qed.

Lemma page_fetched_inv (E : Env) (n : nat) (w0 : World) (pr : PageRun) :
  page_fetched E n w0 = Some pr ->
  exists w st1 w1 w2 w3,
    at_page E n w0 = Some (head pr, w) /\
    page_number (head pr) <= 40 /\
    refresh_waf E (head pr) w = (Ok st1, w1) /\
    merge_zone E (page_number st1) (west_query st1) (headers st1) (df st1) w1
      = (Ok (after_west pr), w2) /\
    merge_zone E (page_number st1) (central_query st1) (headers st1)
      (after_west pr) w2 = (Ok (after_central pr), w3) /\
    merge_zone E (page_number st1) (east_query st1) (headers st1)
      (after_central pr) w3 = (Ok (after_east pr), world_after pr) /\
    fetch_page E st1 w1 = (Ok (after_east pr), world_after pr).
Proof.
  unfold page_fetched.
  destruct (at_page E n w0) as [[st w]|]; [|discriminate].
  destruct (40 <? page_number st) eqn:Hp; [discriminate|].
  apply Nat.ltb_ge in Hp.
  destruct (refresh_waf E st w) as [[st1|e] w1] eqn:Hr; [|discriminate].
  destruct (merge_zone E (page_number st1) (west_query st1) (headers st1)
              (df st1) w1) as [[dw|e] w2] eqn:H1; [|discriminate].
  destruct (merge_zone E (page_number st1) (central_query st1) (headers st1)
              dw w2) as [[dc|e] w3] eqn:H2; [|discriminate].
  destruct (merge_zone E (page_number st1) (east_query st1) (headers st1)
              dc w3) as [[de|e] w4] eqn:H3; [|discriminate].
  inversion 1; subst; simpl.
  exists w, st1, w1, w2, w3. repeat split; auto.
  unfold fetch_page, bind. now rewrite H1, H2, H3.
Qed.

Lemma at_page_spec (E : Env) (n : nat) (w0 w : World) (st : Loop) :
  at_page E n w0 = Some (st, w) ->
  page_number st = n /\ Inv st /\ posted_as (pages_upto (n - 1)) w0 w /\
  loop_head E (n - 1) w0 = Some (st, w) /\ 1 <= n.
Proof.
  destruct n as [|k]; simpl; [discriminate|]. intros H.
  rewrite Nat.sub_0_r.
  destruct (loop_head_spec H) as (Hp & HI & Hposted).
  repeat split; auto; try apply HI. lia.
Qed.

Lemma forallb_known (ks : list string) (d : DataFrame) :
  forallb (fun x => mem (vin x) ks) d = true <-> incl (keys d) ks.
Proof.
  rewrite forallb_forall. unfold incl, keys. split.
  - intros H k Hk. apply in_map_iff in Hk as (x & <- & Hx).
    now apply mem_In, H.
  - intros H x Hx. apply mem_In, H. now apply in_map.
Qed.

Lemma existsb_new (ks : list string) (d : DataFrame) :
  existsb (fun x => negb (mem (vin x) ks)) d = true <->
  exists x, In x d /\ ~ In (vin x) ks.
Proof.
  rewrite existsb_exists. split; intros (x & Hx & H); exists x; split; auto.
  - apply mem_false. now apply negb_true_iff.
  - apply negb_true_iff. now apply mem_false.
Qed.

(** A page on which nothing is new ends the loop by convergence, with the
    frame as it was. *)
Lemma page_stale (E : Env) (n : nat) (w0 : World) (pr : PageRun) :
  page_fetched E n w0 = Some pr ->
  incl (keys (after_east pr)) (keys (df (head pr))) ->
  exists w,
    at_page E n w0 = Some (head pr, w) /\
    iteration E (head pr) w
      = (Ok (Break Converged (df (head pr))), world_after pr).
Proof.
  intros Hpf Hincl.
  destruct (page_fetched_inv Hpf)
    as (w & st1 & w1 & w2 & w3 & Hat & Hp & Hr & _ & _ & _ & Hf).
  exists w. split; [assumption|].
  destruct (at_page_spec Hat) as (_ & HI & _).
  rewrite (iteration_run Hp Hr Hf), conclude_cases.
  destruct (page_growth HI Hr Hf) as (rows & Hd & Hdd & Hl).
  assert (Hnil : drop_seen (keys (df (head pr))) rows = []).
  { apply drop_seen_known. intros k Hk. apply Hincl.
    rewrite Hd. unfold keys. rewrite map_app. apply in_or_app. now right. }
  rewrite Hdd, Hnil, app_nil_r, Hl, Nat.eqb_refl. reflexivity.
Qed.

(** A page that brings a new key is followed by the next page; the frame
    then is the concatenation without its duplicates. *)
Lemma page_new (E : Env) (n : nat) (w0 : World) (pr : PageRun) (x : Item) :
  page_fetched E n w0 = Some pr ->
  In x (after_east pr) -> ~ In (vin x) (keys (df (head pr))) ->
  exists w st',
    at_page E n w0 = Some (head pr, w) /\
    iteration E (head pr) w = (Ok (Next st'), slept (world_after pr)) /\
    df st' = drop_duplicates (after_east pr).
Proof.
  intros Hpf Hx Hnew.
  destruct (page_fetched_inv Hpf)
    as (w & st1 & w1 & w2 & w3 & Hat & Hp & Hr & _ & _ & _ & Hf).
  destruct (at_page_spec Hat) as (_ & HI & _).
  destruct (page_growth HI Hr Hf) as (rows & Hd & Hdd & Hl).
  exists w, (advance st1 (drop_duplicates (after_east pr))).
  split; [assumption|]. split; [|reflexivity].
  rewrite (iteration_run Hp Hr Hf), conclude_cases.
  assert (Hrows : In x rows).
  { rewrite Hd in Hx. apply in_app_or in Hx as [Hx|Hx]; [|assumption].
    exfalso. apply Hnew. now apply in_map. }
  pose proof (drop_seen_new Hrows Hnew) as Hne.
  destruct (List.length (drop_duplicates (after_east pr)) =? last_run_counter st1)
    eqn:Htest; [|reflexivity].
  apply Nat.eqb_eq in Htest. rewrite Hdd, Hl in Htest.
  apply length_app_same in Htest. contradiction.
Qed.

(** ** The loop and its heads *)

Lemma loop_S (fuel : nat) (E : Env) (st : Loop) (w : World) :
  loop (S fuel) E st w =
  match iteration E st w with
  | (Ok (Next st'), w') => loop fuel E st' w'
  | (Ok (Break why d), w') => (Ok (Some (why, d)), w')
  | (Raise e, w') => (Raise e, w')
  end.
Proof.
  simpl. unfold bind. destruct (iteration E st w) as [[[st'|why d]|e] w'];
    reflexivity.
Qed.

Lemma get_all_pages_head (E : Env) (k : nat) (w0 w : World) (st : Loop) :
  loop_head E k w0 = Some (st, w) ->
  forall f, get_all_pages (k + f) E w0 = loop f E st w.
Proof.
  revert st w. induction k as [|k IH]; intros st w H f.
  - apply loop_head_0 in H. unfold get_all_pages, bind. now rewrite H.
  - apply loop_head_S in H as (st0 & w1 & H0 & Hit).
    replace (S k + f) with (k + S f) by lia.
    rewrite (IH _ _ H0), loop_S, Hit. reflexivity.
Qed.

Lemma loop_head_earlier (E : Env) (k j : nat) (w0 w' : World) (st' : Loop) :
  loop_head E (k + j) w0 = Some (st', w') ->
  exists st w, loop_head E k w0 = Some (st, w).
Proof.
  revert st' w'. induction j as [|j IH]; intros st' w' H.
  - rewrite Nat.add_0_r in H. eauto.
  - replace (k + S j) with (S (k + j)) in H by lia.
    apply loop_head_S in H as (st0 & w1 & H0 & _). eauto.
Qed.

Lemma loop_result (E : Env) (w0 : World) (f : nat) :
  forall k st w why d w',
    loop_head E k w0 = Some (st, w) ->
    loop f E st w = (Ok (Some (why, d)), w') ->
    exists j st1 w1,
      k + j < k + f /\
      loop_head E (k + j) w0 = Some (st1, w1) /\
      iteration E st1 w1 = (Ok (Break why d), w').
Proof.
  induction f as [|f IH]; intros k st w why d w' Hh Hl.
  - discriminate.
  - rewrite loop_S in Hl.
    destruct (iteration E st w) as [[[st'|why' d']|e] w1] eqn:Hit.
    + assert (Hh' : loop_head E (S k) w0 = Some (st', w1))
        by (apply loop_head_S; eauto).
      destruct (IH _ _ _ _ _ _ Hh' Hl) as (j & st1 & w2 & Hj & Hh1 & Hit1).
      exists (S j), st1, w2. replace (k + S j) with (S k + j) by lia.
      repeat split; auto. lia.
    + inversion Hl; subst. exists 0, st, w. rewrite Nat.add_0_r.
      repeat split; auto. lia.
    + discriminate.
Qed.

(** A run that returns a frame left the loop at the head of some iteration
    through one of the two [break]s. *)
Lemma get_all_pages_result (E : Env) (fuel : nat) (w0 w' : World)
  (why : exit_reason) (d : DataFrame) :
  get_all_pages fuel E w0 = (Ok (Some (why, d)), w') ->
  exists k st w,
    k < fuel /\ loop_head E k w0 = Some (st, w) /\
    iteration E st w = (Ok (Break why d), w').
Proof.
  unfold get_all_pages. intros H.
  apply bind_Ok in H as (st0 & w1 & He & Hl).
  apply loop_head_0 in He.
  destruct (loop_result He Hl) as (j & st1 & w2 & Hj & Hh & Hit).
  exists j, st1, w2. auto.
Qed.

(** Whichever [break] is taken, the frame returned is the frame at the head
    of that iteration. *)
Lemma break_frame (E : Env) (k : nat) (w0 w w' : World) (st : Loop)
  (why : exit_reason) (d : DataFrame) :
  loop_head E k w0 = Some (st, w) ->
  iteration E st w = (Ok (Break why d), w') -> d = df st.
Proof.
  intros Hh Hit. destruct (loop_head_spec Hh) as (_ & HI & _).
  destruct why.
  - now apply iteration_Ceiling_spec in Hit.
  - now apply (iteration_Converged_spec HI) in Hit.
Qed.

Lemma prefix_kept (d extra : DataFrame) : kept d (d ++ extra).
Proof.
  split.
  - intros key x H. now rewrite row_of_app, H.
  - rewrite length_app. lia.
Qed.

Lemma loop_head_prefix (E : Env) (k j : nat) (w0 w w' : World) (st st' : Loop) :
  loop_head E k w0 = Some (st, w) ->
  loop_head E (k + j) w0 = Some (st', w') ->
  exists extra, df st' = df st ++ extra.
Proof.
  intros Hk. revert st' w'. induction j as [|j IH]; intros st' w' Hj.
  - rewrite Nat.add_0_r, Hk in Hj. inversion Hj; subst.
    exists []. now rewrite app_nil_r.
  - replace (k + S j) with (S (k + j)) in Hj by lia.
    apply loop_head_S in Hj as (st1 & w1 & H1 & Hit).
    destruct (IH _ _ H1) as (e1 & He1).
    destruct (loop_head_spec H1) as (_ & HI & _).
    apply (iteration_Next_spec HI) in Hit as (_ & _ & _ & (e2 & He2 & _) & _).
    exists (e1 ++ e2). now rewrite He2, He1, app_assoc.
Qed.

(** No head of the loop comes after the iteration that breaks. *)
Lemma loop_head_before_break (E : Env) (k k' : nat) (w0 w w1 w' : World)
  (st st1 : Loop) (why : exit_reason) (d : DataFrame) :
  loop_head E k' w0 = Some (st1, w1) ->
  iteration E st1 w1 = (Ok (Break why d), w') ->
  loop_head E k w0 = Some (st, w) ->
  k <= k'.
Proof.
  intros Hk' Hit Hk.
  destruct (Nat.le_gt_cases k k') as [Hle|Hgt]; [assumption|exfalso].
  replace k with (S k' + (k - S k')) in Hk by lia.
  apply loop_head_earlier in Hk as (st2 & w2 & Hk).
  apply loop_head_S in Hk as (st3 & w3 & H3 & Hit3).
  rewrite Hk' in H3. inversion H3; subst. congruence.
Qed.

Lemma final_frame_extends (E : Env) (fuel k : nat) (w0 w w' : World)
  (st : Loop) (why : exit_reason) (d : DataFrame) :
  loop_head E k w0 = Some (st, w) ->
  get_all_pages fuel E w0 = (Ok (Some (why, d)), w') ->
  exists extra, d = df st ++ extra.
Proof.
  intros Hk Hrun.
  apply get_all_pages_result in Hrun as (k' & st1 & w1 & _ & Hk' & Hit).
  pose proof (loop_head_before_break Hk' Hit Hk) as Hle.
  rewrite (break_frame Hk' Hit).
  replace k' with (k + (k' - k)) in Hk' by lia.
  exact (loop_head_prefix Hk Hk').
Qed.

Lemma pages_upto_In (n p : nat) : In p (pages_upto n) <-> 1 <= p <= n.
Proof.
  unfold pages_upto. rewrite in_flat_map. split.
  - intros (m & Hm & Hp). apply in_seq in Hm. simpl in Hp.
    destruct Hp as [<-|[<-|[<-|[]]]]; lia.
  - intros H. exists p. split; [apply in_seq; lia | simpl; auto].
Qed.

(** The loop cannot run out of fuel once the fuel covers the pages left up
    to the ceiling. *)
Lemma loop_total (E : Env) (f : nat) :
  forall st w, 0 < f -> 41 < page_number st + f ->
               fst (loop f E st w) <> Ok None.
Proof.
  induction f as [|f IH]; intros st w Hf Hp; [lia|].
  rewrite loop_S.
  destruct (iteration E st w) as [[[st'|why d]|e] w'] eqn:Hit; simpl;
    try discriminate.
  apply iteration_inv in Hit as [(_ & H & _)|(Hle & st1 & w1 & d & w2 & Hr & _ & Hc)];
    [discriminate|].
  rewrite conclude_cases in Hc.
  destruct (List.length (drop_duplicates d) =? last_run_counter st1);
    [discriminate|].
  inversion Hc; subst st'.
  apply refresh_waf_fields in Hr as (_ & Hpn & _).
  apply IH; simpl; lia.
Qed.

(** With more than 40 units of fuel a run never stops for lack of fuel: it
    returns a frame or raises. *)
Lemma get_all_pages_total (E : Env) (fuel : nat) (w0 : World) :
  40 < fuel -> fst (get_all_pages fuel E w0) <> Ok None.
Proof.
  intros Hf. unfold get_all_pages, bind.
  destruct (enter_loop E w0) as [[st|e] w] eqn:He; [|discriminate].
  apply loop_total; [lia|].
  apply enter_loop_state in He as (_ & Hp & _). lia.
Qed.

(** Fuel beyond what the loop uses changes nothing. *)
Lemma loop_fuel (E : Env) (f1 : nat) :
  forall f2 st w,
    fst (loop f1 E st w) <> Ok None -> f1 <= f2 ->
    loop f2 E st w = loop f1 E st w.
Proof.
  induction f1 as [|f1 IH]; intros f2 st w Hdone Hle.
  - simpl in Hdone. contradiction.
  - destruct f2 as [|f2]; [lia|]. rewrite !loop_S in *.
    destruct (iteration E st w) as [[[st'|why d]|e] w']; try reflexivity.
    apply IH; [assumption | lia].
Qed.

Lemma get_all_pages_fuel (E : Env) (f1 f2 : nat) (w0 : World) :
  40 < f1 -> 40 < f2 -> get_all_pages f1 E w0 = get_all_pages f2 E w0.
Proof.
  intros H1 H2. unfold get_all_pages, bind.
  destruct (enter_loop E w0) as [[st|e] w] eqn:He; [|reflexivity].
  apply enter_loop_state in He as (_ & Hp & _).
  assert (H41 : fst (loop 41 E st w) <> Ok None) by (apply loop_total; lia).
  rewrite (loop_fuel H41) by lia. symmetry. apply (loop_fuel H41). lia.
Qed.

Lemma posted_as_after (Q : nat -> Prop) (l : list nat) (w w' : World) :
  posted_as l w w' -> (forall p, In p l -> Q p) -> after (on_posts Q) w w'.
Proof.
  intros (evs & Ht & Hp) HQ. exists evs. split; [assumption|].
  apply Forall_forall. intros [|p q h|s] He; simpl; auto.
  apply HQ. rewrite <- Hp. apply posted_pages_In. eauto.
Qed.

Lemma conclude_after (st : Loop) (d : DataFrame) (w w' : World) (r : outcome step)
  (P : event -> Prop) :
  P (EvSleep 10) -> conclude st d w = (r, w') -> after P w w'.
Proof.
  intros HP. rewrite conclude_cases.
  destruct (List.length (drop_duplicates d) =? last_run_counter st);
    inversion 1; subst.
  - apply after_refl.
  - eapply after_one; simpl; eauto.
Qed.

Lemma iteration_Next_page (E : Env) (st st' : Loop) (w w' : World) :
  iteration E st w = (Ok (Next st'), w') ->
  page_number st <= 40 /\ page_number st' = page_number st + 1.
Proof.
  intros Hit.
  apply iteration_inv in Hit as [(_ & H & _)|(Hle & st1 & w1 & d & w2 & Hr & _ & Hc)];
    [discriminate|].
  rewrite conclude_cases in Hc.
  destruct (List.length (drop_duplicates d) =? last_run_counter st1);
    [discriminate|].
  inversion Hc; subst st'.
  apply refresh_waf_fields in Hr as (_ & Hpn & _).
  simpl. split; [assumption | congruence].
Qed.

(** An iteration only issues requests for its own page, and none beyond
    page 40. *)
Lemma iteration_after (E : Env) (st : Loop) (w w' : World) (r : outcome step) :
  iteration E st w = (r, w') ->
  after (on_posts (fun p => p = page_number st /\ p <= 40)) w w'.
Proof.
  intros H. destruct (Nat.lt_ge_cases 40 (page_number st)) as [Hlt|Hle].
  - rewrite iteration_ceiling in H by assumption. inversion H; subst.
    apply after_refl.
  - rewrite iteration_body in H by assumption.
    apply bind_inv in H as [(st1 & w1 & Hr & H)|(e & Hr & _)];
      [|now apply (refresh_waf_after (P := on_posts _) I Hr)].
    eapply after_trans; [now apply (refresh_waf_after (P := on_posts _) I Hr)|].
    apply refresh_waf_fields in Hr as (_ & Hpn & _).
    assert (Hpost : forall q h,
               on_posts (fun p => p = page_number st /\ p <= 40)
                        (EvPost (page_number st1) q h))
      by (intros q h; simpl; lia).
    apply bind_inv in H as [(d & w2 & Hf & Hc)|(e & Hf & _)].
    + eapply after_trans.
      * eapply fetch_page_after; [| | |exact Hf]; apply Hpost.
      * eapply conclude_after; [|exact Hc]. exact I.
    + eapply fetch_page_after; [| | |exact Hf]; apply Hpost.
Qed.

Lemma loop_after (E : Env) (f : nat) :
  forall st w r w',
    1 <= page_number st ->
    loop f E st w = (r, w') ->
    after (on_posts (fun p => 1 <= p <= 40)) w w'.
Proof.
  induction f as [|f IH]; intros st w r w' Hp H.
  - inversion H; subst. apply after_refl.
  - rewrite loop_S in H.
    destruct (iteration E st w) as [[[st'|why d]|e] w1] eqn:Hit.
    + eapply after_trans.
      * eapply after_weaken; [|exact (iteration_after Hit)].
        intros [|p q h|s]; simpl; auto. lia.
      * apply iteration_Next_page in Hit as (_ & Hp').
        eapply IH; [|exact H]. lia.
    + inversion H; subst.
      eapply after_weaken; [|exact (iteration_after Hit)].
      intros [|p q h|s]; simpl; auto. lia.
    + inversion H; subst.
      eapply after_weaken; [|exact (iteration_after Hit)].
      intros [|p q h|s]; simpl; auto. lia.
Qed.

Lemma get_all_pages_after (E : Env) (fuel : nat) (w0 : World) :
  after (on_posts (fun p => 1 <= p <= 40)) w0 (snd (get_all_pages fuel E w0)).
Proof.
  unfold get_all_pages, bind.
  destruct (enter_loop E w0) as [[st|e] w] eqn:He.
  - eapply after_trans.
    + eapply posted_as_after; [exact (enter_loop_silent He)|]. contradiction.
    + apply enter_loop_state in He as (_ & Hp & _).
      destruct (loop fuel E st w) as [r w'] eqn:Hl. simpl.
      eapply loop_after; [|exact Hl]. lia.
  - simpl. eapply posted_as_after; [exact (enter_loop_silent He)|]. contradiction.
Qed.

(** * The crawl controller *)

(** C1.  Convergence.  If the controller is at page [n] and every row that
    the three zones return for page [n] has a key already in the accumulated
    frame, then the iteration leaves the loop through the convergence
    [break] with the frame unchanged, the run returns that frame, and the
    requests of the whole run are those of pages 1 to [n]: none is issued
    for page [n + 1]. *)
Theorem convergence_stops_the_crawl (E : Env) (w0 : World) (n fuel : nat) :
  nothing_new_on_page E n w0 = true ->
  n <= fuel ->
  exists st w w',
    at_page E n w0 = Some (st, w) /\
    iteration E st w = (Ok (Break Converged (df st)), w') /\
    get_all_pages fuel E w0 = (Ok (Some (Converged, df st)), w') /\
    posted_as (pages_upto n) w0 w' /\
    after (on_posts (fun p => p <> n + 1)) w0 w'.
Proof.
  unfold nothing_new_on_page. intros Hstale Hfuel.
  destruct (page_fetched E n w0) as [pr|] eqn:Hpf; [|discriminate].
  apply forallb_known in Hstale.
  destruct (page_stale Hpf Hstale) as (w & Hat & Hit).
  destruct (at_page_spec Hat) as (Hpn & HI & Hposted & Hhead & Hn).
  exists (head pr), w, (world_after pr).
  assert (Hall : posted_as (pages_upto n) w0 (world_after pr)).
  { destruct (iteration_Converged_spec HI Hit) as (_ & _ & Hthree).
    replace n with (S (n - 1)) at 1 by lia. rewrite pages_upto_S.
    replace (S (n - 1)) with n by lia. rewrite Hpn in Hthree.
    eapply posted_as_trans; eassumption. }
  repeat split; auto.
  - replace fuel with ((n - 1) + S (fuel - n)) by lia.
    rewrite (get_all_pages_head Hhead), loop_S, Hit. reflexivity.
  - eapply posted_as_after; [exact Hall|].
    intros p Hp. apply pages_upto_In in Hp. lia.
Qed.

(** C2.  Page ceiling.  Whatever the outside world answers and however the
    run ends, every request it issues is for a page between 1 and 40.  When
    each of the pages 1 to 40 brings at least one key that the frame did not
    have, the run leaves the loop through the ceiling [break] at the head of
    page 41, having issued the requests of pages 1 to 40 and no other. *)
Theorem page_ceiling (E : Env) (w0 : World) (fuel : nat) :
  after (on_posts (fun p => 1 <= p <= 40)) w0 (snd (get_all_pages fuel E w0)) /\
  ((forall n, 1 <= n <= 40 -> new_item_on_page E n w0 = true) ->
   40 < fuel ->
   exists st w,
     at_page E 41 w0 = Some (st, w) /\
     page_number st = 41 /\
     get_all_pages fuel E w0 = (Ok (Some (PageCeiling, df st)), w) /\
     posted_as (pages_upto 40) w0 w).
Proof.
  split; [apply get_all_pages_after|].
  intros Hnew Hfuel.
  assert (H40 : new_item_on_page E 40 w0 = true) by (apply Hnew; lia).
  unfold new_item_on_page in H40.
  destruct (page_fetched E 40 w0) as [pr|] eqn:Hpf; [|discriminate].
  apply existsb_new in H40 as (x & Hx & Hfresh).
  destruct (page_new Hpf Hx Hfresh) as (w & st' & Hat & Hit & _).
  assert (Hhead : loop_head E 40 w0 = Some (st', slept (world_after pr))).
  { apply loop_head_S. exists (head pr), w. split; [exact Hat | exact Hit]. }
  destruct (loop_head_spec Hhead) as (Hpn & _ & Hposted).
  exists st', (slept (world_after pr)). repeat split; auto.
  replace fuel with (40 + S (fuel - 41)) by lia.
  rewrite (get_all_pages_head Hhead), loop_S, iteration_ceiling by lia.
  reflexivity.
Qed.

(** C5.  Deduplication.  At the head of every iteration, hence at the end
    of the one before, and in the frame that a run returns, no two rows
    have the same [vin]. *)
Theorem no_duplicate_vin (E : Env) (w0 : World) :
  (forall n st w, at_page E n w0 = Some (st, w) -> NoDup (keys (df st))) /\
  (forall fuel why d w',
      get_all_pages fuel E w0 = (Ok (Some (why, d)), w') -> NoDup (keys d)).
Proof.
  split.
  - intros n st w H. now destruct (at_page_spec H) as (_ & [_ Hnd] & _).
  - intros fuel why d w' H.
    apply get_all_pages_result in H as (k & st & w & _ & Hh & Hit).
    rewrite (break_frame Hh Hit).
    now destruct (loop_head_spec Hh) as (_ & [_ Hnd] & _).
Qed.

(** C9.  No eviction.  A key that is in the frame when the controller is at
    page [n] is in the frame, with the same row, at every later page and in
    the frame that the run returns; the number of rows never decreases. *)
Theorem accumulated_set_never_shrinks (E : Env) (w0 : World) (n : nat)
  (st : Loop) (w : World) :
  at_page E n w0 = Some (st, w) ->
  (forall m st' w',
      n <= m -> at_page E m w0 = Some (st', w') -> kept (df st) (df st')) /\
  (forall fuel why d w',
      get_all_pages fuel E w0 = (Ok (Some (why, d)), w') -> kept (df st) d).
Proof.
  intros Hat. destruct (at_page_spec Hat) as (_ & _ & _ & Hhead & Hn).
  split.
  - intros m st' w' Hm Hat'.
    destruct (at_page_spec Hat') as (_ & _ & _ & Hhead' & _).
    replace (m - 1) with ((n - 1) + (m - n)) in Hhead' by lia.
    destruct (loop_head_prefix Hhead Hhead') as (extra & ->).
    apply prefix_kept.
  - intros fuel why d w' Hrun.
    destruct (final_frame_extends Hhead Hrun) as (extra & ->).
    apply prefix_kept.
Qed.

(** In a frame without duplicate keys, a row is the row of its key. *)
Lemma row_of_In (d : DataFrame) (x : Item) :
  NoDup (keys d) -> In x d -> row_of (vin x) d = Some x.
Proof.
  induction d as [|y d IH]; simpl; intros Hnd Hx; [contradiction|].
  inversion Hnd as [|k ks Hy Hd]; subst.
  destruct Hx as [->|Hx]; [now rewrite String.eqb_refl|].
  destruct (String.eqb_spec (vin x) (vin y)) as [Heq|Hne]; [|now apply IH].
  exfalso. apply Hy. rewrite <- Heq. now apply in_map.
Qed.

(** What [drop_duplicates] keeps: of the rows with one key, the first. *)
Lemma In_drop_duplicates (all : DataFrame) (x : Item) :
  In x (drop_duplicates all) <-> row_of (vin x) all = Some x.
Proof.
  rewrite <- (row_of_drop_duplicates (vin x) all). split.
  - apply row_of_In, drop_duplicates_NoDup.
  - intros H. now apply row_of_Some in H.
Qed.

Lemma first_kept_extends (all extra d : DataFrame) :
  d = drop_duplicates all ++ extra -> NoDup (keys d) -> first_kept all d.
Proof.
  intros -> Hnd. split; [assumption|]. intros x Hk.
  rewrite <- In_drop_duplicates, in_app_iff. split; [|auto].
  intros [H|H]; [assumption|]. exfalso.
  assert (Hin : In (vin x) (keys (drop_duplicates all))).
  { destruct (row_of (vin x) (drop_duplicates all)) as [y|] eqn:Hy.
    - apply row_of_Some in Hy as [Hy <-]. now apply in_map.
    - rewrite row_of_drop_duplicates in Hy. apply row_of_None in Hy.
      contradiction. }
  unfold keys in Hnd. rewrite map_app in Hnd.
  revert Hnd Hin H. generalize (drop_duplicates all). intros b Hnd Hin H.
  induction b as [|y b IH]; simpl in *; [contradiction|].
  inversion Hnd as [|k ks Hy Hb]; subst.
  destruct Hin as [Heq|Hin]; [|now apply IH].
  apply Hy. rewrite Heq. apply in_or_app. right. now apply in_map.
Qed.

(** The frame after page [n] is the concatenation of the page without its
    duplicates: at the head of the next page, when there is one, and as the
    start of the frame that the run returns. *)
Lemma frame_after_page (E : Env) (w0 : World) (n : nat) (pr : PageRun) :
  page_fetched E n w0 = Some pr ->
  (forall st' w', at_page E (S n) w0 = Some (st', w') ->
                  df st' = drop_duplicates (after_east pr)) /\
  (forall fuel why d w',
      get_all_pages fuel E w0 = (Ok (Some (why, d)), w') ->
      exists extra, d = drop_duplicates (after_east pr) ++ extra).
Proof.
  intros Hpf.
  destruct (page_fetched_inv Hpf)
    as (w & st1 & w1 & w2 & w3 & Hat & Hp & Hr & _ & _ & _ & Hf).
  destruct (at_page_spec Hat) as (_ & HI & _ & Hhead & Hn).
  pose proof (iteration_run Hp Hr Hf) as Hit. rewrite conclude_cases in Hit.
  destruct (List.length (drop_duplicates (after_east pr)) =? last_run_counter st1).
  - split.
    + intros st' w' Hat'. simpl in Hat'.
      replace n with (S (n - 1)) in Hat' by lia.
      apply loop_head_S in Hat' as (st & wa & Hh & Hnext).
      rewrite Hhead in Hh. inversion Hh; subst. rewrite Hit in Hnext. discriminate.
    + intros fuel why d w' Hrun.
      rewrite (break_frame Hhead Hit).
      exact (final_frame_extends Hhead Hrun).
  - assert (Hnext : loop_head E n w0
                    = Some (advance st1 (drop_duplicates (after_east pr)),
                            slept (world_after pr))).
    { replace n with (S (n - 1)) at 1 by lia. apply loop_head_S. eauto. }
    split.
    + intros st' w' Hat'. simpl in Hat'. rewrite Hnext in Hat'.
      now inversion Hat'.
    + intros fuel why d w' Hrun.
      exact (final_frame_extends Hnext Hrun).
Qed.

(** C6.  First seen wins.  The rows of a page are appended to the frame in
    the order west, central, east, and of the rows with one key the frame
    keeps the first in that order and no other: at the head of the next
    page and in the frame that the run returns, a row whose key was met up
    to this page is there if and only if it is the first row with its key
    in the concatenation.  So when the west zone returns a row for a key
    that the frame does not have yet and the central zone returns a row
    with the same key and another payload, the west row is in the frame of
    the next page and in the returned frame, and the central row is in
    neither. *)
Theorem first_seen_wins (E : Env) (w0 : World) (n : nat) (pr : PageRun) :
  page_fetched E n w0 = Some pr ->
  (exists rw rc re,
      after_west pr = df (head pr) ++ rw /\
      after_central pr = after_west pr ++ rc /\
      after_east pr = after_central pr ++ re) /\
  (forall st' w', at_page E (S n) w0 = Some (st', w') ->
                  first_kept (after_east pr) (df st') /\
                  forall k, row_of k (df st') = row_of k (after_east pr)) /\
  (forall fuel why d w',
      get_all_pages fuel E w0 = (Ok (Some (why, d)), w') ->
      first_kept (after_east pr) d) /\
  (forall rw rc key iw ic,
      after_west pr = df (head pr) ++ rw ->
      after_central pr = after_west pr ++ rc ->
      row_of key (df (head pr)) = None ->
      row_of key rw = Some iw ->
      In ic rc -> vin ic = key -> payload ic <> payload iw ->
      (exists st' w',
          at_page E (S n) w0 = Some (st', w') /\
          row_of key (df st') = Some iw /\
          In iw (df st') /\ ~ In ic (df st')) /\
      (forall fuel why d w',
          get_all_pages fuel E w0 = (Ok (Some (why, d)), w') ->
          row_of key d = Some iw /\ In iw d /\ ~ In ic d)).
Proof.
  intros Hpf.
  destruct (frame_after_page Hpf) as [Hnext Hfinal].
  assert (Hhead : forall st' w', at_page E (S n) w0 = Some (st', w') ->
                                 first_kept (after_east pr) (df st')).
  { intros st' w' Hat'. apply (first_kept_extends (extra := [])).
    - now rewrite app_nil_r, (Hnext _ _ Hat').
    - now destruct (at_page_spec Hat') as (_ & [_ Hnd] & _). }
  assert (Hret : forall fuel why d w',
             get_all_pages fuel E w0 = (Ok (Some (why, d)), w') ->
             first_kept (after_east pr) d).
  { intros fuel why d w' Hrun.
    destruct (Hfinal _ _ _ _ Hrun) as (extra & Hd).
    apply (first_kept_extends Hd).
    apply get_all_pages_result in Hrun as (k & st & w & _ & Hh & Hit).
    rewrite (break_frame Hh Hit).
    now destruct (loop_head_spec Hh) as (_ & [_ Hnd] & _). }
  destruct (page_fetched_inv Hpf)
    as (w & st1 & w1 & w2 & w3 & Hat & _ & Hr & H1 & H2 & H3 & _).
  split; [|split; [|split; [exact Hret|]]].
  - apply refresh_waf_fields in Hr as (Hdf & _).
    apply merge_zone_rows in H1 as (rw & Hw).
    apply merge_zone_rows in H2 as (rc & Hc).
    apply merge_zone_rows in H3 as (re & He).
    exists rw, rc, re. rewrite <- Hdf. auto.
  - intros st' w' Hat'. split; [exact (Hhead _ _ Hat')|].
    intros k. now rewrite (Hnext _ _ Hat'), row_of_drop_duplicates.
  - intros rw rc key iw ic Hw Hc Hfresh Hrow Hic Hkey Hpay.
    apply merge_zone_rows in H3 as (re & He).
    assert (Hfirst : row_of key (after_east pr) = Some iw).
    { rewrite He, Hc, Hw, !row_of_app, Hfresh, Hrow. reflexivity. }
    destruct (row_of_Some Hrow) as (Hin & Hvin).
    assert (Hkeys : In key (keys (after_east pr))).
    { destruct (row_of_Some Hfirst) as [Hx <-]. now apply in_map. }
    assert (Hx : In iw (after_east pr)) by (now apply row_of_Some in Hfirst).
    assert (Hnew : ~ In (vin iw) (keys (df (head pr)))).
    { rewrite Hvin. now apply row_of_None. }
    assert (Hwin : forall d, first_kept (after_east pr) d ->
                             row_of key d = Some iw /\ In iw d /\ ~ In ic d).
    { intros d [Hnd Hd].
      assert (Hiw : In iw d) by (apply Hd; rewrite Hvin; assumption).
      split; [|split; [assumption|]].
      - rewrite <- Hvin. now apply row_of_In.
      - intros Hc'. apply Hd in Hc'; [|now rewrite Hkey].
        rewrite Hkey, Hfirst in Hc'. inversion Hc'. subst ic. now apply Hpay. }
    split.
    + destruct (page_new Hpf Hx Hnew) as (wa & st' & Hat' & Hit & _).
      destruct (at_page_spec Hat') as (_ & _ & _ & Hh & Hn).
      assert (Hnx : at_page E (S n) w0 = Some (st', slept (world_after pr))).
      { simpl. replace n with (S (n - 1)) by lia. apply loop_head_S. eauto. }
      exists st', (slept (world_after pr)). split; [assumption|].
      apply Hwin. exact (Hhead _ _ Hnx).
    + intros fuel why d w' Hrun. apply Hwin. exact (Hret _ _ _ _ Hrun).
Qed.

(** * The credential guard *)

(** C3, as stated, fails at the boundary: with exactly 240 seconds elapsed
    the check keeps the headers and runs no bypass. *)
Lemma refresh_not_at_240 :
  ~ (forall (E : Env) (st : Loop) (w : World),
        (240 <= default_timer E (timer_reads w) - timer_start st)%Z ->
        waf_runs (snd (refresh_waf E st w)) = S (waf_runs w)).
Proof.
  intros H.
  specialize (H (example_env (Some (lit "RAV4")) (fun _ => 240%Z)
                             (fun _ => rows_response []))
                (example_loop example_headers 0) world0).
  vm_compute in H. assert (H0 : 0 = 1) by (apply H; discriminate).
  discriminate.
Qed.

(** C3, amended.  While at most 240 seconds have elapsed since the headers
    were obtained, the check returns the loop variables as they are, with
    the same headers and the same start time, and runs no bypass.  Once more
    than 240 seconds have elapsed, it runs the bypass exactly once, and when
    that returns, the new headers replace the old ones and the start time
    becomes the next reading of the clock. *)
Theorem refresh_after_240 (E : Env) (st : Loop) (w : World) :
  ((default_timer E (timer_reads w) - timer_start st <= 240)%Z ->
   refresh_waf E st w = (Ok st, tick w)) /\
  ((240 < default_timer E (timer_reads w) - timer_start st)%Z ->
   waf_runs (snd (refresh_waf E st w)) = S (waf_runs w) /\
   forall h, waf_run E (waf_runs w) = Ok h ->
     refresh_waf E st w =
     (Ok (with_headers st h (default_timer E (S (timer_reads w)))),
      tick (bypassed (tick w)))).
Proof.
  rewrite refresh_waf_cases. split; intros H.
  - apply Z.ltb_ge in H. now rewrite H.
  - apply Z.ltb_lt in H. rewrite H. split.
    + destruct (waf_run E (waf_runs w)); reflexivity.
    + intros h Hh. now rewrite Hh.
Qed.

(** * The zone fetcher *)

(** What [query_toyota] does with a decodable body. *)
Lemma query_toyota_decoded (E : Env) (p : nat) (q : text) (h : header_map)
  (w : World) (resp : response) (body : json) :
  requests_post E (posts w) (page_query p q) h = Ok resp ->
  resp_json resp = Some body ->
  fst (query_toyota E p q h w) =
  match py_getitem body "data" with
  | Raise e => Raise e
  | Ok data =>
      match py_getitem data "locateVehiclesByZip" with
      | Raise e => Raise e
      | Ok result =>
          if negb (py_truthy result) then Ok None
          else match py_in "vehicleSummary" result with
               | Raise e => Raise e
               | Ok present => if negb present then Ok None else Ok (Some result)
               end
      end
  end.
Proof.
  intros Hpost Hbody. unfold query_toyota, bind, post, lift, ret.
  fold (page_query p q). rewrite Hpost, Hbody.
  destruct (py_getitem body "data") as [data|e]; [|reflexivity].
  destruct (py_getitem data "locateVehiclesByZip") as [result|e]; [|reflexivity].
  destruct (negb (py_truthy result)); [reflexivity|].
  destruct (py_in "vehicleSummary" result) as [present|e]; [|reflexivity].
  destruct (negb present); reflexivity.
Qed.

(** The failures that do become a "no results" marker: a body that does not
    decode, a falsy result, a result object without the list. *)
Lemma query_toyota_undecodable (E : Env) (p : nat) (q : text) (h : header_map)
  (w : World) (resp : response) :
  requests_post E (posts w) (page_query p q) h = Ok resp ->
  resp_json resp = None ->
  fst (query_toyota E p q h w) = Ok None.
Proof.
  intros Hpost Hbody. unfold query_toyota, bind, post, lift, ret.
  fold (page_query p q). now rewrite Hpost, Hbody.
Qed.

(** C4 fails on the code.  A body that decodes but has no "data" member, as
    a GraphQL error answer has, makes [query_toyota] raise KeyError; a
    "data" member that is null makes it raise TypeError. *)
Theorem query_toyota_raises_on_missing_container :
  let errors := JObj [("errors"%string,
                       JArr [JObj [("message"%string, JStr "Forbidden")]])] in
  let null_data := JObj [("data"%string, JNull)] in
  let env body := example_env (Some (lit "RAV4")) (fun _ => 0%Z)
                              (fun _ => mkResponse (Some body) "") in
  fst (query_toyota (env errors) 1 example_template example_headers world0)
    = Raise KeyError /\
  fst (query_toyota (env null_data) 1 example_template example_headers world0)
    = Raise TypeError.
Proof. split; reflexivity. Qed.

(** * The query builder *)

Lemma render_query_Ok (E : Env) (zone : string) (w : World) (t z m : text) :
  graphql_file E = Ok t ->
  dict_get zip_codes zone = Some z ->
  MODEL E = Some m ->
  render_query E zone w =
  (Ok (rendered t z m (urandom E (rng_draws w)) (urandom E (S (rng_draws w)))),
   drawn (drawn w)).
Proof.
  intros Ht Hz Hm.
  unfold render_query, bind, lift, randbelow, uuid4, draw, ret, rendered, drawn.
  rewrite Ht, Hz, Hm. reflexivity.
Qed.

(** Rendering only draws: the memo table, the trace and the other counters
    stay as they are. *)
Lemma render_query_world (E : Env) (zone : string) (w w1 : World)
  (r : outcome text) :
  render_query E zone w = (r, w1) ->
  w1 = w \/ w1 = drawn (drawn w).
Proof.
  unfold render_query, bind, lift, randbelow, uuid4, draw, ret, drawn.
  destruct (graphql_file E); [|inversion 1; auto].
  destruct (dict_get zip_codes zone); [|inversion 1; auto].
  destruct (MODEL E); [|inversion 1; auto].
  inversion 1; auto.
Qed.

Lemma args_eqb_eq (a b : args) : args_eqb a b = true <-> a = b.
Proof.
  destruct a, b; simpl; try (split; discriminate); try tauto;
    rewrite String.eqb_eq; split; congruence.
Qed.

Lemma args_eqb_refl (a : args) : args_eqb a a = true.
Proof. now apply args_eqb_eq. Qed.

Lemma get_vehicles_query_cases (E : Env) (a : args) (w : World) :
  get_vehicles_query E a w =
  match cache_get (query_cache w) a with
  | Some q => (Ok q, w)
  | None =>
      match render_query E (zone_of a) w with
      | (Ok q, w1) => (Ok q, stored w1 a q)
      | (Raise e, w1) => (Raise e, w1)
      end
  end.
Proof.
  unfold get_vehicles_query, bind, cache_lookup, cache_store, ret, stored.
  destruct (cache_get (query_cache w) a); [reflexivity|].
  destruct (render_query E (zone_of a) w) as [[q|e] w1]; reflexivity.
Qed.

(** C7, as stated, fails: rendering with an empty MODEL raises nothing. *)
Lemma render_accepts_empty_model :
  ~ (forall (E : Env) (a : args) (w : World),
        MODEL E = None \/ MODEL E = Some [] ->
        exists e w', get_vehicles_query E a w = (Raise e, w')).
Proof.
  intros H.
  destruct (H (example_env (Some []) (fun _ => 0%Z) (fun _ => rows_response []))
              (Keyword "west") world0) as (e & w' & He).
  - now right.
  - vm_compute in He. discriminate.
Qed.

(** C7, amended.  The check of the model is made by [update_vehicles]: with
    MODEL missing or empty it exits at once and leaves the world as it is,
    so that no query is rendered, no bypass is run and no request is issued;
    otherwise it goes on to the crawl.  [get_vehicles_query] makes no such
    check: whenever MODEL is set, the template can be read and the zone is
    one of west, central and east, it returns a query. *)
Theorem model_checked_before_crawl (E : Env) (fuel : nat) (w : World) :
  (MODEL E = None \/ MODEL E = Some [] ->
   update_vehicles fuel E w
   = (Raise (SystemExit "Set the MODEL environment variable first"), w)) /\
  (forall m, MODEL E = Some m -> m <> [] ->
             update_vehicles fuel E w = get_all_pages fuel E w) /\
  (forall m t a,
      MODEL E = Some m -> graphql_file E = Ok t ->
      In (zone_of a) ["west"%string; "central"%string; "east"%string] ->
      exists q w', get_vehicles_query E a w = (Ok q, w')).
Proof.
  unfold update_vehicles, raise. repeat split.
  - intros [H|H]; rewrite H; reflexivity.
  - intros m Hm Hne. rewrite Hm. destruct m; [contradiction|reflexivity].
  - intros m t a Hm Ht Hz.
    rewrite get_vehicles_query_cases.
    destruct (cache_get (query_cache w) a) as [q|]; [eauto|].
    assert (Hzip : exists z, dict_get zip_codes (zone_of a) = Some z).
    { destruct Hz as [<-|[<-|[<-|[]]]]; simpl; eauto. }
    destruct Hzip as (z & Hzip).
    rewrite (render_query_Ok w Ht Hzip Hm). eauto.
Qed.

(** ** The memo table *)

Lemma same_cache_refl (w : World) : same_cache w w.
Proof. reflexivity. Qed.

Lemma same_cache_trans (w1 w2 w3 : World) :
  same_cache w1 w2 -> same_cache w2 w3 -> same_cache w1 w3.
Proof. unfold same_cache. congruence. Qed.

Lemma get_vehicles_query_cache (E : Env) (a : args) (w w' : World)
  (r : outcome text) :
  get_vehicles_query E a w = (r, w') -> cache_kept w w'.
Proof.
  rewrite get_vehicles_query_cases. intros H z q Hz.
  destruct (cache_get (query_cache w) a) as [q0|] eqn:Hzone.
  - inversion H; subst. assumption.
  - destruct (render_query E (zone_of a) w) as [[q1|e] w1] eqn:Hr;
      apply render_query_world in Hr; inversion H; subst; clear H.
    + assert (Hc : query_cache w1 = query_cache w) by (destruct Hr; now subst).
      simpl. rewrite Hc. destruct (args_eqb z a) eqn:Heq; [|assumption].
      apply args_eqb_eq in Heq. congruence.
    + destruct Hr; now subst.
Qed.

Lemma get_vehicles_query_stored (E : Env) (a : args) (w w' : World)
  (q : text) :
  get_vehicles_query E a w = (Ok q, w') ->
  cache_get (query_cache w') a = Some q.
Proof.
  rewrite get_vehicles_query_cases.
  destruct (cache_get (query_cache w) a) as [q0|] eqn:Hzone.
  - inversion 1; subst. assumption.
  - destruct (render_query E (zone_of a) w) as [[q1|e] w1]; inversion 1; subst.
    simpl. now rewrite args_eqb_refl.
Qed.

Lemma refresh_waf_cache (E : Env) (st : Loop) :
  keeps same_cache (refresh_waf E st).
Proof.
  intros w r w'. rewrite refresh_waf_cases.
  destruct (240 <? _)%Z; [destruct (waf_run E (waf_runs w))|];
    inversion 1; reflexivity.
Qed.

Lemma merge_zone_cache (E : Env) (p : nat) (q : text) (h : header_map)
  (d : DataFrame) :
  keeps same_cache (merge_zone E p q h d).
Proof. intros w r w' H. apply merge_zone_world in H. now subst. Qed.

Lemma iteration_cache (E : Env) (st : Loop) : keeps same_cache (iteration E st).
Proof.
  unfold iteration. destruct (40 <? page_number st).
  - apply keeps_ret, same_cache_refl.
  - apply keeps_bind; [apply same_cache_trans | |].
    + apply refresh_waf_cache.
    + intros st1.
      apply keeps_bind; [apply same_cache_trans | |].
      * unfold fetch_page.
        repeat (apply keeps_bind;
                [apply same_cache_trans | apply merge_zone_cache | intro]).
        apply merge_zone_cache.
      * intros d w r w'. rewrite conclude_cases.
        destruct (_ =? _); inversion 1; reflexivity.
Qed.

Lemma loop_cache (E : Env) (f : nat) (st : Loop) : keeps same_cache (loop f E st).
Proof.
  revert st. induction f as [|f IH]; intros st; simpl.
  - apply keeps_ret, same_cache_refl.
  - apply keeps_bind; [apply same_cache_trans | |].
    + apply iteration_cache.
    + intros [st'|why d]; [apply IH | apply keeps_ret, same_cache_refl].
Qed.

(** ** The queries of the requests *)

Lemma iteration_requests (E : Env) (st : Loop) (w w' : World) (r : outcome step) :
  iteration E st w = (r, w') -> after (zone_requests st) w w'.
Proof.
  intros H. destruct (Nat.lt_ge_cases 40 (page_number st)) as [Hlt|Hle].
  - rewrite iteration_ceiling in H by assumption. inversion H; subst.
    apply after_refl.
  - rewrite iteration_body in H by assumption.
    apply bind_inv in H as [(st1 & w1 & Hr & H)|(e & Hr & _)];
      [|now apply (refresh_waf_after (P := zone_requests st) I Hr)].
    eapply after_trans;
      [now apply (refresh_waf_after (P := zone_requests st) I Hr)|].
    apply refresh_waf_fields in Hr as (_ & Hpn & Hwq & Hcq & Heq & _).
    assert (Hf : forall r2 w2, fetch_page E st1 w1 = (r2, w2) ->
                               after (zone_requests st) w1 w2).
    { intros r2 w2 Hf. eapply fetch_page_after; [| | |exact Hf];
        unfold west_post, central_post, east_post; simpl;
        rewrite ?Hwq, ?Hcq, ?Heq; auto. }
    apply bind_inv in H as [(d & w2 & Hfp & Hc)|(e & Hfp & _)].
    + eapply after_trans; [exact (Hf _ _ Hfp)|].
      eapply conclude_after; [|exact Hc]. exact I.
    + exact (Hf _ _ Hfp).
Qed.

Lemma iteration_Next_queries (E : Env) (st st' : Loop) (w w' : World) :
  iteration E st w = (Ok (Next st'), w') ->
  west_query st' = west_query st /\ central_query st' = central_query st /\
  east_query st' = east_query st.
Proof.
  intros Hit.
  apply iteration_inv in Hit as [(_ & H & _)|(Hle & st1 & w1 & d & w2 & Hr & _ & Hc)];
    [discriminate|].
  rewrite conclude_cases in Hc.
  destruct (List.length (drop_duplicates d) =? last_run_counter st1);
    [discriminate|].
  inversion Hc; subst st'.
  apply refresh_waf_fields in Hr as (_ & _ & Hwq & Hcq & Heq & _).
  simpl. auto.
Qed.

Lemma loop_requests (E : Env) (f : nat) :
  forall st w r w',
    loop f E st w = (r, w') -> after (zone_requests st) w w'.
Proof.
  induction f as [|f IH]; intros st w r w' H.
  - inversion H; subst. apply after_refl.
  - rewrite loop_S in H.
    destruct (iteration E st w) as [[[st'|why d]|e] w1] eqn:Hit.
    + eapply after_trans; [exact (iteration_requests Hit)|].
      apply iteration_Next_queries in Hit as (Hwq & Hcq & Heq).
      eapply after_weaken; [|exact (IH _ _ _ _ H)].
      intros [|p q h|s]; simpl; auto. now rewrite Hwq, Hcq, Heq.
    + inversion H; subst. exact (iteration_requests Hit).
    + inversion H; subst. exact (iteration_requests Hit).
Qed.

(** The three queries that the loop starts with are the entries of the memo
    table, and entering the loop issues no request. *)
Lemma enter_loop_queries (E : Env) (w0 w : World) (st : Loop) :
  enter_loop E w0 = (Ok st, w) ->
  cache_get (query_cache w) (Keyword "west") = Some (west_query st) /\
  cache_get (query_cache w) (Keyword "central") = Some (central_query st) /\
  cache_get (query_cache w) (Keyword "east") = Some (east_query st).
Proof.
  unfold enter_loop. intros H.
  apply bind_Ok in H as (wq & w1 & Hw & H).
  apply bind_Ok in H as (cq & w2 & Hc & H).
  apply bind_Ok in H as (eq & w3 & He & H).
  unfold bind, waf_bypass, timer, ret in H.
  destruct (waf_run E (waf_runs w3)); [|discriminate].
  inversion H; subst; clear H. simpl.
  pose proof (get_vehicles_query_stored Hw) as Sw.
  pose proof (get_vehicles_query_stored Hc) as Sc.
  pose proof (get_vehicles_query_stored He) as Se.
  pose proof (get_vehicles_query_cache Hc) as Kc.
  pose proof (get_vehicles_query_cache He) as Ke.
  auto.
Qed.

(** C10, as stated, fails for calls written in different forms.  The memo
    table is keyed by the arguments as they are written: after
    [get_vehicles_query(zone="west")] the call [get_vehicles_query("west")]
    finds no entry and renders again, with a new distance and a new
    identifier. *)
Lemma rendered_again_in_another_form :
  ~ (forall (E : Env) (a a' : args) (w w1 : World) (q : text),
        zone_of a = zone_of a' ->
        get_vehicles_query E a w = (Ok q, w1) ->
        fst (get_vehicles_query E a' w1) = Ok q).
Proof.
  intros H.
  destruct (get_vehicles_query stale_env (Keyword "west") world0)
    as [[q|e] w1] eqn:Hq; [|vm_compute in Hq; discriminate].
  pose proof (H stale_env (Keyword "west") (Positional "west") world0 w1 q
                eq_refl Hq) as H2.
  vm_compute in Hq. inversion Hq; subst. vm_compute in H2. inversion H2.
Qed.

(** C10, amended.  One rendering per form of call.  A call of
    [get_vehicles_query] that returns stores its text in the memo table
    under its arguments; a later call with the same arguments returns the
    stored text and draws nothing, and calls with any arguments keep the
    entries that are there.  A run calls it in one form, [zone=...], once
    for each zone: the three zone queries are those entries, the loop
    leaves the memo table as it is, and every request it issues carries one
    of these three texts with only the page number substituted. *)
Theorem query_rendered_once_per_zone (E : Env) :
  (forall a w q w1,
      get_vehicles_query E a w = (Ok q, w1) ->
      cache_get (query_cache w1) a = Some q /\
      get_vehicles_query E a w1 = (Ok q, w1)) /\
  (forall a a' w q r w',
      cache_get (query_cache w) a = Some q ->
      get_vehicles_query E a' w = (r, w') ->
      cache_get (query_cache w') a = Some q /\
      (a' = a -> r = Ok q /\ w' = w)) /\
  (forall fuel w0 st w,
      enter_loop E w0 = (Ok st, w) ->
      cache_get (query_cache w) (Keyword "west") = Some (west_query st) /\
      cache_get (query_cache w) (Keyword "central") = Some (central_query st) /\
      cache_get (query_cache w) (Keyword "east") = Some (east_query st) /\
      snd (get_all_pages fuel E w0) = snd (loop fuel E st w) /\
      query_cache (snd (loop fuel E st w)) = query_cache w /\
      after (zone_requests st) w (snd (loop fuel E st w))).
Proof.
  repeat split.
  - now apply get_vehicles_query_stored in H.
  - pose proof (get_vehicles_query_stored H) as Hs.
    now rewrite get_vehicles_query_cases, Hs.
  - now apply (get_vehicles_query_cache H0).
  - subst a'. rewrite get_vehicles_query_cases, H in H0. now inversion H0.
  - subst a'. rewrite get_vehicles_query_cases, H in H0. now inversion H0.
  - now apply enter_loop_queries in H.
  - now apply enter_loop_queries in H.
  - now apply enter_loop_queries in H.
  - unfold get_all_pages, bind. now rewrite H.
  - destruct (loop fuel E st w) as [r w'] eqn:Hl. exact (loop_cache Hl).
  - destruct (loop fuel E st w) as [r w'] eqn:Hl. exact (loop_requests Hl).
Qed.

(** * Text: prefixes, occurrences and [str.replace] *)

Lemma startswith_app (p r : text) : startswith p (p ++ r) = true.
Proof.
  induction p as [|a p IH]; simpl; auto. now rewrite Ascii.eqb_refl.
Qed.

Lemma startswith_inv (p s : text) :
  startswith p s = true -> exists r, s = p ++ r.
Proof.
  revert s. induction p as [|a p IH]; intros s H; simpl in *.
  - eauto.
  - destruct s as [|b s]; [discriminate|].
    apply andb_true_iff in H as [Hab H]. apply Ascii.eqb_eq in Hab. subst b.
    destruct (IH _ H) as (r & ->). eauto.
Qed.

(** Two prefixes of one text: one is a prefix of the other. *)
Lemma startswith_both (p q s : text) :
  startswith p s = true -> startswith q s = true ->
  startswith p q = true \/ startswith q p = true.
Proof.
  revert q s. induction p as [|a p IH]; intros q s Hp Hq; simpl in *; auto.
  destruct q as [|b q]; simpl; auto.
  destruct s as [|c s]; [discriminate|]. simpl in Hq.
  apply andb_true_iff in Hp as [Hac Hp]. apply andb_true_iff in Hq as [Hbc Hq].
  apply Ascii.eqb_eq in Hac, Hbc. subst a b. rewrite Ascii.eqb_refl. simpl.
  eapply IH; eassumption.
Qed.

(** A prefix of [x ++ r] is a prefix of [x] or has [x] as a prefix. *)
Lemma startswith_split (q x r : text) :
  startswith q (x ++ r) = true ->
  startswith q x = true \/ startswith x q = true.
Proof.
  intros H. apply (startswith_both (s := x ++ r)); [assumption|].
  apply startswith_app.
Qed.

Lemma str_in_nil (s : text) : str_in [] s = true.
Proof. destruct s; reflexivity. Qed.

Lemma str_in_here (q s : text) : startswith q s = true -> str_in q s = true.
Proof.
  destruct s; simpl; [auto|]. intros H. now rewrite H.
Qed.

Lemma str_in_cons (q s : text) (c : ascii) :
  str_in q s = true -> str_in q (c :: s) = true.
Proof. simpl. intros ->. apply orb_true_r. Qed.

Lemma str_in_app_r (q x r : text) : str_in q r = true -> str_in q (x ++ r) = true.
Proof.
  intros H. induction x as [|c x IH]; simpl app; [assumption|].
  now apply str_in_cons.
Qed.

Lemma str_in_cons_inv (q s : text) (c : ascii) :
  str_in q (c :: s) = true ->
  startswith q (c :: s) = true \/ str_in q s = true.
Proof. simpl. intros H. now apply orb_true_iff in H. Qed.

Lemma str_in_empty (q : text) : q <> [] -> str_in q [] = false.
Proof. destruct q; [contradiction | reflexivity]. Qed.

(** An occurrence in [x ++ r] starts inside [x] or lies in [r]. *)
Lemma str_in_app_inv (q x r : text) :
  str_in q (x ++ r) = true ->
  (exists i, i < List.length x /\ startswith q (skipn i x ++ r) = true) \/
  str_in q r = true.
Proof.
  induction x as [|c x IH]; simpl app; intros H; [now right|].
  apply str_in_cons_inv in H as [H|H].
  - left. exists 0. simpl. split; [lia | assumption].
  - destruct (IH H) as [(i & Hi & Hs)|Hr]; [|now right].
    left. exists (S i). simpl. split; [lia | assumption].
Qed.

(** ** The equations of [str_replace] for a non-empty [old] *)

Lemma replace_scan_skip (p n : text) (k : nat) (s : text) :
  replace_scan p n k s = replace_scan p n 0 (skipn k s).
Proof.
  revert k. induction s as [|c s IH]; intros k.
  - now destruct k.
  - destruct k as [|k]; [reflexivity|]. simpl. apply IH.
Qed.

Lemma skipn_length_app (x r : text) : skipn (List.length x) (x ++ r) = r.
Proof. induction x; simpl; auto. Qed.

Lemma str_replace_nil (p n : text) : p <> [] -> str_replace p n [] = [].
Proof. destruct p; [contradiction | reflexivity]. Qed.

Lemma str_replace_match (p n r : text) :
  p <> [] -> str_replace p n (p ++ r) = n ++ str_replace p n r.
Proof.
  destruct p as [|a p]; [contradiction|]. intros _.
  unfold str_replace. change ((a :: p) ++ r) with (a :: (p ++ r)).
  cbn [replace_scan].
  change (a :: p ++ r) with ((a :: p) ++ r). rewrite startswith_app.
  f_equal. rewrite replace_scan_skip.
  replace (List.length (a :: p) - 1) with (List.length p) by (simpl; lia).
  now rewrite skipn_length_app.
Qed.

Lemma str_replace_skip (p n s : text) (c : ascii) :
  p <> [] -> startswith p (c :: s) = false ->
  str_replace p n (c :: s) = c :: str_replace p n s.
Proof.
  destruct p as [|a p]; [contradiction|]. intros _ H.
  unfold str_replace. cbn [replace_scan]. now rewrite H.
Qed.

(** Induction along the scan: the empty text, a match followed by a rest,
    a character that starts no match. *)
Lemma scan_ind (p : text) (P : text -> Prop) :
  p <> [] ->
  P [] ->
  (forall r, P r -> P (p ++ r)) ->
  (forall c s, startswith p (c :: s) = false -> P s -> P (c :: s)) ->
  forall s, P s.
Proof.
  intros Hp H0 Hm Hs s.
  assert (H : forall k s, List.length s <= k -> P s).
  { clear s. induction k as [|k IH]; intros s Hk.
    - destruct s; [assumption | simpl in Hk; lia].
    - destruct s as [|c s]; [assumption|].
      destruct (startswith p (c :: s)) eqn:Hst.
      + apply startswith_inv in Hst as (r & Hr). rewrite Hr. apply Hm, IH.
        assert (Hl : List.length (c :: s) = List.length p + List.length r)
          by (rewrite Hr; apply length_app).
        destruct p; [contradiction|]. simpl in *. lia.
      + apply Hs; [assumption|]. apply IH. simpl in Hk. lia. }
  apply (H (List.length s)). lia.
Qed.

Lemma foreign_head (c : ascii) (q x : text) :
  q <> [] -> existsb (Ascii.eqb c) q = false -> startswith q (c :: x) = false.
Proof.
  destruct q as [|a q]; [contradiction|]. intros _ H. simpl in *.
  apply orb_false_iff in H as [Hca _].
  rewrite Ascii.eqb_sym, Hca. reflexivity.
Qed.

(** Inserted characters that [q] does not have cannot start or extend an
    occurrence of [q]. *)
Lemma str_in_skip_new (q n out : text) :
  q <> [] -> avoids n q = true -> str_in q (n ++ out) = str_in q out.
Proof.
  intros Hq. induction n as [|c n IH]; intros Hav; [reflexivity|].
  simpl in Hav. apply andb_true_iff in Hav as [Hc Hn].
  apply negb_true_iff in Hc.
  change ((c :: n) ++ out) with (c :: (n ++ out)).
  cbn [str_in]. rewrite (foreign_head _ Hq Hc). simpl. now apply IH.
Qed.

(** A prefix of the result that has none of the inserted characters is a
    prefix of the source. *)
Lemma startswith_back (p n : text) (n0 : ascii) (n' : text) :
  p <> [] -> n = n0 :: n' ->
  forall q s,
    existsb (Ascii.eqb n0) q = false ->
    startswith q (str_replace p n s) = true -> startswith q s = true.
Proof.
  intros Hp Hn. induction q as [|a q IH]; intros s Hav H; [reflexivity|].
  simpl in Hav. apply orb_false_iff in Hav as [Ha Hq].
  destruct s as [|c s].
  - rewrite str_replace_nil in H by assumption. discriminate.
  - destruct (startswith p (c :: s)) eqn:Hst.
    + apply startswith_inv in Hst as (r & Hr).
      rewrite Hr, str_replace_match, Hn in H by assumption.
      simpl in H. apply andb_true_iff in H as [Han _].
      rewrite Ascii.eqb_sym in Han. congruence.
    + rewrite str_replace_skip in H by assumption. simpl in *.
      apply andb_true_iff in H as [Hac H]. rewrite Hac. simpl.
      now apply IH.
Qed.

Lemma avoids_head (n q : text) (n0 : ascii) (n' : text) :
  n = n0 :: n' -> avoids n q = true -> existsb (Ascii.eqb n0) q = false.
Proof.
  intros -> H. simpl in H. apply andb_true_iff in H as [H _].
  now apply negb_true_iff.
Qed.

(** What the result contains of [q], the source contained, when the
    inserted text shares no character with [q]. *)
Lemma str_in_back (p n q : text) :
  p <> [] -> n <> [] -> q <> [] -> avoids n q = true ->
  forall s, str_in q (str_replace p n s) = true -> str_in q s = true.
Proof.
  intros Hp Hn Hq Hav.
  destruct n as [|n0 n'] eqn:En; [contradiction|]. rewrite <- En in *.
  pose proof (avoids_head En Hav) as Hhead.
  intros s; pattern s; apply (scan_ind (p := p)); clear s; [assumption| | |].
  - now rewrite str_replace_nil.
  - intros r IH H. rewrite str_replace_match in H by assumption.
    rewrite str_in_skip_new in H by assumption.
    apply str_in_app_r. now apply IH.
  - intros c s Hst IH H.
    pose proof (str_replace_skip n Hp Hst) as Heq.
    rewrite Heq in H. apply str_in_cons_inv in H as [H|H].
    + apply str_in_here. rewrite <- Heq in H.
      exact (startswith_back Hp En Hhead H).
    + apply str_in_cons. now apply IH.
Qed.

(** After the replacement nothing is left of [old], when the inserted text
    shares no character with it. *)
Lemma str_replace_removes (p n : text) :
  p <> [] -> n <> [] -> avoids n p = true ->
  forall s, str_in p (str_replace p n s) = false.
Proof.
  intros Hp Hn Hav.
  destruct n as [|n0 n'] eqn:En; [contradiction|]. rewrite <- En in *.
  pose proof (avoids_head En Hav) as Hhead.
  intros s; pattern s; apply (scan_ind (p := p)); clear s; [assumption| | |].
  - rewrite str_replace_nil by assumption. now apply str_in_empty.
  - intros r IH. rewrite str_replace_match by assumption.
    now rewrite str_in_skip_new.
  - intros c s Hst IH.
    pose proof (str_replace_skip n Hp Hst) as Heq.
    rewrite Heq. cbn [str_in]. rewrite IH, orb_false_r.
    destruct (startswith p (c :: str_replace p n s)) eqn:H; [|reflexivity].
    rewrite <- Heq in H.
    rewrite (startswith_back Hp En Hhead H) in Hst. discriminate.
Qed.

(** Where [old] occurred, the result has [new]. *)
Lemma str_replace_inserts (p n : text) :
  p <> [] ->
  forall s, str_in p s = true -> str_in n (str_replace p n s) = true.
Proof.
  intros Hp. intros s; pattern s; apply (scan_ind (p := p)); clear s; [assumption| | |].
  - intros H. rewrite str_in_empty in H by assumption. discriminate.
  - intros r _ _. rewrite str_replace_match by assumption.
    apply str_in_here, startswith_app.
  - intros c s Hst IH H. rewrite str_replace_skip by assumption.
    apply str_in_cons_inv in H as [H|H]; [congruence|].
    apply str_in_cons. now apply IH.
Qed.

Lemma no_clash_left (p q : text) (i : nat) :
  no_clash p q = true -> i < List.length p ->
  comparable (skipn i p) q = false.
Proof.
  unfold no_clash. intros H Hi. apply andb_true_iff in H as [H _].
  rewrite forallb_forall in H. apply negb_true_iff, H, in_seq. lia.
Qed.

Lemma no_clash_right (p q : text) (i : nat) :
  no_clash p q = true -> i < List.length q ->
  comparable (skipn i q) p = false.
Proof.
  unfold no_clash. intros H Hi. apply andb_true_iff in H as [_ H].
  rewrite forallb_forall in H. apply negb_true_iff, H, in_seq. lia.
Qed.

(** A tail of [q] that starts the source starts the result: no match of
    [p] begins inside an occurrence of [q]. *)
Lemma startswith_forth (p n q : text) :
  p <> [] -> no_clash p q = true ->
  forall q2 q1 s,
    q = q1 ++ q2 ->
    startswith q2 s = true -> startswith q2 (str_replace p n s) = true.
Proof.
  intros Hp Hnc. induction q2 as [|a q2 IH]; intros q1 s Hq H; [reflexivity|].
  destruct s as [|c s]; [discriminate|].
  assert (Hst : startswith p (c :: s) = false).
  { destruct (startswith p (c :: s)) eqn:Hst; [|reflexivity].
    assert (Hi : List.length q1 < List.length q)
      by (rewrite Hq, length_app; simpl; lia).
    pose proof (no_clash_right Hnc Hi) as Hcmp.
    rewrite Hq, skipn_length_app in Hcmp. unfold comparable in Hcmp.
    apply orb_false_iff in Hcmp as [H1 H2].
    destruct (startswith_both H Hst); congruence. }
  rewrite str_replace_skip by assumption. simpl in *.
  apply andb_true_iff in H as [Hac H]. rewrite Hac. simpl.
  apply (IH (q1 ++ [a])); [|assumption]. now rewrite <- app_assoc.
Qed.

(** An occurrence of [q] outlives the replacement of [p] when the two
    cannot overlap. *)
Lemma str_in_forth (p n q : text) :
  p <> [] -> no_clash p q = true ->
  forall s, str_in q s = true -> str_in q (str_replace p n s) = true.
Proof.
  intros Hp Hnc. intros s; pattern s; apply (scan_ind (p := p)); clear s; [assumption| | |].
  - intros H. destruct q; [apply str_in_nil | discriminate].
  - intros r IH H. rewrite str_replace_match by assumption.
    apply str_in_app_r. apply str_in_app_inv in H as [(i & Hi & H)|H].
    + exfalso. pose proof (no_clash_left Hnc Hi) as Hcmp.
      unfold comparable in Hcmp. apply orb_false_iff in Hcmp as [H1 H2].
      destruct (startswith_split H); congruence.
    + now apply IH.
  - intros c s Hst IH H.
    pose proof (str_replace_skip n Hp Hst) as Heq.
    apply str_in_cons_inv in H as [H|H].
    + apply str_in_here. exact (startswith_forth n Hp Hnc (q1 := []) eq_refl H).
    + rewrite Heq. apply str_in_cons. now apply IH.
Qed.

(** ** The characters of the inserted texts *)

Lemma within_avoids (al n q : text) :
  within al n = true -> avoids al q = true -> avoids n q = true.
Proof.
  unfold within, avoids. rewrite !forallb_forall. intros Hn Hal c Hc.
  specialize (Hn c Hc). apply existsb_exists in Hn as (a & Ha & Hca).
  apply Ascii.eqb_eq in Hca. subst a. now apply Hal.
Qed.

Lemma within_app (al x y : text) :
  within al (x ++ y) = within al x && within al y.
Proof. apply forallb_app. Qed.

Lemma within_firstn (al : text) (k : nat) (t : text) :
  within al t = true -> within al (firstn k t) = true.
Proof.
  revert k. induction t as [|c t IH]; intros [|k] H; simpl in *; auto.
  apply andb_true_iff in H as [Hc H]. rewrite Hc. simpl. now apply IH.
Qed.

Lemma within_skipn (al : text) (k : nat) (t : text) :
  within al t = true -> within al (skipn k t) = true.
Proof.
  revert k. induction t as [|c t IH]; intros [|k] H; simpl in *; auto.
  apply andb_true_iff in H as [_ H]. now apply IH.
Qed.

(** The distance, 5823 plus a draw below 1000, prints as digits. *)
Lemma distance_digits (r : Z) :
  let d := str_of_nat (5823 + Z.to_nat (r mod Z.of_nat 1000)) in
  within decimal_digits d = true /\ d <> [].
Proof.
  assert (Hall : forallb (fun k => within decimal_digits (str_of_nat (5823 + k))
                                   && negb (is_empty (str_of_nat (5823 + k))))
                         (seq 0 1000) = true) by (vm_compute; reflexivity).
  rewrite forallb_forall in Hall.
  assert (Hk : In (Z.to_nat (r mod Z.of_nat 1000)) (seq 0 1000)).
  { apply in_seq. pose proof (Z.mod_pos_bound r (Z.of_nat 1000)). lia. }
  apply Hall in Hk. apply andb_true_iff in Hk as [H1 H2].
  cbv zeta. split; [assumption|].
  intros Hnil. rewrite Hnil in H2. discriminate.
Qed.

Lemma hex_char_within (d : Z) :
  (0 <= d < 16)%Z -> existsb (Ascii.eqb (hex_char d)) uuid_alphabet = true.
Proof.
  intros Hd.
  assert (Hall : forallb (fun k => existsb (Ascii.eqb (hex_char (Z.of_nat k)))
                                           uuid_alphabet)
                         (seq 0 16) = true) by (vm_compute; reflexivity).
  rewrite forallb_forall in Hall.
  rewrite <- (Z2Nat.id d) by lia. apply Hall, in_seq. lia.
Qed.

Lemma to_hex_within (k : nat) (v : Z) : within uuid_alphabet (to_hex k v) = true.
Proof.
  revert v. induction k as [|k IH]; intros v; [reflexivity|].
  cbn [to_hex]. rewrite within_app, IH.
  unfold within at 1. cbn [forallb andb].
  rewrite hex_char_within; [reflexivity|].
  apply Z.mod_pos_bound. lia.
Qed.

(** A printed UUID consists of hexadecimal digits and dashes. *)
Lemma uuid_str_chars (i : Z) :
  within uuid_alphabet (uuid_str i) = true /\ uuid_str i <> [].
Proof.
  unfold uuid_str. cbv zeta. split.
  - pose proof (to_hex_within 32 i) as H.
    rewrite !within_app.
    rewrite !within_firstn, !within_skipn by (try apply within_skipn; exact H).
    reflexivity.
  - intros Hnil. apply app_eq_nil in Hnil as [_ Hnil]. discriminate.
Qed.

Lemma str_in_absent (p n q : text) (s : text) :
  p <> [] -> n <> [] -> q <> [] -> avoids n q = true ->
  str_in q s = false -> str_in q (str_replace p n s) = false.
Proof.
  intros Hp Hn Hq Hav Hs.
  destruct (str_in q (str_replace p n s)) eqn:H; [|reflexivity].
  rewrite (str_in_back Hp Hn Hq Hav H) in Hs. discriminate.
Qed.

(** C8.  Rendering for the west zone.  With MODEL set to RAV4, a template
    that has the zip code and model placeholders, and no stored rendering
    for the zone, [get_vehicles_query] returns a text that contains 84101
    and RAV4 and none of ZIPCODE, MODELCODE, DISTANCEMILES and LEADIDUUID;
    the page number placeholder of the template is still in it. *)
Theorem render_west_rav4 (E : Env) (w : World) (t : text) :
  graphql_file E = Ok t ->
  MODEL E = Some (lit "RAV4") ->
  cache_get (query_cache w) (Keyword "west") = None ->
  str_in ZIPCODE t = true ->
  str_in MODELCODE t = true ->
  exists q w',
    get_vehicles_query E (Keyword "west") w = (Ok q, w') /\
    str_in (lit "84101") q = true /\
    str_in (lit "RAV4") q = true /\
    str_in ZIPCODE q = false /\
    str_in MODELCODE q = false /\
    str_in DISTANCEMILES q = false /\
    str_in LEADIDUUID q = false /\
    (str_in PAGENUMBER t = true -> str_in PAGENUMBER q = true).
Proof.
  intros Ht Hm Hmiss Hzip Hmodel.
  rewrite get_vehicles_query_cases, Hmiss. cbn [zone_of].
  rewrite (render_query_Ok (zone := "west") (z := lit "84101") w Ht eq_refl Hm).
  eexists. eexists. split; [reflexivity|].
  unfold rendered.
  set (r1 := urandom E (rng_draws w)).
  set (r2 := urandom E (S (rng_draws w))).
  destruct (distance_digits r1) as [Hd Hdne].
  destruct (uuid_str_chars (uuid4_int r2)) as [Hu Hune].
  set (dist := str_of_nat (5823 + Z.to_nat (r1 mod Z.of_nat 1000))) in *.
  set (uuid := uuid_str (uuid4_int r2)) in *.
  assert (Hz : ZIPCODE <> []) by discriminate.
  assert (Hmc : MODELCODE <> []) by discriminate.
  assert (Hdm : DISTANCEMILES <> []) by discriminate.
  assert (Hl : LEADIDUUID <> []) by discriminate.
  assert (Hzipv : lit "84101" <> []) by discriminate.
  assert (Hrav : lit "RAV4" <> []) by discriminate.
  assert (Hdist : forall q, avoids decimal_digits q = true -> avoids dist q = true)
    by (intros q; now apply within_avoids).
  assert (Huuid : forall q, avoids uuid_alphabet q = true -> avoids uuid q = true)
    by (intros q; now apply within_avoids).
  repeat split.
  - apply str_in_forth; [assumption | reflexivity|].
    apply str_in_forth; [assumption | reflexivity|].
    apply str_in_forth; [assumption | reflexivity|].
    now apply str_replace_inserts.
  - apply str_in_forth; [assumption | reflexivity|].
    apply str_in_forth; [assumption | reflexivity|].
    apply str_replace_inserts; [assumption|].
    apply str_in_forth; [assumption | reflexivity | assumption].
  - apply str_in_absent; auto.
    apply str_in_absent; auto.
    apply str_in_absent; auto.
    now apply str_replace_removes.
  - apply str_in_absent; auto.
    apply str_in_absent; auto.
    now apply str_replace_removes.
  - apply str_in_absent; auto.
    apply str_replace_removes; auto.
  - apply str_replace_removes; auto.
  - intros Hpage.
    apply str_in_forth; [assumption | reflexivity|].
    apply str_in_forth; [assumption | reflexivity|].
    apply str_in_forth; [assumption | reflexivity|].
    apply str_in_forth; [assumption | reflexivity | assumption].
Qed.

(** * The theorems at work on small worlds *)

Lemma convergence_stops_the_crawl_witness :
  exists st w w',
    at_page stale_env 2 world0 = Some (st, w) /\
    iteration stale_env st w = (Ok (Break Converged (df st)), w') /\
    get_all_pages 2 stale_env world0 = (Ok (Some (Converged, df st)), w') /\
    posted_as (pages_upto 2) world0 w' /\
    after (on_posts (fun p => p <> 2 + 1)) world0 w'.
Proof.
  apply (@convergence_stops_the_crawl stale_env world0 2 2);
    [vm_compute; reflexivity | lia].
Defined.

Lemma page_ceiling_witness :
  exists st w,
    at_page fresh_env 41 world0 = Some (st, w) /\
    page_number st = 41 /\
    get_all_pages 41 fresh_env world0 = (Ok (Some (PageCeiling, df st)), w) /\
    posted_as (pages_upto 40) world0 w.
Proof.
  apply (proj2 (page_ceiling fresh_env world0 41)); [|lia].
  assert (Hall : forallb (fun n => new_item_on_page fresh_env n world0)
                         (seq 1 40) = true) by (vm_compute; reflexivity).
  rewrite forallb_forall in Hall.
  intros n Hn. apply Hall, in_seq. lia.
Defined.

Lemma refresh_after_240_witness :
  let keep := example_env rav4 (fun _ => 240%Z) (fun _ => rows_response []) in
  let renew := example_env rav4 (fun _ => 241%Z) (fun _ => rows_response []) in
  let st := example_loop example_headers 0 in
  refresh_waf keep st world0 = (Ok st, tick world0) /\
  waf_runs (snd (refresh_waf renew st world0)) = 1.
Proof.
  cbv zeta. split.
  - apply (proj1 (refresh_after_240 _ _ _)). vm_compute. discriminate.
  - refine (proj1 (proj2 (refresh_after_240 _ _ _) _)). vm_compute. reflexivity.
Defined.

Lemma no_duplicate_vin_witness : NoDup (keys [car_a]).
Proof.
  apply (proj2 (no_duplicate_vin stale_env world0) 2 Converged [car_a]
               (snd (get_all_pages 2 stale_env world0))).
  vm_compute. reflexivity.
Defined.

Lemma accumulated_set_never_shrinks_witness :
  kept [mkItem "0" "Blueprint"; mkItem "1" "Blueprint"; mkItem "2" "Blueprint"]
       [mkItem "0" "Blueprint"; mkItem "1" "Blueprint"; mkItem "2" "Blueprint";
        mkItem "3" "Blueprint"; mkItem "4" "Blueprint"; mkItem "5" "Blueprint"].
Proof.
  destruct (at_page fresh_env 2 world0) as [[st w]|] eqn:Hat;
    [|vm_compute in Hat; discriminate].
  destruct (at_page fresh_env 3 world0) as [[st' w']|] eqn:Hat';
    [|vm_compute in Hat'; discriminate].
  assert (Hle : 2 <= 3) by lia.
  pose proof (proj1 (@accumulated_set_never_shrinks fresh_env world0 2 st w Hat)
                    3 st' w' Hle Hat') as H.
  vm_compute in Hat, Hat'. inversion Hat; inversion Hat'; subst. exact H.
Defined.

Lemma first_seen_wins_witness :
  exists st' w',
    at_page collide_env 2 world0 = Some (st', w') /\
    row_of "JTMAB3FV1RD000001" (df st') = Some car_a /\
    In car_a (df st') /\ ~ In car_a_central (df st').
Proof.
  destruct (page_fetched collide_env 1 world0) as [pr|] eqn:Hpf;
    [|vm_compute in Hpf; discriminate].
  assert (Hpr : after_west pr = [car_a] /\ after_central pr = [car_a; car_a_central]
                /\ df (head pr) = []).
  { vm_compute in Hpf. inversion Hpf; subst. simpl. auto. }
  destruct Hpr as (Hw & Hc & Hd).
  destruct (first_seen_wins Hpf) as (_ & _ & _ & H).
  destruct (H [car_a] [car_a_central] "JTMAB3FV1RD000001"%string car_a
              car_a_central) as [Hnext _].
  - now rewrite Hw, Hd.
  - now rewrite Hc, Hw.
  - now rewrite Hd.
  - reflexivity.
  - simpl. auto.
  - reflexivity.
  - discriminate.
  - exact Hnext.
Defined.

Lemma model_checked_before_crawl_witness :
  update_vehicles 41 (example_env (Some []) (fun _ => 0%Z)
                                  (fun _ => rows_response [])) world0
  = (Raise (SystemExit "Set the MODEL environment variable first"), world0) /\
  exists q w', get_vehicles_query stale_env (Keyword "central") world0 = (Ok q, w').
Proof.
  split.
  - apply (proj1 (model_checked_before_crawl _ 41 world0)). now right.
  - apply (proj2 (proj2 (model_checked_before_crawl stale_env 41 world0))
                 (lit "RAV4") example_template (Keyword "central"));
      [reflexivity | reflexivity | simpl; auto].
Defined.

Lemma render_west_rav4_witness :
  exists q w',
    get_vehicles_query stale_env (Keyword "west") world0 = (Ok q, w') /\
    str_in (lit "84101") q = true /\
    str_in (lit "RAV4") q = true /\
    str_in ZIPCODE q = false /\
    str_in MODELCODE q = false /\
    str_in DISTANCEMILES q = false /\
    str_in LEADIDUUID q = false /\
    (str_in PAGENUMBER example_template = true -> str_in PAGENUMBER q = true).
Proof.
  apply (@render_west_rav4 stale_env world0 example_template); reflexivity.
Defined.

Lemma query_rendered_once_per_zone_witness :
  fst (get_vehicles_query stale_env (Keyword "east")
         (snd (get_vehicles_query stale_env (Keyword "east") world0)))
  = fst (get_vehicles_query stale_env (Keyword "east") world0) /\
  rng_draws (snd (get_vehicles_query stale_env (Keyword "east")
                    (snd (get_vehicles_query stale_env (Keyword "east") world0)))) = 2.
Proof.
  destruct (get_vehicles_query stale_env (Keyword "east") world0) as [[q|e] w1] eqn:H;
    [|vm_compute in H; discriminate].
  destruct (proj1 (query_rendered_once_per_zone stale_env) _ _ _ _ H) as [_ H2].
  simpl. rewrite H2. simpl. split; [reflexivity|].
  vm_compute in H. now inversion H.
Defined.

(** * More about the functions *)

(** ** [query_toyota] *)

(** A call of [query_toyota] issues one request and only one, whatever is
    answered: the request is for the page given, its query is the query
    given with the page number substituted, and nothing else in the world
    changes.  There is no second attempt. *)
Theorem query_toyota_one_request (E : Env) (p : nat) (q : text) (h : header_map)
  (w : World) :
  snd (query_toyota E p q h w) = posted w (EvPost p (page_query p q) h) /\
  posts (snd (query_toyota E p q h w)) = S (posts w).
Proof.
  destruct (query_toyota E p q h w) as [r w'] eqn:H.
  apply query_toyota_world in H. subst. simpl. auto.
Qed.

(** A result that [query_toyota] returns is truthy and has
    "vehicleSummary": the test that [get_all_pages] makes again on it
    always passes. *)
Theorem query_toyota_result_checked (E : Env) (p : nat) (q : text)
  (h : header_map) (w w' : World) (r : json) :
  query_toyota E p q h w = (Ok (Some r), w') ->
  py_truthy r = true /\ py_in "vehicleSummary" r = Ok true.
Proof.
  unfold query_toyota, bind, post, lift, ret.
  destruct (requests_post E (posts w) _ h) as [resp|e]; [|discriminate].
  destruct (resp_json resp) as [body|]; [|discriminate].
  destruct (py_getitem body "data") as [data|e]; [|discriminate].
  destruct (py_getitem data "locateVehiclesByZip") as [res|e]; [|discriminate].
  destruct (py_truthy res) eqn:Ht; simpl; [|discriminate].
  destruct (py_in "vehicleSummary" res) as [[|]|e] eqn:Hin; simpl;
    try discriminate.
  inversion 1; subst. auto.
Qed.

Lemma query_toyota_result_checked_witness :
  py_truthy (JObj [("vehicleSummary"%string, JArr [item_json car_a])]) = true /\
  py_in "vehicleSummary" (JObj [("vehicleSummary"%string, JArr [item_json car_a])])
  = Ok true.
Proof.
  apply (@query_toyota_result_checked stale_env 1 example_template
           example_headers world0
           (snd (query_toyota stale_env 1 example_template example_headers world0))).
  reflexivity.
Defined.

(** ** Failures while a page is fetched *)

Lemma refreshed_at_inv (E : Env) (n : nat) (w0 w1 : World) (st1 : Loop) :
  refreshed_at E n w0 = Some (st1, w1) ->
  exists st w,
    at_page E n w0 = Some (st, w) /\ page_number st <= 40 /\
    refresh_waf E st w = (Ok st1, w1).
Proof.
  unfold refreshed_at.
  destruct (at_page E n w0) as [[st w]|]; [|discriminate].
  destruct (40 <? page_number st) eqn:Hp; [discriminate|].
  apply Nat.ltb_ge in Hp.
  destruct (refresh_waf E st w) as [[st2|e] w2] eqn:Hr; [|discriminate].
  inversion 1; subst. eauto.
Qed.

(** The run from the fetches of page [n] on. *)
Lemma get_all_pages_from_page (E : Env) (n fuel : nat) (w0 w1 : World)
  (st1 : Loop) :
  refreshed_at E n w0 = Some (st1, w1) ->
  n <= fuel ->
  get_all_pages fuel E w0 =
  match fetch_page E st1 w1 with
  | (Ok d, w2) =>
      match conclude st1 d w2 with
      | (Ok (Next st'), w3) => loop (fuel - n) E st' w3
      | (Ok (Break why d'), w3) => (Ok (Some (why, d')), w3)
      | (Raise e, w3) => (Raise e, w3)
      end
  | (Raise e, w2) => (Raise e, w2)
  end.
Proof.
  intros Hr Hfuel.
  apply refreshed_at_inv in Hr as (st & w & Hat & Hp & Hr).
  destruct (at_page_spec Hat) as (_ & _ & _ & Hhead & Hn).
  replace fuel with ((n - 1) + S (fuel - n)) at 1 by lia.
  rewrite (get_all_pages_head Hhead), loop_S, iteration_body by assumption.
  unfold bind. rewrite Hr.
  destruct (fetch_page E st1 w1) as [[d|e] w2]; [|reflexivity].
  destruct (conclude st1 d w2) as [[[st'|why d']|e] w3]; reflexivity.
Qed.




Lemma merge_zone_undecodable (E : Env) (p : nat) (q : text) (h : header_map)
  (d : DataFrame) (w : World) (resp : response) :
  requests_post E (posts w) (page_query p q) h = Ok resp ->
  resp_json resp = None ->
  merge_zone E p q h d w = (Ok d, posted w (EvPost p (page_query p q) h)).
Proof.
  intros H Hj. unfold merge_zone, query_toyota, bind, post, ret.
  fold (page_query p q). now rewrite H, Hj.
Qed.

(** A page on which the three answers do not decode adds nothing, so the
    crawl stops there as if everything had been found: [get_all_pages]
    returns the rows of the earlier pages, after having issued the three
    requests of the page. *)
Theorem undecodable_page_ends_crawl (E : Env) (w0 : World) (n fuel : nat)
  (st1 : Loop) (w1 : World) (r1 r2 r3 : response) :
  refreshed_at E n w0 = Some (st1, w1) ->
  n <= fuel ->
  requests_post E (posts w1) (page_query n (west_query st1)) (headers st1)
  = Ok r1 ->
  requests_post E (S (posts w1)) (page_query n (central_query st1)) (headers st1)
  = Ok r2 ->
  requests_post E (S (S (posts w1))) (page_query n (east_query st1)) (headers st1)
  = Ok r3 ->
  resp_json r1 = None -> resp_json r2 = None -> resp_json r3 = None ->
  get_all_pages fuel E w0 =
  (Ok (Some (Converged, df st1)),
   posted (posted (posted w1 (west_post st1)) (central_post st1)) (east_post st1)).
Proof.
  intros Hr Hfuel H1 H2 H3 J1 J2 J3.
  pose proof (get_all_pages_from_page Hr Hfuel) as Hrun.
  apply refreshed_at_inv in Hr as (st & w & Hat & _ & Hr).
  destruct (at_page_spec Hat) as (Hpn & [Hc Hnd] & _).
  apply refresh_waf_fields in Hr as (Hdf & Hpn1 & _ & _ & _ & Hl).
  rewrite <- Hpn, <- Hpn1 in H1, H2, H3.
  assert (Hf : fetch_page E st1 w1 =
               (Ok (df st1),
                posted (posted (posted w1 (west_post st1)) (central_post st1))
                       (east_post st1))).
  { unfold fetch_page, bind.
    rewrite (merge_zone_undecodable (df st1) H1 J1).
    rewrite (merge_zone_undecodable (w := posted w1 _) (df st1) H2 J2).
    rewrite (merge_zone_undecodable (w := posted (posted w1 _) _) (df st1) H3 J3).
    reflexivity. }
  rewrite Hrun, Hf, conclude_cases.
  assert (Hsame : drop_duplicates (df st1) = df st1).
  { rewrite <- (app_nil_r (df st1)) at 1.
    rewrite drop_duplicates_app by (rewrite Hdf; exact Hnd).
    simpl. apply app_nil_r. }
  rewrite Hsame.
  replace (last_run_counter st1) with (List.length (df st1)) by congruence.
  now rewrite Nat.eqb_refl.
Qed.

Lemma undecodable_page_ends_crawl_witness :
  fst (get_all_pages 41 (garbled_env 3) world0)
  = Ok (Some (Converged, [mkItem "0" "Blueprint"; mkItem "1" "Blueprint";
                          mkItem "2" "Blueprint"])).
Proof.
  destruct (refreshed_at (garbled_env 3) 2 world0) as [[st1 w1]|] eqn:Hr;
    [|vm_compute in Hr; discriminate].
  assert (Hfuel : 2 <= 41) by lia.
  pose proof (@undecodable_page_ends_crawl (garbled_env 3) world0 2 41 st1 w1
                (mkResponse None "<html>") (mkResponse None "<html>")
                (mkResponse None "<html>") Hr Hfuel) as Hrun.
  vm_compute in Hr. inversion Hr; subst.
  rewrite Hrun; reflexivity.
Defined.

(** ** The requests and the sleeps of a run *)

Lemma requests_of_app (a b : list event) :
  requests_of (a ++ b) = requests_of a ++ requests_of b.
Proof.
  induction a as [|e a IH]; simpl; auto. destruct e; simpl; now rewrite ?IH.
Qed.

Lemma sleeps_of_app (a b : list event) :
  sleeps_of (a ++ b) = sleeps_of a ++ sleeps_of b.
Proof.
  induction a as [|e a IH]; simpl; auto. destruct e; simpl; now rewrite ?IH.
Qed.

Lemma requests_from_app (wq cq eq : text) (a b : list header_map) (p : nat) :
  requests_from wq cq eq p (a ++ b) =
  requests_from wq cq eq p a ++ requests_from wq cq eq (p + List.length a) b.
Proof.
  revert p. induction a as [|h a IH]; intros p; simpl.
  - now rewrite Nat.add_0_r.
  - rewrite IH. replace (S p + List.length a) with (p + S (List.length a)) by lia.
    reflexivity.
Qed.

Lemma get_vehicles_query_trace (E : Env) (a : args) (w w' : World)
  (r : outcome text) :
  get_vehicles_query E a w = (r, w') ->
  trace w' = trace w /\ posts w' = posts w /\ waf_runs w' = waf_runs w.
Proof.
  rewrite get_vehicles_query_cases.
  destruct (cache_get (query_cache w) a); [inversion 1; auto|].
  destruct (render_query E (zone_of a) w) as [[q|e] w1] eqn:Hr;
    apply render_query_world in Hr; inversion 1; subst;
    destruct Hr; subst; auto.
Qed.

(** Entering the loop runs the bypass once and does nothing else that
    shows. *)
Lemma enter_loop_trace (E : Env) (w0 w : World) (st : Loop) :
  enter_loop E w0 = (Ok st, w) ->
  trace w = trace w0 ++ [EvWaf] /\ posts w = posts w0 /\
  waf_runs w = S (waf_runs w0).
Proof.
  unfold enter_loop. intros H.
  apply bind_Ok in H as (wq & w1 & Hw & H).
  apply bind_Ok in H as (cq & w2 & Hc & H).
  apply bind_Ok in H as (eq & w3 & He & H).
  apply get_vehicles_query_trace in Hw as (T1 & P1 & W1).
  apply get_vehicles_query_trace in Hc as (T2 & P2 & W2).
  apply get_vehicles_query_trace in He as (T3 & P3 & W3).
  unfold bind, waf_bypass, timer, ret in H.
  destruct (waf_run E (waf_runs w3)); [|discriminate].
  inversion H; subst; simpl. repeat split; congruence.
Qed.

(** What a page that is fetched adds to the trace: perhaps a run of the
    bypass, then the three requests, with the headers after the refresh. *)
Lemma page_trace (E : Env) (st st1 : Loop) (w w1 w2 : World) (d : DataFrame) :
  refresh_waf E st w = (Ok st1, w1) ->
  fetch_page E st1 w1 = (Ok d, w2) ->
  exists evs,
    trace w2 = trace w ++ evs /\
    requests_of evs =
      page_requests (west_query st) (central_query st) (east_query st)
                    (page_number st) (headers st1) /\
    sleeps_of evs = [].
Proof.
  intros Hr Hf.
  pose proof (refresh_waf_fields Hr) as (_ & Hp & Hwq & Hcq & Heq & _).
  apply fetch_page_Ok in Hf as (-> & _).
  assert (Hthree : requests_of [west_post st1; central_post st1; east_post st1]
                   = page_requests (west_query st) (central_query st)
                       (east_query st) (page_number st) (headers st1)).
  { unfold west_post, central_post, east_post, page_requests. simpl.
    now rewrite Hp, Hwq, Hcq, Heq. }
  rewrite refresh_waf_cases in Hr.
  destruct (240 <? _)%Z.
  - destruct (waf_run E (waf_runs w)) as [h|e]; [|discriminate].
    inversion Hr; subst st1 w1. clear Hr.
    exists ([EvWaf] ++ [west_post (with_headers st h (default_timer E (S (timer_reads w))));
                        central_post (with_headers st h (default_timer E (S (timer_reads w))));
                        east_post (with_headers st h (default_timer E (S (timer_reads w))))]).
    split; [simpl; now rewrite <- !app_assoc|].
    split; [rewrite requests_of_app; exact Hthree | reflexivity].
  - inversion Hr; subst st1 w1. clear Hr.
    exists [west_post st; central_post st; east_post st].
    split; [simpl; now rewrite <- !app_assoc|].
    split; [exact Hthree | reflexivity].
Qed.

Lemma loop_head_trace (E : Env) (k : nat) (w0 w : World) (st : Loop) :
  loop_head E k w0 = Some (st, w) ->
  exists evs hs,
    trace w = trace w0 ++ evs /\
    List.length hs = k /\
    requests_of evs =
      requests_from (west_query st) (central_query st) (east_query st) 1 hs /\
    sleeps_of evs = repeat 10 k.
Proof.
  revert st w. induction k as [|k IH]; intros st w H.
  - apply loop_head_0 in H. apply enter_loop_trace in H as (Ht & _).
    exists [EvWaf], []. auto.
  - apply loop_head_S in H as (st0 & w1 & H0 & Hit).
    destruct (IH _ _ H0) as (evs & hs & Ht & Hlen & Hreq & Hsl).
    destruct (loop_head_spec H0) as (Hpn & _).
    pose proof (iteration_Next_queries Hit) as (Hwq & Hcq & Heq).
    apply iteration_inv in Hit
      as [(_ & Hb & _)|(_ & st1 & w2 & d & w3 & Hr & Hf & Hc)]; [discriminate|].
    destruct (page_trace Hr Hf) as (evs1 & Ht1 & Hreq1 & Hsl1).
    rewrite conclude_cases in Hc.
    destruct (_ =? _); [discriminate|].
    assert (Hw : w = slept w3) by congruence. subst w. clear Hc.
    exists (evs ++ evs1 ++ [EvSleep 10]), (hs ++ [headers st1]).
    simpl trace. rewrite Ht1, Ht, <- !app_assoc.
    split; [reflexivity|]. split; [rewrite length_app; simpl; lia|].
    rewrite !requests_of_app, !sleeps_of_app, Hreq, Hreq1, Hsl, Hsl1.
    rewrite requests_from_app, Hlen, Hwq, Hcq, Heq, Hpn. simpl.
    split.
    + now rewrite ?app_nil_r.
    + rewrite ?app_nil_r. symmetry. apply (repeat_cons k 10).
Qed.

Lemma loop_head_queries (E : Env) (k : nat) (w0 w w1 : World) (st st0 : Loop) :
  enter_loop E w0 = (Ok st0, w1) ->
  loop_head E k w0 = Some (st, w) ->
  (west_query st = west_query st0 /\ central_query st = central_query st0 /\
   east_query st = east_query st0) /\
  query_cache w = query_cache w1.
Proof.
  intros He. revert st w. induction k as [|k IH]; intros st w H.
  - apply loop_head_0 in H. rewrite He in H. inversion H; subst. auto.
  - apply loop_head_S in H as (st2 & w2 & H2 & Hit).
    destruct (IH _ _ H2) as ((Hwq & Hcq & Heq) & Hc).
    pose proof (iteration_Next_queries Hit) as (Hwq' & Hcq' & Heq').
    pose proof (iteration_cache Hit) as Hc'. unfold same_cache in Hc'.
    repeat split; congruence.
Qed.

Lemma loop_head_at_most_40 (E : Env) (k : nat) (w0 w : World) (st : Loop) :
  loop_head E k w0 = Some (st, w) -> k <= 40.
Proof.
  destruct k as [|k]; [lia|]. intros H.
  apply loop_head_S in H as (st0 & w1 & H0 & Hit).
  destruct (loop_head_spec H0) as (Hpn & _).
  apply iteration_Next_page in Hit as (Hle & _). lia.
Qed.

(** The network side of a crawl that returns.  Its requests are those of
    the pages 1, 2, ... up to the last one fetched, three for each page and
    in the order west, central, east; the three of a page carry the same
    headers; the queries are the three texts of the memo table with the page
    number substituted.  It sleeps 10 seconds after every page but the last
    one fetched.  A crawl that stops at the ceiling has fetched 40 pages and
    slept 40 times. *)
Theorem crawl_requests_in_order (E : Env) (fuel : nat) (w0 w' : World)
  (why : exit_reason) (d : DataFrame) :
  get_all_pages fuel E w0 = (Ok (Some (why, d)), w') ->
  exists evs wq cq eq hs,
    trace w' = trace w0 ++ evs /\
    cache_get (query_cache w') (Keyword "west") = Some wq /\
    cache_get (query_cache w') (Keyword "central") = Some cq /\
    cache_get (query_cache w') (Keyword "east") = Some eq /\
    requests_of evs = requests_from wq cq eq 1 hs /\
    match why with
    | Converged =>
        1 <= List.length hs <= 40 /\
        sleeps_of evs = repeat 10 (List.length hs - 1)
    | PageCeiling =>
        List.length hs = 40 /\ sleeps_of evs = repeat 10 40
    end.
Proof.
  intros Hrun.
  assert (Henter : exists st0 w1, enter_loop E w0 = (Ok st0, w1)).
  { unfold get_all_pages in Hrun. apply bind_Ok in Hrun as (st0 & w1 & He & _).
    eauto. }
  destruct Henter as (st0 & w1 & He).
  destruct (enter_loop_queries He) as (Qw & Qc & Qe).
  assert (Hcache : query_cache w' = query_cache w1).
  { unfold get_all_pages, bind in Hrun. rewrite He in Hrun.
    exact (loop_cache Hrun). }
  apply get_all_pages_result in Hrun as (k & st & w & _ & Hh & Hit).
  destruct (loop_head_queries He Hh) as ((Hwq & Hcq & Heq) & _).
  destruct (loop_head_spec Hh) as (Hpn & _).
  pose proof (loop_head_at_most_40 Hh) as Hk.
  destruct (loop_head_trace Hh) as (evs & hs & Ht & Hlen & Hreq & Hsl).
  rewrite Hwq, Hcq, Heq in Hreq.
  destruct why.
  - apply iteration_Ceiling_spec in Hit as (Hp & _ & ->).
    exists evs, (west_query st0), (central_query st0), (east_query st0), hs.
    rewrite Hcache. assert (Hk40 : k = 40) by lia. rewrite Hk40 in *.
    repeat split; auto.
  - apply iteration_inv in Hit
      as [(_ & Hb & _)|(Hp & st1 & w2 & d1 & w3 & Hr & Hf & Hc)]; [discriminate|].
    destruct (page_trace Hr Hf) as (evs1 & Ht1 & Hreq1 & Hsl1).
    rewrite conclude_cases in Hc.
    destruct (_ =? _); [|discriminate].
    assert (Hw : w' = w3) by congruence. subst w3. clear Hc.
    exists (evs ++ evs1), (west_query st0), (central_query st0),
           (east_query st0), (hs ++ [headers st1]).
    rewrite Hcache, Ht1, Ht, <- app_assoc.
    rewrite !requests_of_app, !sleeps_of_app, Hreq, Hreq1, Hsl, Hsl1.
    rewrite requests_from_app, Hlen, Hwq, Hcq, Heq, Hpn, length_app.
    simpl. rewrite !app_nil_r.
    replace (List.length hs + 1 - 1) with k by lia.
    repeat split; auto; lia.
Qed.

Lemma crawl_requests_in_order_witness :
  exists evs wq cq eq hs,
    trace (snd (get_all_pages 2 stale_env world0)) = trace world0 ++ evs /\
    cache_get (query_cache (snd (get_all_pages 2 stale_env world0))) (Keyword "west")
    = Some wq /\
    cache_get (query_cache (snd (get_all_pages 2 stale_env world0))) (Keyword "central")
    = Some cq /\
    cache_get (query_cache (snd (get_all_pages 2 stale_env world0))) (Keyword "east")
    = Some eq /\
    requests_of evs = requests_from wq cq eq 1 hs /\
    1 <= List.length hs <= 40 /\
    sleeps_of evs = repeat 10 (List.length hs - 1).
Proof.
  apply (@crawl_requests_in_order stale_env 2 world0
           (snd (get_all_pages 2 stale_env world0)) Converged [car_a]).
  vm_compute. reflexivity.
Defined.

(** Every page that is followed by another one has added a row: at page [n]
    the frame has at least [n - 1] rows, and a crawl that stops at the
    ceiling returns at least 40 rows. *)
Theorem every_continued_page_adds_a_row (E : Env) (w0 : World) :
  (forall n st w, at_page E n w0 = Some (st, w) -> n <= S (List.length (df st)))
  /\
  (forall fuel d w',
      get_all_pages fuel E w0 = (Ok (Some (PageCeiling, d)), w') ->
      40 <= List.length d).
Proof.
  assert (Hhead : forall k st w, loop_head E k w0 = Some (st, w) ->
                                 k <= List.length (df st)).
  { induction k as [|k IH]; intros st w H; [lia|].
    apply loop_head_S in H as (st0 & w1 & H0 & Hit).
    destruct (loop_head_spec H0) as (_ & HI & _).
    apply (iteration_Next_spec HI) in Hit as (_ & _ & _ & (extra & -> & Hne) & _).
    specialize (IH _ _ H0). rewrite length_app.
    destruct extra; [contradiction|]. simpl. lia. }
  split.
  - intros [|k] st w H; [discriminate|]. simpl in H.
    specialize (Hhead _ _ _ H). lia.
  - intros fuel d w' Hrun.
    apply get_all_pages_result in Hrun as (k & st & w & _ & Hh & Hit).
    apply iteration_Ceiling_spec in Hit as (Hp & -> & _).
    destruct (loop_head_spec Hh) as (Hpn & _).
    specialize (Hhead _ _ _ Hh). lia.
Qed.

Lemma every_continued_page_adds_a_row_witness :
  40 <= List.length (match fst (get_all_pages 41 fresh_env world0) with
                     | Ok (Some (_, d)) => d
                     | _ => []
                     end).
Proof.
  destruct (get_all_pages 41 fresh_env world0) as [[[[why d]|]|e] w'] eqn:Hrun;
    try (vm_compute in Hrun; discriminate).
  destruct why; [|vm_compute in Hrun; discriminate].
  exact (proj2 (every_continued_page_adds_a_row fresh_env world0) 41 d w' Hrun).
Defined.

(** ** What a crawl costs *)

Lemma refresh_waf_cost (E : Env) (st : Loop) (w w1 : World) (r : outcome Loop) :
  refresh_waf E st w = (r, w1) ->
  posts w1 = posts w /\ waf_runs w1 <= S (waf_runs w).
Proof.
  rewrite refresh_waf_cases.
  destruct (240 <? _)%Z; [destruct (waf_run E (waf_runs w))|];
    inversion 1; subst; simpl; auto.
Qed.

Lemma fetch_page_cost (E : Env) (st : Loop) (w w' : World)
  (r : outcome DataFrame) :
  fetch_page E st w = (r, w') ->
  posts w' <= posts w + 3 /\ waf_runs w' = waf_runs w.
Proof.
  unfold fetch_page. intros H.
  apply bind_inv in H as [(d1 & w1 & H1 & H)|(e & H1 & _)];
    apply merge_zone_world in H1; subst; [|simpl; split; [lia|reflexivity]].
  apply bind_inv in H as [(d2 & w2 & H2 & H3)|(e & H2 & _)];
    apply merge_zone_world in H2; subst; [|simpl; split; [lia|reflexivity]].
  apply merge_zone_world in H3. subst. simpl. split; [lia|reflexivity].
Qed.

Lemma iteration_cost (E : Env) (st : Loop) (w w' : World) (r : outcome step) :
  iteration E st w = (r, w') ->
  (40 < page_number st -> w' = w) /\
  posts w' <= posts w + 3 /\ waf_runs w' <= S (waf_runs w).
Proof.
  intros H. destruct (Nat.lt_ge_cases 40 (page_number st)) as [Hlt|Hle].
  - rewrite iteration_ceiling in H by assumption. inversion H; subst.
    repeat split; auto; lia.
  - split; [lia|]. rewrite iteration_body in H by assumption.
    apply bind_inv in H as [(st1 & w1 & Hr & H)|(e & Hr & _)];
      apply refresh_waf_cost in Hr as (Hp1 & Hw1); [|lia].
    apply bind_inv in H as [(d & w2 & Hf & Hc)|(e & Hf & _)];
      apply fetch_page_cost in Hf as (Hp2 & Hw2); [|lia].
    rewrite conclude_cases in Hc.
    destruct (_ =? _); inversion Hc; subst; simpl; lia.
Qed.

Lemma loop_cost (E : Env) (f : nat) :
  forall st w,
    page_number st <= 41 ->
    posts (snd (loop f E st w)) + 3 * page_number st <= posts w + 123 /\
    waf_runs (snd (loop f E st w)) + page_number st <= waf_runs w + 41.
Proof.
  induction f as [|f IH]; intros st w Hp; [simpl; lia|].
  rewrite loop_S.
  destruct (iteration E st w) as [[[st'|why d]|e] w1] eqn:Hit;
    pose proof (iteration_cost Hit) as (Hsame & Hposts & Hwaf).
  - apply iteration_Next_page in Hit as (Hle & Hnext).
    destruct (IH st' w1) as (IHp & IHw); lia.
  - simpl. destruct (Nat.lt_ge_cases 40 (page_number st)) as [Hlt|Hle];
      [rewrite (Hsame Hlt)|]; lia.
  - simpl. destruct (Nat.lt_ge_cases 40 (page_number st)) as [Hlt|Hle];
      [rewrite (Hsame Hlt)|]; lia.
Qed.

Lemma enter_loop_cost (E : Env) (w0 w : World) (r : outcome Loop) :
  enter_loop E w0 = (r, w) ->
  posts w = posts w0 /\ waf_runs w <= S (waf_runs w0).
Proof.
  unfold enter_loop. intros H.
  apply bind_inv in H as [(wq & w1 & Hw & H)|(e & Hw & _)];
    apply get_vehicles_query_trace in Hw as (_ & P1 & W1); [|lia].
  apply bind_inv in H as [(cq & w2 & Hc & H)|(e & Hc & _)];
    apply get_vehicles_query_trace in Hc as (_ & P2 & W2); [|lia].
  apply bind_inv in H as [(eq & w3 & He & H)|(e & He & _)];
    apply get_vehicles_query_trace in He as (_ & P3 & W3); [|lia].
  unfold bind, waf_bypass, timer, ret in H.
  destruct (waf_run E (waf_runs w3)); inversion H; subst; simpl; lia.
Qed.

(** However the outside world answers and however the run ends, a crawl
    issues at most 120 requests and runs the bypass at most 41 times. *)
Theorem crawl_is_bounded (E : Env) (fuel : nat) (w0 : World) :
  posts (snd (get_all_pages fuel E w0)) <= posts w0 + 120 /\
  waf_runs (snd (get_all_pages fuel E w0)) <= waf_runs w0 + 41.
Proof.
  unfold get_all_pages, bind.
  destruct (enter_loop E w0) as [[st|e] w] eqn:He;
    pose proof (enter_loop_cost He) as (Hp & Hw); [|simpl; lia].
  apply enter_loop_state in He as (_ & Hpn & _).
  destruct (@loop_cost E fuel st w) as (Lp & Lw); lia.
Qed.

(** ** Failures before the first request *)

(** A crawl needs the template and MODEL for its first query.  When the
    template cannot be opened or read the crawl raises the exception of
    that, OSError for a file that cannot be opened and UnicodeDecodeError
    for one that does not decode; without MODEL it raises TypeError.  In
    each case nothing has been done yet, no bypass run and no request. *)
Theorem crawl_fails_before_any_request (E : Env) (fuel : nat) (w0 : World) :
  cache_get (query_cache w0) (Keyword "west") = None ->
  (forall e, graphql_file E = Raise e ->
             get_all_pages fuel E w0 = (Raise e, w0)) /\
  (forall t, graphql_file E = Ok t -> MODEL E = None ->
             get_all_pages fuel E w0 = (Raise TypeError, w0)).
Proof.
  intros Hmiss. split; [intros e Hf | intros t Hf Hm];
    unfold get_all_pages, enter_loop, bind;
    rewrite get_vehicles_query_cases, Hmiss;
    unfold render_query, bind, lift; rewrite Hf; simpl; [|rewrite Hm];
    reflexivity.
Qed.

Lemma crawl_fails_before_any_request_witness :
  get_all_pages 41 undecodable_env world0 = (Raise UnicodeDecodeError, world0) /\
  get_all_pages 41 (example_env None (fun _ => 0%Z) (fun _ => rows_response []))
                world0
  = (Raise TypeError, world0).
Proof.
  split.
  - apply (proj1 (@crawl_fails_before_any_request undecodable_env 41 world0
                    eq_refl)); reflexivity.
  - apply (proj2 (@crawl_fails_before_any_request
                    (example_env None (fun _ => 0%Z) (fun _ => rows_response []))
                    41 world0 eq_refl) example_template); reflexivity.
Defined.

(** A call of [get_vehicles_query] that raises leaves the world as it was:
    nothing is drawn and nothing is stored, so the next call starts afresh.
    What it raises is the exception of opening or reading the template, or
    KeyError for a zone without a zip code, or TypeError for a missing
    MODEL; for a zone that has no zip code and no stored text it raises
    KeyError once the template is read. *)
Theorem failed_render_changes_nothing (E : Env) (a : args) (w : World) :
  (forall e w', get_vehicles_query E a w = (Raise e, w') ->
                w' = w /\
                (graphql_file E = Raise e \/
                 e = KeyError /\ dict_get zip_codes (zone_of a) = None \/
                 e = TypeError /\ MODEL E = None)) /\
  (forall t, graphql_file E = Ok t ->
             dict_get zip_codes (zone_of a) = None ->
             cache_get (query_cache w) a = None ->
             get_vehicles_query E a w = (Raise KeyError, w)).
Proof.
  split.
  - intros e w'. rewrite get_vehicles_query_cases.
    destruct (cache_get (query_cache w) a); [discriminate|].
    unfold render_query, bind, lift, randbelow, uuid4, draw, ret.
    destruct (graphql_file E) as [t|e0]; [|inversion 1; auto].
    destruct (dict_get zip_codes (zone_of a)); [|inversion 1; auto].
    destruct (MODEL E); [discriminate|inversion 1; auto].
  - intros t Ht Hz Hmiss. rewrite get_vehicles_query_cases, Hmiss.
    unfold render_query, bind, lift. now rewrite Ht, Hz.
Qed.

Lemma failed_render_changes_nothing_witness :
  get_vehicles_query stale_env (Keyword "north") world0 = (Raise KeyError, world0).
Proof.
  apply (proj2 (failed_render_changes_nothing stale_env (Keyword "north") world0)
               example_template); reflexivity.
Defined.

(** ** The page number of a request *)

Lemma string_of_uint_digits (d : Decimal.uint) :
  within decimal_digits (lit (NilEmpty.string_of_uint d)) = true.
Proof.
  induction d; simpl; try reflexivity; assumption.
Qed.

Lemma to_uint_not_nil (n : nat) : Nat.to_uint n <> Decimal.Nil.
Proof.
  intros H. pose proof (DecimalNat.Unsigned.of_to n) as Hn.
  rewrite H in Hn. simpl in Hn. subst n. discriminate.
Qed.

(** A printed number is a non-empty text of decimal digits. *)
Lemma str_of_nat_digits (n : nat) :
  within decimal_digits (str_of_nat n) = true /\ str_of_nat n <> [].
Proof.
  unfold str_of_nat. split; [apply string_of_uint_digits|].
  pose proof (@to_uint_not_nil n) as H.
  destruct (Nat.to_uint n); try contradiction; discriminate.
Qed.

(** Where [old] does not occur, [str.replace] returns the text as it is. *)
Lemma str_replace_absent (p n : text) :
  p <> [] -> forall s, str_in p s = false -> str_replace p n s = s.
Proof.
  intros Hp. intros s; pattern s; apply (scan_ind (p := p)); clear s; [assumption| | |].
  - intros _. now apply str_replace_nil.
  - intros r _ H. rewrite (str_in_here (startswith_app p r)) in H. discriminate.
  - intros c s Hst IH H. rewrite str_replace_skip by assumption.
    f_equal. apply IH. simpl in H. now apply orb_false_iff in H as [_ H].
Qed.

(** The query that [query_toyota] sends for page [p] has no page number
    placeholder left, whatever the page and the query are; where the query
    given had the placeholder, the query sent has the decimal page number;
    a query without the placeholder is sent as it is. *)
Theorem query_toyota_sends_page_number (E : Env) (p : nat) (q : text)
  (h : header_map) (w : World) :
  exists sent,
    trace (snd (query_toyota E p q h w)) = trace w ++ [EvPost p sent h] /\
    str_in PAGENUMBER sent = false /\
    (str_in PAGENUMBER q = true -> str_in (str_of_nat p) sent = true) /\
    (str_in PAGENUMBER q = false -> sent = q).
Proof.
  exists (page_query p q).
  destruct (query_toyota E p q h w) as [r w'] eqn:H.
  apply query_toyota_world in H. subst w'.
  destruct (str_of_nat_digits p) as [Hd Hne].
  assert (Hp : PAGENUMBER <> []) by discriminate.
  unfold page_query. repeat split.
  - apply str_replace_removes; [assumption | assumption|].
    now apply (within_avoids Hd).
  - now apply str_replace_inserts.
  - now apply str_replace_absent.
Qed.

(** ** Rendering for any zone and model *)

Lemma avoids_spec (n q : text) :
  avoids n q = true <-> forall c, In c n -> ~ In c q.
Proof.
  unfold avoids. rewrite forallb_forall. split; intros H c Hc.
  - specialize (H c Hc). apply negb_true_iff in H. intros Hq.
    assert (Hex : existsb (Ascii.eqb c) q = true)
      by (apply existsb_exists; exists c; split; [assumption | apply Ascii.eqb_refl]).
    congruence.
  - apply negb_true_iff. destruct (existsb (Ascii.eqb c) q) eqn:Hex; [|reflexivity].
    apply existsb_exists in Hex as (a & Ha & Hca). apply Ascii.eqb_eq in Hca.
    subst a. now destruct (H c Hc).
Qed.

Lemma avoids_sym (n q : text) : avoids n q = true -> avoids q n = true.
Proof.
  rewrite !avoids_spec. intros H c Hc Hn. exact (H c Hn Hc).
Qed.

Lemma avoids_app_r (n x y : text) :
  avoids n (x ++ y) = true -> avoids n x = true /\ avoids n y = true.
Proof.
  rewrite !avoids_spec. intros H. split; intros c Hc Hq; apply (H c Hc), in_app_iff; auto.
Qed.

(** Texts without a common character are not prefixes of one another. *)
Lemma foreign_comparable (x y : text) :
  x <> [] -> y <> [] -> (forall c, In c x -> ~ In c y) -> comparable x y = false.
Proof.
  destruct x as [|a x]; [contradiction|]. destruct y as [|b y]; [contradiction|].
  intros _ _ H. unfold comparable. simpl.
  assert (Hab : a <> b) by (intros ->; apply (H b); simpl; auto).
  apply Ascii.eqb_neq in Hab. rewrite Hab, (Ascii.eqb_sym b a), Hab. reflexivity.
Qed.

Lemma skipn_not_nil (A : Type) (i : nat) (l : list A) :
  i < List.length l -> skipn i l <> [].
Proof.
  intros Hi H. apply (f_equal (@List.length A)) in H.
  rewrite length_skipn in H. simpl in H. lia.
Qed.

Lemma In_skipn (A : Type) (i : nat) (l : list A) (c : A) :
  In c (skipn i l) -> In c l.
Proof.
  intros H. rewrite <- (firstn_skipn i l). apply in_app_iff. now right.
Qed.

(** Occurrences of two texts without a common character never overlap. *)
Lemma foreign_no_clash (p q : text) :
  p <> [] -> q <> [] -> avoids p q = true -> no_clash p q = true.
Proof.
  intros Hp Hq Hav. pose proof (avoids_sym Hav) as Hav'.
  rewrite avoids_spec in Hav, Hav'.
  unfold no_clash. apply andb_true_iff. split; apply forallb_forall; intros i Hi;
    apply in_seq in Hi; apply negb_true_iff; apply foreign_comparable;
    try assumption; try (apply skipn_not_nil; lia).
  - intros c Hc. apply Hav. exact (In_skipn Hc).
  - intros c Hc. apply Hav'. exact (In_skipn Hc).
Qed.

(** The zip codes of the three zones are non-empty texts of digits. *)
Lemma zip_codes_digits (zone : string) (z : text) :
  dict_get zip_codes zone = Some z ->
  within decimal_digits z = true /\ z <> [].
Proof.
  unfold zip_codes. simpl.
  destruct (String.eqb zone "west"); [inversion 1; split; [reflexivity | discriminate]|].
  destruct (String.eqb zone "central"); [inversion 1; split; [reflexivity | discriminate]|].
  destruct (String.eqb zone "east"); [inversion 1; split; [reflexivity | discriminate]|].
  discriminate.
Qed.

(** Rendering for any zone and model.  For each of the three zones and a
    model code that shares no letter with ZIPCODE and MODELCODE and cannot
    overlap DISTANCEMILES or LEADIDUUID, the first call of
    [get_vehicles_query] for the zone returns a text without any of the four
    placeholders; it has the zip code of the zone where the template had
    ZIPCODE and the model code where the template had MODELCODE, and the
    page number placeholder of the template is kept for [query_toyota]. *)
Theorem render_any_zone (E : Env) (w : World) (a : args) (t z m : text) :
  graphql_file E = Ok t ->
  MODEL E = Some m ->
  dict_get zip_codes (zone_of a) = Some z ->
  cache_get (query_cache w) a = None ->
  m <> [] ->
  avoids m ZIPCODE = true ->
  avoids m MODELCODE = true ->
  no_clash DISTANCEMILES m = true ->
  no_clash LEADIDUUID m = true ->
  exists q w',
    get_vehicles_query E a w = (Ok q, w') /\
    (str_in ZIPCODE t = true -> str_in z q = true) /\
    (str_in MODELCODE t = true -> str_in m q = true) /\
    str_in ZIPCODE q = false /\
    str_in MODELCODE q = false /\
    str_in DISTANCEMILES q = false /\
    str_in LEADIDUUID q = false /\
    (str_in PAGENUMBER t = true -> str_in PAGENUMBER q = true).
Proof.
  intros Ht Hm Hzone Hmiss Hmne Hmz Hmm Hmd Hml.
  rewrite get_vehicles_query_cases, Hmiss.
  rewrite (render_query_Ok w Ht Hzone Hm).
  eexists. eexists. split; [reflexivity|].
  unfold rendered.
  set (r1 := urandom E (rng_draws w)).
  set (r2 := urandom E (S (rng_draws w))).
  destruct (distance_digits r1) as [Hd Hdne].
  destruct (uuid_str_chars (uuid4_int r2)) as [Hu Hune].
  destruct (zip_codes_digits Hzone) as [Hzd Hzne].
  set (dist := str_of_nat (5823 + Z.to_nat (r1 mod Z.of_nat 1000))) in *.
  set (uuid := uuid_str (uuid4_int r2)) in *.
  assert (Hz : ZIPCODE <> []) by discriminate.
  assert (Hmc : MODELCODE <> []) by discriminate.
  assert (Hdm : DISTANCEMILES <> []) by discriminate.
  assert (Hl : LEADIDUUID <> []) by discriminate.
  assert (Hdist : forall q, avoids decimal_digits q = true -> avoids dist q = true)
    by (intros q; now apply within_avoids).
  assert (Huuid : forall q, avoids uuid_alphabet q = true -> avoids uuid q = true)
    by (intros q; now apply within_avoids).
  assert (Hzip : forall q, avoids decimal_digits q = true -> avoids z q = true)
    by (intros q; now apply within_avoids).
  assert (Hzclash : forall p, p <> [] -> avoids decimal_digits p = true ->
                              no_clash p z = true).
  { intros p Hp Hav. apply foreign_no_clash; try assumption.
    apply avoids_sym. now apply Hzip. }
  repeat split.
  - intros Hin.
    apply str_in_forth; [assumption | now apply Hzclash|].
    apply str_in_forth; [assumption | now apply Hzclash|].
    apply str_in_forth; [assumption | now apply Hzclash|].
    now apply str_replace_inserts.
  - intros Hin.
    apply str_in_forth; [assumption | assumption|].
    apply str_in_forth; [assumption | assumption|].
    apply str_replace_inserts; [assumption|].
    apply str_in_forth; [assumption | reflexivity | assumption].
  - apply str_in_absent; auto.
    apply str_in_absent; auto.
    apply str_in_absent; auto.
    apply str_replace_removes; auto.
  - apply str_in_absent; auto.
    apply str_in_absent; auto.
    now apply str_replace_removes.
  - apply str_in_absent; auto.
    apply str_replace_removes; auto.
  - apply str_replace_removes; auto.
  - intros Hpage.
    apply str_in_forth; [assumption | reflexivity|].
    apply str_in_forth; [assumption | reflexivity|].
    apply str_in_forth; [assumption | reflexivity|].
    apply str_in_forth; [assumption | reflexivity | assumption].
Qed.

(** The distance of a rendered query.  Where the template has
    DISTANCEMILES, the text that [get_vehicles_query] renders, for any zone
    and any model code, has the decimal form of a number from 5823 to 6822
    in its place: 5823 plus a number below 1000. *)
Theorem rendered_distance_in_range (E : Env) (w : World) (a : args)
  (t z m : text) :
  graphql_file E = Ok t ->
  MODEL E = Some m ->
  dict_get zip_codes (zone_of a) = Some z ->
  cache_get (query_cache w) a = None ->
  str_in DISTANCEMILES t = true ->
  exists q w' r,
    get_vehicles_query E a w = (Ok q, w') /\
    r < 1000 /\
    str_in (str_of_nat (5823 + r)) q = true /\
    str_in DISTANCEMILES q = false.
Proof.
  intros Ht Hm Hzone Hmiss Hin.
  rewrite get_vehicles_query_cases, Hmiss.
  rewrite (render_query_Ok w Ht Hzone Hm).
  set (r1 := urandom E (rng_draws w)).
  set (r2 := urandom E (S (rng_draws w))).
  eexists. eexists. exists (Z.to_nat (r1 mod Z.of_nat 1000)).
  split; [reflexivity|].
  unfold rendered. fold r1 r2.
  destruct (distance_digits r1) as [Hd Hdne].
  destruct (uuid_str_chars (uuid4_int r2)) as [Hu Hune].
  set (dist := str_of_nat (5823 + Z.to_nat (r1 mod Z.of_nat 1000))) in *.
  set (uuid := uuid_str (uuid4_int r2)) in *.
  assert (Hdm : DISTANCEMILES <> []) by discriminate.
  assert (Hl : LEADIDUUID <> []) by discriminate.
  assert (Hin3 : str_in DISTANCEMILES
                   (str_replace MODELCODE m (str_replace ZIPCODE z t)) = true).
  { apply str_in_forth; [discriminate | reflexivity|].
    apply str_in_forth; [discriminate | reflexivity | exact Hin]. }
  split; [|split].
  - assert (Hr : (0 <= r1 mod Z.of_nat 1000 < 1000)%Z)
      by (change (Z.of_nat 1000) with 1000%Z; apply Z.mod_pos_bound; lia).
    lia.
  - apply str_in_forth; [exact Hl| |].
    + apply foreign_no_clash; [exact Hl | exact Hdne|].
      apply avoids_sym. apply (within_avoids Hd). reflexivity.
    + apply str_replace_inserts; [exact Hdm|]. exact Hin3.
  - apply str_in_absent; [exact Hl | exact Hune | exact Hdm| |].
    + apply (within_avoids Hu). reflexivity.
    + apply str_replace_removes; [exact Hdm | exact Hdne|].
      apply (within_avoids Hd). reflexivity.
Qed.

Lemma render_any_zone_witness :
  exists q w',
    get_vehicles_query camry_env (Keyword "central") world0 = (Ok q, w') /\
    (str_in ZIPCODE example_template = true -> str_in (lit "73007") q = true) /\
    (str_in MODELCODE example_template = true -> str_in (lit "camry") q = true) /\
    str_in ZIPCODE q = false /\
    str_in MODELCODE q = false /\
    str_in DISTANCEMILES q = false /\
    str_in LEADIDUUID q = false /\
    (str_in PAGENUMBER example_template = true -> str_in PAGENUMBER q = true).
Proof.
  apply (@render_any_zone camry_env world0 (Keyword "central") example_template
           (lit "73007") (lit "camry"));
    try reflexivity; discriminate.
Defined.

Lemma rendered_distance_in_range_witness :
  exists q w' r,
    get_vehicles_query stale_env (Keyword "east") world0 = (Ok q, w') /\
    r < 1000 /\
    str_in (str_of_nat (5823 + r)) q = true /\
    str_in DISTANCEMILES q = false.
Proof.
  apply (@rendered_distance_in_range stale_env world0 (Keyword "east") example_template
           (lit "27608") (lit "RAV4")); reflexivity.
Defined.

(** * The option names *)

(** ** The order of [str] *)

Lemma ascii_compare_refl (a : ascii) : Ascii.compare a a = Eq.
Proof. unfold Ascii.compare. apply N.compare_refl. Qed.

Lemma ascii_compare_lt_trans (a b c : ascii) :
  Ascii.compare a b = Lt -> Ascii.compare b c = Lt -> Ascii.compare a c = Lt.
Proof.
  unfold Ascii.compare. rewrite !N.compare_lt_iff. apply N.lt_trans.
Qed.

Lemma string_compare_refl (s : string) : String.compare s s = Eq.
Proof.
  induction s as [|a s IH]; simpl; [reflexivity|].
  now rewrite ascii_compare_refl.
Qed.

Lemma string_compare_lt_trans (x y z : string) :
  String.compare x y = Lt -> String.compare y z = Lt -> String.compare x z = Lt.
Proof.
  revert y z. induction x as [|a x IH]; intros [|b y] [|c z]; simpl;
    try discriminate; try reflexivity.
  destruct (Ascii.compare a b) eqn:Hab; try discriminate;
    destruct (Ascii.compare b c) eqn:Hbc; try discriminate; intros H1 H2.
  - apply Ascii.compare_eq_iff in Hab, Hbc. subst b c.
    rewrite ascii_compare_refl. eapply IH; eassumption.
  - apply Ascii.compare_eq_iff in Hab. subst b. now rewrite Hbc.
  - apply Ascii.compare_eq_iff in Hbc. subst c. now rewrite Hab.
  - now rewrite (ascii_compare_lt_trans Hab Hbc).
Qed.

Lemma ltb_trans (x y z : string) :
  String.ltb x y = true -> String.ltb y z = true -> String.ltb x z = true.
Proof.
  unfold String.ltb.
  destruct (String.compare x y) eqn:H1; try discriminate.
  destruct (String.compare y z) eqn:H2; try discriminate.
  now rewrite (string_compare_lt_trans H1 H2).
Qed.

Lemma ltb_irrefl (x : string) : String.ltb x x = false.
Proof. unfold String.ltb. now rewrite string_compare_refl. Qed.

Lemma leb_ne_ltb (x y : string) :
  String.leb x y = true -> x <> y -> String.ltb x y = true.
Proof.
  unfold String.leb, String.ltb.
  destruct (String.compare x y) eqn:H; try discriminate; try reflexivity.
  apply String.compare_eq_iff in H. contradiction.
Qed.

Lemma not_leb_ltb (x y : string) :
  String.leb x y = false -> String.ltb y x = true.
Proof.
  intros H. apply leb_ne_ltb.
  - destruct (String.leb_total x y); congruence.
  - intros ->. unfold String.leb in H. now rewrite string_compare_refl in H.
Qed.

(** ** [sorted] *)

Lemma In_insert (x n : string) (l : list string) :
  In n (insert x l) <-> n = x \/ In n l.
Proof.
  induction l as [|y l IH]; simpl.
  - intuition.
  - destruct (String.leb x y); simpl; [intuition|]. rewrite IH. intuition.
Qed.

Lemma In_sorted (n : string) (l : list string) : In n (sorted l) <-> In n l.
Proof.
  induction l as [|x l IH]; simpl; [reflexivity|].
  rewrite In_insert, IH. intuition.
Qed.

Lemma ascending_insert (x : string) (l : list string) :
  ascending l -> ~ In x l -> ascending (insert x l).
Proof.
  unfold ascending. induction 1 as [|y l Hl IH Hy]; intros Hx; simpl.
  - constructor; constructor.
  - destruct (String.leb x y) eqn:Hxy.
    + assert (Hlt : String.ltb x y = true).
      { apply leb_ne_ltb; [assumption|]. intros ->. apply Hx. now left. }
      constructor; [now constructor|]. constructor; [assumption|].
      rewrite Forall_forall in *. intros z Hz. eapply ltb_trans; eauto.
    + constructor.
      * apply IH. intros H. apply Hx. now right.
      * rewrite Forall_forall in *. intros z Hz.
        apply In_insert in Hz as [ -> | Hz ]; [now apply not_leb_ltb | auto].
Qed.

Lemma ascending_sorted (l : list string) : NoDup l -> ascending (sorted l).
Proof.
  induction 1 as [|x l Hx Hl IH]; simpl; [constructor|].
  apply ascending_insert; [assumption|]. now rewrite In_sorted.
Qed.

(** Two ascending lists with the same members are the same list. *)
Lemma ascending_unique (l1 l2 : list string) :
  ascending l1 -> ascending l2 ->
  (forall n, In n l1 <-> In n l2) -> l1 = l2.
Proof.
  unfold ascending. intros H1. revert l2.
  induction H1 as [|x l1 Hl1 IH Hx]; intros l2 H2 Hsame.
  - destruct l2 as [|y l2]; [reflexivity|].
    destruct (proj2 (Hsame y)). now left.
  - destruct H2 as [|y l2 Hl2 Hy].
    + destruct (proj1 (Hsame x)). now left.
    + rewrite Forall_forall in Hx, Hy.
      assert (Hxy : x = y).
      { destruct (proj1 (Hsame x) (or_introl eq_refl)) as [E|Hin]; [now symmetry|].
        destruct (proj2 (Hsame y) (or_introl eq_refl)) as [E|Hin']; [assumption|].
        pose proof (ltb_trans (Hx _ Hin') (Hy _ Hin)) as Hc.
        rewrite ltb_irrefl in Hc. discriminate. }
      subst y. f_equal. apply IH; [assumption|].
      intros n. split; intros Hn.
      * destruct (proj1 (Hsame n) (or_intror Hn)) as [E|Hin]; [|assumption].
        subst n. pose proof (Hx _ Hn) as Hc. rewrite ltb_irrefl in Hc. discriminate.
      * destruct (proj2 (Hsame n) (or_intror Hn)) as [E|Hin]; [|assumption].
        subst n. pose proof (Hy _ Hn) as Hc. rewrite ltb_irrefl in Hc. discriminate.
Qed.

(** ** The set *)

Lemma py_eq_refl (v : json) : hashable v = true -> py_eq v v = true.
Proof.
  destruct v; simpl; try discriminate; intros _; auto.
  - apply Bool.eqb_reflx.
  - apply Z.eqb_refl.
  - apply String.eqb_refl.
Qed.

Lemma py_eq_str (n : string) (v : json) :
  py_eq (JStr n) v = true <-> v = JStr n.
Proof.
  destruct v; simpl; split; try discriminate.
  - intros H. apply String.eqb_eq in H. now subst.
  - inversion 1. apply String.eqb_refl.
Qed.

Lemma known_str (n : string) (o : list json) :
  existsb (py_eq (JStr n)) o = true <-> In (JStr n) o.
Proof.
  rewrite existsb_exists. split.
  - intros (v & Hv & He). apply py_eq_str in He. now subst.
  - intros H. exists (JStr n). split; [assumption | now apply py_eq_str].
Qed.

Lemma unknown_not_in (v : json) (o : list json) :
  hashable v = true -> existsb (py_eq v) o = false -> ~ In v o.
Proof.
  intros Hh He Hin.
  assert (H : existsb (py_eq v) o = true)
    by (apply existsb_exists; exists v; split; [assumption | now apply py_eq_refl]).
  congruence.
Qed.

Lemma set_add_cases (v : json) (o o' : list json) :
  set_add v o = Returns o' ->
  hashable v = true /\
  (existsb (py_eq v) o = true /\ o' = o \/
   existsb (py_eq v) o = false /\ o' = o ++ [v]).
Proof.
  unfold set_add. destruct (hashable v); [|discriminate].
  destruct (existsb (py_eq v) o); inversion 1; auto.
Qed.

Lemma set_add_NoDup (v : json) (o o' : list json) :
  set_add v o = Returns o' -> NoDup o -> NoDup o'.
Proof.
  intros H Hnd. apply set_add_cases in H as [Hh [[_ ->]|[He ->]]]; [assumption|].
  apply NoDup_app; [assumption | repeat constructor; simpl; tauto |].
  intros x Hx [ <- | [] ]. exact (unknown_not_in Hh He Hx).
Qed.

Lemma set_add_str (v : json) (o o' : list json) (n : string) :
  set_add v o = Returns o' ->
  (In (JStr n) o' <-> In (JStr n) o \/ v = JStr n).
Proof.
  intros H. apply set_add_cases in H as [Hh [[He ->]|[He ->]]].
  - split; [auto|]. intros [H| -> ]; [assumption|]. now apply known_str.
  - rewrite in_app_iff. simpl. intuition.
Qed.

(** ** The loop *)

Lemma collect_dict (m : list (string * json)) (rest o : list json) :
  collect (JObj m :: rest) o =
  match pick m with
  | Some v =>
      match set_add v o with
      | Raises e => Raises e
      | Returns o' => collect rest o'
      end
  | None => collect rest o
  end.
Proof.
  unfold pick. cbn [collect py_get].
  destruct (py_truthy _); [reflexivity|].
  destruct (py_truthy _); reflexivity.
Qed.

Lemma collect_not_dict (item : json) (rest o : list json) (r : list json) :
  collect (item :: rest) o = Returns r -> exists m, item = JObj m.
Proof.
  destruct item; simpl; try discriminate. eauto.
Qed.

Lemma offers_pick (m : list (string * json)) (n : string) :
  offers (JObj m) n <-> pick m = Some (JStr n).
Proof.
  unfold offers, pick. split.
  - intros (Hn & m' & Hm & H). inversion Hm; subst m'. clear Hm.
    assert (Ht : py_truthy (JStr n) = true).
    { simpl. apply negb_true_iff, String.eqb_neq. assumption. }
    destruct H as [H|[Hf H]].
    + rewrite H, Ht. reflexivity.
    + rewrite H, Ht.
      destruct (dict_get m "marketingName") as [v|]; [|reflexivity].
      now rewrite (Hf v eq_refl).
  - intros H.
    destruct (dict_get m "marketingName") as [v|] eqn:Hname.
    + destruct (py_truthy v) eqn:Hv.
      * inversion H; subst v. split.
        { simpl in Hv. apply negb_true_iff, String.eqb_neq in Hv. assumption. }
        exists m. auto.
      * destruct (dict_get m "marketingLongName") as [u|] eqn:Hlong;
          [|discriminate].
        destruct (py_truthy u) eqn:Hu; [|discriminate].
        inversion H; subst u. split.
        { simpl in Hu. apply negb_true_iff, String.eqb_neq in Hu. assumption. }
        exists m. split; [reflexivity|]. right. split; [|exact Hlong].
        intros v' Hv'. rewrite Hname in Hv'. inversion Hv'; subst. assumption.
    + simpl in H.
      destruct (dict_get m "marketingLongName") as [u|] eqn:Hlong;
        [|discriminate].
      destruct (py_truthy u) eqn:Hu; [|discriminate].
      inversion H; subst u. split.
      { simpl in Hu. apply negb_true_iff, String.eqb_neq in Hu. assumption. }
      exists m. split; [reflexivity|]. right. split; [|exact Hlong].
      intros v' Hv'. rewrite Hname in Hv'. discriminate.
Qed.

(** The strings of the set after the loop: those it had, and those that
    the items offer. *)
Lemma collect_strings (items o o' : list json) (n : string) :
  collect items o = Returns o' ->
  (In (JStr n) o' <->
   In (JStr n) o \/ exists item, In item items /\ offers item n).
Proof.
  revert o. induction items as [|item items IH]; intros o H.
  - inversion H; subst. simpl. split; [auto|]. intros [H1|(x & [] & _)]. assumption.
  - destruct (collect_not_dict H) as (m & ->).
    rewrite collect_dict in H.
    assert (Hstep : (exists item, In item (JObj m :: items) /\ offers item n) <->
                    pick m = Some (JStr n) \/
                    exists item, In item items /\ offers item n).
    { split.
      - intros (x & [ <- |Hx] & Hoff); [left; now apply offers_pick | right; eauto].
      - intros [Hp|(x & Hx & Hoff)].
        + exists (JObj m). split; [now left | now apply offers_pick].
        + exists x. split; [now right | assumption]. }
    rewrite Hstep. clear Hstep.
    destruct (pick m) as [v|] eqn:Hp.
    + destruct (set_add v o) as [o1|e] eqn:Hadd; [|discriminate].
      rewrite (IH _ H), (set_add_str n Hadd).
      split.
      * intros [[H1|H1]|H1];
          [left; assumption | right; left; now subst | right; right; assumption].
      * intros [H1|[H1|H1]];
          [left; left; assumption | left; right; now inversion H1 | right; assumption].
    + rewrite (IH _ H). split.
      * intros [H1|H1]; auto.
      * intros [H1|[H1|H1]]; auto. discriminate.
Qed.

Lemma collect_NoDup (items o o' : list json) :
  collect items o = Returns o' -> NoDup o -> NoDup o'.
Proof.
  revert o. induction items as [|item items IH]; intros o H Hnd.
  - inversion H; subst. assumption.
  - destruct (collect_not_dict H) as (m & ->).
    rewrite collect_dict in H. destruct (pick m) as [v|].
    + destruct (set_add v o) as [o1|e] eqn:Hadd; [|discriminate].
      apply (IH _ H). exact (set_add_NoDup Hadd Hnd).
    + now apply (IH _ H).
Qed.

(** ** The strings of the set *)

Lemma strings_of_map (l : list json) (names : list string) :
  strings_of l = Some names <-> l = map JStr names.
Proof.
  revert names. induction l as [|v l IH]; intros names; simpl.
  - split; [inversion 1; reflexivity|]. destruct names; [reflexivity | discriminate].
  - destruct v; try (split; [discriminate | destruct names; discriminate]).
    destruct (strings_of l) as [r|] eqn:Hr.
    + split.
      * inversion 1; subst. simpl. f_equal. now apply IH.
      * destruct names as [|x names]; [discriminate|]. simpl. inversion 1; subst.
        f_equal. f_equal.
        assert (Hs : Some r = Some names) by (apply IH; reflexivity).
        now inversion Hs.
    + split; [discriminate|].
      destruct names as [|x names]; [discriminate|]. simpl. inversion 1; subst.
      assert (Hs : None = Some names) by (apply IH; reflexivity).
      discriminate.
Qed.

Lemma In_map_JStr (n : string) (names : list string) :
  In (JStr n) (map JStr names) <-> In n names.
Proof.
  rewrite in_map_iff. split.
  - intros (x & Hx & Hin). inversion Hx. now subst.
  - intros H. eauto.
Qed.

Lemma NoDup_map_JStr (names : list string) :
  NoDup (map JStr names) -> NoDup names.
Proof.
  induction names as [|x names IH]; simpl; intros H; [constructor|].
  inversion H; subst. constructor; [|auto].
  intros Hin. now apply H2, In_map_JStr.
Qed.

(** What a returned text is made of. *)
Lemma extract_returns (l : list json) (s : string) :
  extract_marketing_long_names (JArr l) = Returns s ->
  exists names,
    collect l [] = Returns (map JStr names) /\
    NoDup names /\
    s = String.concat " | " (sorted names).
Proof.
  unfold extract_marketing_long_names, join_sorted. cbn [py_iter].
  destruct (collect l []) as [o|e] eqn:Hc; [|discriminate].
  destruct (strings_of o) as [names|] eqn:Hs; [|discriminate].
  inversion 1; subst. exists names.
  apply strings_of_map in Hs. subst o. split; [reflexivity|].
  split; [|reflexivity].
  apply NoDup_map_JStr. apply (collect_NoDup Hc). constructor.
Qed.

(** The names of the result.  A text that the function returns for a list
    of options is the join, with " | " between them, of names in strictly
    ascending order: no name is there twice.  The names are those that the
    options offer: the non-empty "marketingName" of an option, or, for an
    option without a "marketingName" that counts as true, its non-empty
    "marketingLongName". *)
Theorem option_names_sorted (l : list json) (s : string) :
  extract_marketing_long_names (JArr l) = Returns s ->
  exists names,
    s = String.concat " | " names /\
    ascending names /\
    forall n, In n names <-> exists item, In item l /\ offers item n.
Proof.
  intros H. apply extract_returns in H as (names & Hc & Hnd & ->).
  exists (sorted names). split; [reflexivity|].
  split; [now apply ascending_sorted|].
  intros n. rewrite In_sorted, <- In_map_JStr, (collect_strings n Hc).
  simpl. tauto.
Qed.

(** ** When the function returns *)

Lemma all_str_map (o : list json) :
  all_str o <-> exists names, o = map JStr names.
Proof.
  split.
  - induction o as [|v o IH]; intros H; [exists []; reflexivity|].
    destruct (H v (or_introl eq_refl)) as (n & ->).
    destruct IH as (names & ->); [intros x Hx; apply H; now right|].
    exists (n :: names). reflexivity.
  - intros (names & ->) v Hv. apply in_map_iff in Hv as (n & <- & _). eauto.
Qed.

Lemma py_eq_str_r (v : json) (n : string) : py_eq v (JStr n) = true -> v = JStr n.
Proof.
  destruct v; simpl; try discriminate. intros H. apply String.eqb_eq in H. now subst.
Qed.

Lemma set_add_incl (v : json) (o o' : list json) :
  set_add v o = Returns o' -> incl o o' /\ existsb (py_eq v) o' = true.
Proof.
  intros H. apply set_add_cases in H as [Hh [[He ->]|[He ->]]].
  - split; [apply incl_refl | assumption].
  - split; [now apply incl_appl, incl_refl|].
    rewrite existsb_app. simpl. rewrite (py_eq_refl Hh). now rewrite orb_true_r.
Qed.

Lemma collect_incl (items o o' : list json) :
  collect items o = Returns o' -> incl o o'.
Proof.
  revert o. induction items as [|item items IH]; intros o H.
  - inversion H; subst. apply incl_refl.
  - destruct (collect_not_dict H) as (m & ->).
    rewrite collect_dict in H. destruct (pick m) as [v|].
    + destruct (set_add v o) as [o1|e] eqn:Hadd; [|discriminate].
      eapply incl_tran; [exact (proj1 (set_add_incl Hadd)) | exact (IH _ H)].
    + exact (IH _ H).
Qed.

(** A run of the loop that ends with strings only took every item. *)
Lemma collect_took (items o o' : list json) :
  collect items o = Returns o' -> all_str o' -> forallb takes items = true.
Proof.
  revert o. induction items as [|item items IH]; intros o H Hall; [reflexivity|].
  destruct (collect_not_dict H) as (m & ->).
  rewrite collect_dict in H. cbn [forallb takes].
  destruct (pick m) as [v|].
  - destruct (set_add v o) as [o1|e] eqn:Hadd; [|discriminate].
    rewrite (IH _ H Hall), andb_true_r.
    destruct (set_add_incl Hadd) as [_ Hex].
    apply existsb_exists in Hex as (x & Hx & He).
    destruct (Hall x (collect_incl H Hx)) as (n & ->).
    now rewrite (py_eq_str_r He).
  - now rewrite (IH _ H Hall).
Qed.

(** Items that are all taken make the loop end with strings only. *)
Lemma collect_takes (items o : list json) :
  forallb takes items = true -> all_str o ->
  exists o', collect items o = Returns o' /\ all_str o'.
Proof.
  revert o. induction items as [|item items IH]; intros o H Hall.
  - exists o. split; [reflexivity | assumption].
  - cbn [forallb] in H. apply andb_true_iff in H as [Ht H].
    destruct item; try discriminate. rewrite collect_dict.
    cbn [takes] in Ht. destruct (pick m) as [v|]; [|now apply IH].
    destruct v; try discriminate.
    destruct (set_add (JStr s) o) as [o1|e] eqn:Hadd; [|discriminate].
    apply IH; [assumption|].
    intros x Hx. apply set_add_cases in Hadd as [_ [[_ ->]|[_ ->]]]; [now apply Hall|].
    apply in_app_iff in Hx as [Hx|[ <- |[]]]; [now apply Hall | eauto].
Qed.

Lemma takes_well_formed (item : json) : takes item = true <-> well_formed item.
Proof.
  unfold well_formed, textual. split.
  - destruct item; try discriminate. cbn [takes py_get]. unfold pick.
    set (name := match dict_get m "marketingName" with Some v => v | None => JNull end).
    set (long := match dict_get m "marketingLongName" with Some v => v | None => JNull end).
    intros H. exists name, long. split; [reflexivity|]. split; [reflexivity|].
    destruct (py_truthy name) eqn:Hn.
    + split; [|discriminate]. right. destruct name; try discriminate. eauto.
    + split; [now left|]. intros _.
      destruct (py_truthy long) eqn:Hl; [|now left].
      right. destruct long; try discriminate. eauto.
  - intros (name & long & Hname & Hlong & Htn & Htl).
    destruct item; try discriminate. cbn [takes py_get] in *. unfold pick.
    inversion Hname as [Hn]. inversion Hlong as [Hl]. rewrite Hn, Hl.
    destruct (py_truthy name) eqn:Ht.
    + destruct Htn as [Hf|(n & ->)]; [congruence | reflexivity].
    + destruct (py_truthy long) eqn:Ht'; [|reflexivity].
      destruct (Htl eq_refl) as [Hf|(n & ->)]; [congruence | reflexivity].
Qed.

Lemma extract_list_returns_iff (l : list json) :
  (exists s, extract_marketing_long_names (JArr l) = Returns s) <->
  forallb takes l = true.
Proof.
  split.
  - intros (s & H). apply extract_returns in H as (names & Hc & _ & _).
    apply (collect_took Hc). apply all_str_map. eauto.
  - intros H.
    destruct (@collect_takes l [] H) as (o & Hc & Hall); [intros v []|].
    apply all_str_map in Hall as (names & ->).
    unfold extract_marketing_long_names, join_sorted. cbn [py_iter].
    rewrite Hc. rewrite (proj2 (strings_of_map _ names) eq_refl). eauto.
Qed.

(** The order and the repetitions of the options do not matter: two lists
    with the same members give the same text, where the function returns
    for one of them. *)
Theorem option_order_irrelevant (l l' : list json) (s : string) :
  (forall item, In item l <-> In item l') ->
  extract_marketing_long_names (JArr l) = Returns s ->
  extract_marketing_long_names (JArr l') = Returns s.
Proof.
  intros Hsame H.
  assert (Ht : forallb takes l = true) by (apply extract_list_returns_iff; eauto).
  assert (Ht' : forallb takes l' = true).
  { rewrite forallb_forall in *. intros x Hx. apply Ht. now apply Hsame. }
  apply extract_list_returns_iff in Ht' as (s' & H').
  rewrite H'. f_equal.
  apply extract_returns in H as (names & Hc & Hnd & ->).
  apply extract_returns in H' as (names' & Hc' & Hnd' & ->).
  f_equal. apply ascending_unique; try now apply ascending_sorted.
  intros n. rewrite !In_sorted, <- !In_map_JStr.
  rewrite (collect_strings n Hc), (collect_strings n Hc').
  split; intros [[]|(x & Hx & Hoff)]; right; exists x; split;
    try assumption; now apply Hsame.
Qed.

(** ** The exceptions of the loop *)

Lemma collect_passes (item : json) (rest o : list json) :
  passes item ->
  exists o', collect (item :: rest) o = collect rest o'.
Proof.
  intros (m & -> & Hh). rewrite collect_dict.
  destruct (pick m) as [v|]; [|eauto].
  unfold set_add. rewrite (Hh v eq_refl). eauto.
Qed.

(** An item that is not a dict, met after items that pass, ends the loop
    with AttributeError. *)
Lemma collect_not_a_dict (before after : list json) (item : json) :
  Forall passes before -> (forall m, item <> JObj m) ->
  forall o, collect (before ++ item :: after) o = Raises AttributeError.
Proof.
  intros Hb Hitem. induction Hb as [|x before Hx Hb IH]; intros o.
  - destruct item; try reflexivity. now destruct (Hitem m).
  - change ((x :: before) ++ item :: after) with (x :: (before ++ item :: after)).
    destruct (collect_passes (before ++ item :: after) o Hx) as (o' & ->).
    apply IH.
Qed.

(** What ends the loop early: an item that is not a dict, with
    AttributeError, or a value that cannot be a member of a set, with
    TypeError; the items before it pass. *)
Lemma collect_raises (items o : list json) (e : error) :
  collect items o = Raises e ->
  exists before item after,
    items = before ++ item :: after /\ Forall passes before /\
    (e = AttributeError /\ (forall m, item <> JObj m) \/
     e = Exn TypeError /\
     exists m v, item = JObj m /\ pick m = Some v /\ hashable v = false).
Proof.
  revert o. induction items as [|item items IH]; intros o H; [discriminate|].
  destruct item as [ | b | z | s | l | m ];
    try (simpl in H; inversion H; subst;
         eexists [], _, items; split; [reflexivity|]; split; [constructor|];
         left; split; [reflexivity | discriminate]).
  rewrite collect_dict in H.
  assert (Hnext : forall o', collect items o' = Raises e ->
                    (forall v, pick m = Some v -> hashable v = true) ->
                    exists before item after,
                      JObj m :: items = before ++ item :: after /\
                      Forall passes before /\
                      (e = AttributeError /\ (forall m, item <> JObj m) \/
                       e = Exn TypeError /\
                       exists m v, item = JObj m /\ pick m = Some v /\
                                   hashable v = false)).
  { intros o' Hc Hh. destruct (IH _ Hc) as (before & item & after & -> & Hb & He).
    exists (JObj m :: before), item, after. split; [reflexivity|].
    split; [|assumption]. constructor; [|assumption]. exists m. auto. }
  destruct (pick m) as [v|] eqn:Hp.
  - unfold set_add in H. destruct (hashable v) eqn:Hh.
    + apply (Hnext _ H). intros v' Hv'. inversion Hv'; subst. assumption.
    + inversion H; subst. exists [], (JObj m), items. split; [reflexivity|].
      split; [constructor|]. right. split; [reflexivity|]. eauto.
  - apply (Hnext _ H). discriminate.
Qed.

(** When the function returns, and what it raises.  It returns a text if
    and only if its argument can be iterated and every item is a dict whose
    "marketingName" is a string or counts as false, and whose
    "marketingLongName" is so too when the "marketingName" counts as
    false.  For every other argument it raises AttributeError or TypeError:
    AttributeError exactly when the first item that the loop does not pass
    is not a dict, and TypeError in the other cases, which are an argument
    that cannot be iterated, a name that cannot be a member of a set met
    before any item that is not a dict, and a name that is not a string in
    the set when the loop has passed every item. *)
Theorem option_names_domain (options_raw : json) :
  ((exists s, extract_marketing_long_names options_raw = Returns s) <->
   exists items,
     py_iter options_raw = Returns items /\ Forall well_formed items) /\
  (forall e, extract_marketing_long_names options_raw = Raises e ->
             e = AttributeError \/ e = Exn TypeError) /\
  (extract_marketing_long_names options_raw = Raises AttributeError <->
   exists before item after,
     py_iter options_raw = Returns (before ++ item :: after) /\
     Forall passes before /\ (forall m, item <> JObj m)).
Proof.
  split; [|split].
  - assert (Hl : forall l, (exists s, extract_marketing_long_names (JArr l) = Returns s)
                           <-> Forall well_formed l).
    { intros l. rewrite extract_list_returns_iff, forallb_forall, Forall_forall.
      split; intros H x Hx; apply takes_well_formed; now apply H. }
    assert (Hi : forall items, py_iter options_raw = Returns items ->
                   extract_marketing_long_names options_raw
                   = extract_marketing_long_names (JArr items)).
    { intros items Hit. unfold extract_marketing_long_names. rewrite Hit. reflexivity. }
    split.
    + intros (s & H). destruct (py_iter options_raw) as [items|e] eqn:Hit.
      * exists items. split; [reflexivity|]. apply Hl. exists s.
        now rewrite <- (Hi _ eq_refl).
      * unfold extract_marketing_long_names in H. rewrite Hit in H. discriminate.
    + intros (items & Hit & Hall). rewrite (Hi _ Hit). now apply Hl.
  - intros e. unfold extract_marketing_long_names, join_sorted.
    destruct (py_iter options_raw) as [items|e0] eqn:Hit.
    + destruct (collect items []) as [o|e1] eqn:Hc.
      * destruct (strings_of o); inversion 1; auto.
      * inversion 1; subst.
        destruct (collect_raises Hc) as (_ & _ & _ & _ & _ & [[-> _]|[-> _]]); auto.
    + destruct options_raw; simpl in Hit; inversion Hit; subst;
        inversion 1; auto.
  - unfold extract_marketing_long_names, join_sorted. split.
    + destruct (py_iter options_raw) as [items|e0] eqn:Hit.
      * destruct (collect items []) as [o|e1] eqn:Hc.
        { destruct (strings_of o); discriminate. }
        inversion 1; subst.
        destruct (collect_raises Hc)
          as (before & item & after & -> & Hb & [[_ Hd]|[He _]]);
          [|discriminate].
        exists before, item, after. auto.
      * destruct options_raw; simpl in Hit; inversion Hit; subst; discriminate.
    + intros (before & item & after & -> & Hb & Hd).
      now rewrite (collect_not_a_dict after Hb Hd).
Qed.

Lemma option_names_sorted_witness :
  exists names,
    "All-Weather Liner Package | Door Edge Guards | Roof Rack"%string
    = String.concat " | " names /\
    ascending names /\
    forall n, In n names <->
              exists item, In item example_option_list /\ offers item n.
Proof.
  apply (@option_names_sorted example_option_list). vm_compute. reflexivity.
Defined.

Lemma option_order_irrelevant_witness :
  extract_marketing_long_names
    (JArr [option_json JNull (JStr "Door Edge Guards");
           option_json (JStr "Roof Rack") JNull;
           option_json JNull (JStr "Door Edge Guards")])
  = Returns "Door Edge Guards | Roof Rack"%string.
Proof.
  apply (@option_order_irrelevant
           [option_json (JStr "Roof Rack") JNull;
            option_json JNull (JStr "Door Edge Guards")]).
  - intros item. simpl. tauto.
  - vm_compute. reflexivity.
Defined.

(** * The report stage *)

(** A selection has the labels asked for, and no other. *)
Lemma getitems_columns (df t : Table) (ks : list string) :
  getitems df ks = Ok t -> columns t = ks.
Proof.
  unfold getitems. destruct (positions ks (columns df)); inversion 1. reflexivity.
Qed.

(** Assigning to a column that was read adds no label. *)
Lemma setitem_columns (df : Table) (k : string) (old new : list json) :
  getitem df k = Ok old -> columns (setitem df k new) = columns df.
Proof.
  unfold getitem, setitem. destruct (position k (columns df)); [reflexivity | discriminate].
Qed.

Lemma getitem_mask_columns (df : Table) (mask : list bool) :
  columns (getitem_mask df mask) = columns df.
Proof. reflexivity. Qed.

Lemma getitem_missing (df : Table) (k : string) :
  position k (columns df) = None -> getitem df k = Raise KeyError.
Proof. unfold getitem. now intros ->. Qed.

(** [curate] leaves nothing outside, and its frame has the labels of the
    selection, renamed. *)
Lemma curate_cases (D : Desk) (df : Table) (l : list effect) :
  (exists e, curate D df l = (Raise e, l)) \/
  (exists t, curate D df l = (Ok t, l) /\ columns t = curated_columns).
Proof.
  unfold curate, job_bind, answer, job_ret.
  destruct (read_csv D) as [dealers|e]; [|eauto].
  destruct (getitems dealers _) as [dealers'|e]; [|eauto].
  destruct (getitem df "dealerCd") as [codes|e]; [|eauto].
  destruct (series_apply (to_numeric D) codes) as [codes'|e]; [|eauto].
  destruct (merge D _ _) as [merged|e]; [|eauto].
  destruct (model_title D) as [title|e]; [|eauto].
  destruct (getitems merged selection) as [chosen|e] eqn:Hsel; [|eauto].
  apply getitems_columns in Hsel.
  set (df1 := rename renames chosen).
  assert (H1 : columns df1 = curated_columns).
  { unfold df1, rename. cbn [columns]. rewrite Hsel. reflexivity. }
  destruct (getitem df1 "Model") as [names|e] eqn:Hmodel; [|eauto].
  destruct (series_str_replace D _ _ names) as [names'|e]; [|eauto].
  set (df2 := setitem df1 "Model" names').
  assert (H2 : columns df2 = curated_columns).
  { unfold df2. now rewrite (setitem_columns names' Hmodel). }
  destruct (getitem df2 "Color") as [colors|e]; [|eauto].
  set (df3 := getitem_mask df2 (map notna colors)).
  assert (H3 : columns df3 = curated_columns) by exact H2.
  destruct (getitem df3 "Color") as [colors'|e] eqn:Hcolor; [|eauto].
  destruct (series_str_replace D _ _ colors') as [colors''|e]; [|eauto].
  right. eexists. split; [reflexivity|].
  now rewrite (setitem_columns colors'' Hcolor).
Qed.

(** [curate] does the same whatever was left outside before. *)
Lemma curate_quiet (D : Desk) (df : Table) (l : list effect) :
  curate D df l = (fst (curate D df []), l).
Proof.
  unfold curate, job_bind, answer, job_ret.
  repeat match goal with
         | |- context [match ?o with Ok _ => _ | Raise _ => _ end] =>
             destruct o; try reflexivity
         end.
Qed.

(** The frame of [curate] has neither of the two columns that the dealer
    price is computed from. *)
Lemma curated_has_no_price (t : Table) :
  columns t = curated_columns ->
  getitem t "Base MSRP" = Raise KeyError /\
  getitem t "price.dioTotalDealerSellingPrice" = Raise KeyError.
Proof.
  intros H. split; apply getitem_missing; rewrite H; reflexivity.
Qed.

(** [report] on a frame with rows, statement by statement. *)
Lemma report_unfold (D : Desk) (model : text)
  (rest : Table -> list json -> Job unit) (df : Table) (l : list effect) :
  empty df = false ->
  report D model rest df l =
  match sort_values D "vin" df with
  | Raise e => (Raise e, l)
  | Ok sorted =>
      match to_parquet D (raw_path model) sorted with
      | Raise e => (Raise e, l ++ [ParquetWritten (raw_path model) sorted])
      | Ok _ =>
          match curate D sorted (l ++ [ParquetWritten (raw_path model) sorted]) with
          | (Raise e, l2) => (Raise e, l2)
          | (Ok t, l2) =>
              match getitem t "Base MSRP" with
              | Raise e => (Raise e, l2)
              | Ok base => rest t base l2
              end
          end
      end
  end.
Proof.
  intros Hne. unfold report. rewrite Hne. unfold job_bind, answer, leave.
  destruct (sort_values D "vin" df) as [sorted|e]; [|reflexivity].
  destruct (to_parquet D (raw_path model) sorted) as [u|e]; [|reflexivity].
  destruct (curate D sorted _) as [[t|e] l2]; [|reflexivity].
  destruct (getitem t "Base MSRP"); reflexivity.
Qed.

(** What a run of [report] on a frame with rows ends in; [rest] has no
    part in it. *)
Lemma report_cases (D : Desk) (model : text)
  (rest : Table -> list json -> Job unit) (df : Table) (l : list effect) :
  empty df = false ->
  report D model rest df l =
  match sort_values D "vin" df with
  | Raise e => (Raise e, l)
  | Ok sorted =>
      match to_parquet D (raw_path model) sorted with
      | Raise e => (Raise e, l ++ [ParquetWritten (raw_path model) sorted])
      | Ok _ =>
          match fst (curate D sorted []) with
          | Raise e => (Raise e, l ++ [ParquetWritten (raw_path model) sorted])
          | Ok _ => (Raise KeyError, l ++ [ParquetWritten (raw_path model) sorted])
          end
      end
  end.
Proof.
  intros Hne. rewrite (report_unfold D model rest l Hne).
  destruct (sort_values D "vin" df) as [sorted|e]; [|reflexivity].
  destruct (to_parquet D (raw_path model) sorted) as [u|e]; [|reflexivity].
  rewrite (curate_quiet D sorted (l ++ [ParquetWritten (raw_path model) sorted])).
  destruct (curate_cases D sorted []) as [(e & H)|(t & H & Ht)]; rewrite H; simpl.
  - reflexivity.
  - now rewrite (proj1 (curated_has_no_price Ht)).
Qed.

(** The CSV is out of reach.  A run of the report stage on a frame with
    rows always ends in an exception; the statements that follow the
    subscript [df["Base MSRP"]], and with them [df.to_csv], are never run,
    whatever the crawl found and whatever the disk holds.  The stage
    returns only for an empty frame, with a message printed and nothing
    read or written. *)
Theorem report_never_reaches_csv (D : Desk) (model : text)
  (rest rest' : Table -> list json -> Job unit) (df : Table) (l : list effect) :
  report D model rest df l = report D model rest' df l /\
  (empty df = false -> exists e, fst (report D model rest df l) = Raise e) /\
  (empty df = true ->
   report D model rest df l
   = (Ok tt, l ++ [Printed (lit "No vehicles found for model: " ++ model)])).
Proof.
  destruct (empty df) eqn:Hne.
  - unfold report. rewrite Hne. split; [reflexivity|]. split; [discriminate|].
    reflexivity.
  - split; [|split; [|discriminate]].
    + now rewrite !(report_cases D model _ l Hne).
    + intros _. rewrite (report_cases D model rest l Hne).
      destruct (sort_values D "vin" df) as [sorted|e]; [|simpl; eauto].
      destruct (to_parquet D (raw_path model) sorted) as [u|e]; [|simpl; eauto].
      destruct (fst (curate D sorted [])); simpl; eauto.
Qed.

(** The missing column.  When the raw file is written and the statements
    up to the cleaning of the colours pass, the run ends with the KeyError
    of [df["Base MSRP"]]: the selection left "price.baseMsrp" out, so the
    frame has no such column.  The raw file is then the only thing
    written. *)
Theorem report_raises_KeyError (D : Desk) (model : text)
  (rest : Table -> list json -> Job unit) (df sorted t : Table)
  (l : list effect) :
  empty df = false ->
  sort_values D "vin" df = Ok sorted ->
  to_parquet D (raw_path model) sorted = Ok tt ->
  fst (curate D sorted []) = Ok t ->
  columns t = curated_columns /\
  getitem t "Base MSRP" = Raise KeyError /\
  report D model rest df l
  = (Raise KeyError, l ++ [ParquetWritten (raw_path model) sorted]).
Proof.
  intros Hne Hsort Hwrite Hcur.
  assert (Ht : columns t = curated_columns).
  { destruct (curate_cases D sorted []) as [(e & H)|(t' & H & Ht')];
      rewrite H in Hcur; simpl in Hcur; [discriminate|]. now inversion Hcur; subst. }
  split; [assumption|]. split; [exact (proj1 (curated_has_no_price Ht))|].
  now rewrite (report_cases D model rest l Hne), Hsort, Hwrite, Hcur.
Qed.

Lemma report_raises_KeyError_witness :
  columns
    (mkTable curated_columns
       [[JStr "JTMAB3FV1RD000001"; JStr "G"; JNum 31500; JBool false;
         JStr "Available"; JNum 2024; JStr "AWD"; JStr "XLE";
         JStr "Lunar Rock"; JStr "Mark Miller Toyota"; JStr "UT"; JArr []]])
  = curated_columns /\
  getitem
    (mkTable curated_columns
       [[JStr "JTMAB3FV1RD000001"; JStr "G"; JNum 31500; JBool false;
         JStr "Available"; JNum 2024; JStr "AWD"; JStr "XLE";
         JStr "Lunar Rock"; JStr "Mark Miller Toyota"; JStr "UT"; JArr []]])
    "Base MSRP"
  = Raise KeyError /\
  report example_desk (lit "rav4") (fun _ _ => leave (CsvWritten [] example_frame))
         example_frame []
  = (Raise KeyError, [] ++ [ParquetWritten (raw_path (lit "rav4")) example_frame]).
Proof.
  apply (@report_raises_KeyError example_desk (lit "rav4")
           (fun _ _ => leave (CsvWritten [] example_frame))
           example_frame example_frame); reflexivity.
Defined.
